(** * A shallow embedding of the el-stupido compiler front- and middle-end

    The development models, from the C sources under [src/src]:
    - the comptime folder of [cg_expr] (case [ND_COMPTIME], codegen.c);
    - the integer part of binary-operator lowering (case [ND_BINARY]);
    - statement lowering ([cg_stmt], [cg_block], [cg_fn_decl]) over an IR
      of basic blocks, with defers and match, and an interpreter for it;
    - registration of top-level functions and externs in the third pass;
    - the expression and parameter parsers and the top-level dispatch of
      [parser_parse] (parser.c);
    - the macro preprocessor (preproc.c). *)

From Stdlib Require Import ZArith List String Ascii Bool Lia.
Set Warnings "-register-all -non-full-mutual".

Import ListNotations.
Open Scope Z_scope.

(** Results of the modelled C functions: a value, an abort of the process
    ([es_fatal], [perror_at], a failed [assert]), or out of fuel (the C
    code did not finish within the given number of steps). *)
Inductive res (A : Type) :=
  | Ok (a : A)
  | Fatal
  | NoFuel.
Arguments Ok {A} a.
Arguments Fatal {A}.
Arguments NoFuel {A}.

Definition bind {A B} (m : res A) (k : A -> res B) : res B :=
  match m with
  | Ok a => k a
  | Fatal => Fatal
  | NoFuel => NoFuel
  end.

Notation "x <- m ;; k" := (bind m (fun x => k))
  (at level 61, m at next level, right associativity).
Notation "' p <- m ;; k" := (bind m (fun 'p => k))
  (at level 61, p pattern, m at next level, right associativity).

(** Token kinds (lexer.h [TokenKind]). *)
Inductive TokenKind :=
  (* keywords *)
  | TOK_EXT | TOK_FN | TOK_RET | TOK_IF | TOK_EL | TOK_WH
  | TOK_ST | TOK_USE | TOK_AS | TOK_SZ | TOK_NULL_KW
  | TOK_BRK | TOK_CONT | TOK_NW | TOK_DEL
  | TOK_ASM | TOK_CT
  | TOK_FOR | TOK_MATCH | TOK_ENUM | TOK_DEFER | TOK_VAR
  (* type keywords *)
  | TOK_I8 | TOK_I16 | TOK_I32 | TOK_I64
  | TOK_U8 | TOK_U16 | TOK_U32 | TOK_U64
  | TOK_F32 | TOK_F64 | TOK_VOID
  | TOK_BOOL
  (* literals and identifiers *)
  | TOK_INT_LIT | TOK_FLOAT_LIT | TOK_STR_LIT
  | TOK_IDENT
  (* operators *)
  | TOK_PLUS | TOK_MINUS | TOK_STAR | TOK_SLASH | TOK_PERCENT
  | TOK_AMP | TOK_PIPE | TOK_CARET | TOK_TILDE | TOK_BANG
  | TOK_EQ | TOK_NEQ | TOK_LT | TOK_GT | TOK_LEQ | TOK_GEQ
  | TOK_LAND | TOK_LOR
  | TOK_SHL | TOK_SHR
  | TOK_QUESTION | TOK_ASSIGN
  | TOK_PLUS_EQ | TOK_MINUS_EQ | TOK_STAR_EQ | TOK_SLASH_EQ | TOK_PERCENT_EQ
  | TOK_DECL_ASSIGN | TOK_COLON | TOK_ARROW | TOK_DOT | TOK_ELLIPSIS
  | TOK_RANGE | TOK_RANGE_INC | TOK_PIPE_OP | TOK_COMMA
  (* delimiters *)
  | TOK_LPAREN | TOK_RPAREN
  | TOK_LBRACE | TOK_RBRACE
  | TOK_LBRACKET | TOK_RBRACKET
  (* special *)
  | TOK_SEMI | TOK_NEWLINE | TOK_EOF | TOK_ERROR.

Definition TokenKind_eq_dec (a b : TokenKind) : {a = b} + {a <> b}.
Proof. decide equality. Defined.

(** Primitive type kinds (ast.h [TypeKind]). *)
Inductive TypeKind :=
  | TY_I8 | TY_I16 | TY_I32 | TY_I64 | TY_U8 | TY_U16 | TY_U32 | TY_U64
  | TY_F32 | TY_F64 | TY_VOID.

(** ** Compile-time folding: [cg_expr], case [ND_COMPTIME] *)
Module Comptime.

(** The expression forms the folder distinguishes. Any other node kind
    is [C_OTHER]. *)
Inductive cexpr :=
  | C_INT_LIT (v : Z)
  | C_BINARY (op : TokenKind) (l r : cexpr)
  | C_UNARY (op : TokenKind) (e : cexpr)
  | C_TERNARY (c t e : cexpr)
  | C_SIZEOF (target : TypeKind)
  | C_OTHER.

(** The LLVM constant a comptime node lowers to: a [ConstantInt] of a
    given bit width, or the [LLVMSizeOf] constant expression. *)
Inductive cval :=
  | VConstInt (width : Z) (v : Z)
  | VSizeOf (target : TypeKind).

(** [int64_t] wrap-around (two's complement, 64 bits). *)
Definition wrap64 (z : Z) : Z := z - 2 ^ 64 * ((z + 2 ^ 63) / 2 ^ 64).

(** [LLVMConstIntGetSExtValue]: defined on [ConstantInt] only; on the
    [sizeof] constant expression the C API has no defined result, which is
    modelled as failure. *)
Definition sext_value (c : cval) : option Z :=
  match c with
  | VConstInt _ v => Some v
  | VSizeOf _ => None
  end.

(** The [switch (e->binary.op)] of the folder; [None] is the
    [es_fatal("unsupported op ...")] branch. Shifts and signed overflow are
    undefined in C for some operands; they are modelled as the
    mathematical result wrapped to 64 bits. *)
Definition fold_binop (op : TokenKind) (l r : Z) : option Z :=
  match op with
  | TOK_PLUS => Some (l + r)
  | TOK_MINUS => Some (l - r)
  | TOK_STAR => Some (l * r)
  | TOK_SLASH => Some (if r =? 0 then 0 else Z.quot l r)
  | TOK_PERCENT => Some (if r =? 0 then 0 else Z.rem l r)
  | TOK_SHL => Some (Z.shiftl l r)
  | TOK_SHR => Some (Z.shiftr l r)
  | TOK_AMP => Some (Z.land l r)
  | TOK_PIPE => Some (Z.lor l r)
  | TOK_CARET => Some (Z.lxor l r)
  | TOK_EQ => Some (if l =? r then 1 else 0)
  | TOK_NEQ => Some (if l =? r then 0 else 1)
  | TOK_LT => Some (if l <? r then 1 else 0)
  | TOK_GT => Some (if r <? l then 1 else 0)
  | TOK_LEQ => Some (if l <=? r then 1 else 0)
  | TOK_GEQ => Some (if r <=? l then 1 else 0)
  | _ => None
  end.

Definition const_i64 (v : Z) : cval := VConstInt 64 (wrap64 v).

(** [cg_expr] on an [ND_COMPTIME] node wrapping [e]; every recursive call
    goes through a fake [ND_COMPTIME] node, i.e. through this function. *)
Fixpoint cg_comptime (e : cexpr) : option cval :=
  match e with
  | C_INT_LIT v => Some (const_i64 v)
  | C_BINARY op a b =>
      match cg_comptime a, cg_comptime b with
      | Some ca, Some cb =>
          match sext_value ca, sext_value cb with
          | Some l, Some r =>
              match fold_binop op l r with
              | Some v => Some (const_i64 v)
              | None => None
              end
          | _, _ => None
          end
      | _, _ => None
      end
  | C_UNARY TOK_MINUS a =>
      match cg_comptime a with
      | Some ca =>
          match sext_value ca with
          | Some l => Some (const_i64 (- l))
          | None => None
          end
      | None => None
      end
  | C_TERNARY c t f =>
      match cg_comptime c with
      | Some cc =>
          match sext_value cc with
          | Some cz =>
              match cg_comptime (if cz =? 0 then f else t) with
              | Some cp =>
                  match sext_value cp with
                  | Some v => Some (const_i64 v)
                  | None => None
                  end
              | None => None
              end
          | None => None
          end
      | None => None
      end
  | C_SIZEOF ty => Some (VSizeOf ty)
  | _ => None
  end.

End Comptime.

(** ** Integer binary operations: [cg_expr], case [ND_BINARY] *)
Module Binop.

(** An LLVM integer value: its bit width and its bits, read as an
    unsigned number in [0, 2^width). *)
Record ival := IV { iw : Z; ibits : Z }.

Definition mask (w v : Z) : Z := v mod 2 ^ w.

(** Signed reading of [w] bits. *)
Definition signed (w v : Z) : Z := if v <? 2 ^ (w - 1) then v else v - 2 ^ w.

(** [LLVMBuildZExt]: the bits are kept, the width grows. *)
Definition zext (v : ival) (w : Z) : ival := IV w (ibits v).

Definition is_unsigned_kind (k : TypeKind) : bool :=
  match k with
  | TY_U8 | TY_U16 | TY_U32 | TY_U64 => true
  | _ => false
  end.

Definition b2i1 (b : bool) : ival := IV 1 (if b then 1 else 0).

(** [to_bool]: an [i1] is kept, any other integer is compared with 0. *)
Definition to_bool (v : ival) : ival :=
  if iw v =? 1 then v else b2i1 (negb (ibits v =? 0)).

(** The integer [switch (n->binary.op)] on two operands of the same
    width [w]; [uns] is [is_unsigned], computed from the static type of the
    left operand. [None] stands for the [es_fatal] default and for the
    operands on which the LLVM instruction is undefined (division by zero,
    signed [INT_MIN / -1], shift amount not below the width). *)
Definition int_binop (op : TokenKind) (uns : bool) (w l r : Z) : option ival :=
  let sl := signed w l in
  let sr := signed w r in
  match op with
  | TOK_PLUS => Some (IV w (mask w (l + r)))
  | TOK_MINUS => Some (IV w (mask w (l - r)))
  | TOK_STAR => Some (IV w (mask w (l * r)))
  | TOK_SLASH =>
      if r =? 0 then None
      else if uns then Some (IV w (l / r))
      else if (sl =? - 2 ^ (w - 1)) && (sr =? -1) then None
      else Some (IV w (mask w (Z.quot sl sr)))
  | TOK_PERCENT =>
      if r =? 0 then None
      else if uns then Some (IV w (l mod r))
      else if (sl =? - 2 ^ (w - 1)) && (sr =? -1) then None
      else Some (IV w (mask w (Z.rem sl sr)))
  | TOK_EQ => Some (b2i1 (l =? r))
  | TOK_NEQ => Some (b2i1 (negb (l =? r)))
  | TOK_LT => Some (b2i1 (if uns then l <? r else sl <? sr))
  | TOK_GT => Some (b2i1 (if uns then r <? l else sr <? sl))
  | TOK_LEQ => Some (b2i1 (if uns then l <=? r else sl <=? sr))
  | TOK_GEQ => Some (b2i1 (if uns then r <=? l else sr <=? sl))
  | TOK_AMP => Some (IV w (Z.land l r))
  | TOK_PIPE => Some (IV w (Z.lor l r))
  | TOK_CARET => Some (IV w (Z.lxor l r))
  | TOK_SHL => if r <? w then Some (IV w (mask w (Z.shiftl l r))) else None
  | TOK_SHR =>
      if r <? w then
        if uns then Some (IV w (Z.shiftr l r))
        else Some (IV w (mask w (Z.shiftr sl r)))
      else None
  | _ => None
  end.

(** [cg_expr] on [ND_BINARY] when both operands lower to LLVM integers.
    [lty] is the static type of the left operand ([n->type]). The
    short-circuit operators turn each side into an [i1] and merge with a
    phi; the other operators first widen the narrower side by [zext]. *)
Definition cg_int_binary (op : TokenKind) (lty : TypeKind) (left right : ival)
  : option ival :=
  match op with
  | TOK_LAND =>
      let lb := to_bool left in
      if ibits lb =? 0 then Some (b2i1 false) else Some (to_bool right)
  | TOK_LOR =>
      let lb := to_bool left in
      if ibits lb =? 0 then Some (to_bool right) else Some (b2i1 true)
  | _ =>
      let lw := iw left in
      let rw := iw right in
      let '(left', right') :=
        if rw <? lw then (left, zext right lw)
        else if lw <? rw then (zext left rw, right)
        else (left, right) in
      int_binop op (is_unsigned_kind lty) (iw left') (ibits left') (ibits right')
  end.

End Binop.

(** ** Statement lowering: [cg_stmt], [cg_block], [cg_fn_decl] *)
Module Lower.

(** Expressions as far as statement lowering needs them: an integer
    literal (an [i32] constant) or a call of a named function returning
    [i32]. *)
Inductive expr :=
  | EInt (v : Z)
  | ECall (f : string).

(** Statement nodes. [SMatch] carries the parallel [case_vals] /
    [case_bodies] arrays as one list; [None] is the default arm. *)
Inductive stmt :=
  | SRet (value : option expr)
  | SExpr (e : expr)
  | SIf (cond : expr) (then_blk : list stmt) (else_blk : option (list stmt))
  | SWhile (cond : expr) (body : list stmt)
  | SFor (init : stmt) (cond : expr) (incr : stmt) (body : list stmt)
  | SBreak
  | SContinue
  | SMatch (e : expr) (cases : list (option expr * list stmt))
  | SDefer (body : stmt).

(** IR operands and instructions. Registers and blocks are numbered. *)
Inductive operand :=
  | OConst (v : Z)
  | OReg (r : nat).

Inductive instr :=
  | ICall (r : nat) (f : string)
  | ICmpEq (r : nat) (a b : operand)
  | ICmpNe0 (r : nat) (a : operand)
  | IBr (l : nat)
  | ICondBr (c : operand) (lthen lelse : nat)
  | IRet (v : option operand).

Definition is_terminator (i : instr) : bool :=
  match i with
  | IBr _ | ICondBr _ _ _ | IRet _ => true
  | _ => false
  end.

(** Codegen state: the function's blocks (each an instruction list, most
    recent instruction first), the builder's insert block, the number of
    blocks and registers created so far, the defer array [g->defers]
    (insertion order) and the loop targets [loop_cond_bb]/[loop_end_bb]. *)
Record cg := mkCG {
  blocks : nat -> list instr;
  cur : nat;
  nblocks : nat;
  nregs : nat;
  defers : list stmt;
  loop_cond : option nat;
  loop_end : option nat }.

Definition upd {A} (f : nat -> A) (k : nat) (v : A) : nat -> A :=
  fun k' => if Nat.eqb k' k then v else f k'.

Definition set_blocks g b :=
  mkCG b (cur g) (nblocks g) (nregs g) (defers g) (loop_cond g) (loop_end g).
Definition set_defers g d :=
  mkCG (blocks g) (cur g) (nblocks g) (nregs g) d (loop_cond g) (loop_end g).
Definition set_loop g c e :=
  mkCG (blocks g) (cur g) (nblocks g) (nregs g) (defers g) c e.

(** [LLVMBuild*] at the end of the insert block. *)
Definition emit (g : cg) (i : instr) : cg :=
  set_blocks g (upd (blocks g) (cur g) (i :: blocks g (cur g))).

(** [LLVMPositionBuilderAtEnd]. *)
Definition position (g : cg) (l : nat) : cg :=
  mkCG (blocks g) l (nblocks g) (nregs g) (defers g) (loop_cond g) (loop_end g).

(** [LLVMAppendBasicBlockInContext]: a fresh, empty block. *)
Definition new_block (g : cg) : cg * nat :=
  (mkCG (blocks g) (cur g) (S (nblocks g)) (nregs g) (defers g)
        (loop_cond g) (loop_end g), nblocks g).

Definition new_reg (g : cg) : cg * nat :=
  (mkCG (blocks g) (cur g) (nblocks g) (S (nregs g)) (defers g)
        (loop_cond g) (loop_end g), nregs g).

(** [LLVMGetBasicBlockTerminator(LLVMGetInsertBlock(g->bld))] is set. *)
Definition terminated (g : cg) : bool :=
  match blocks g (cur g) with
  | i :: _ => is_terminator i
  | [] => false
  end.

(** [i32] constants: [LLVMConstInt] keeps the low 32 bits. *)
Definition i32 (v : Z) : Z := v mod 2 ^ 32.

(** [cg_expr]. *)
Definition cg_expr (g : cg) (e : expr) : cg * operand :=
  match e with
  | EInt v => (g, OConst (i32 v))
  | ECall f => let '(g1, r) := new_reg g in (emit g1 (ICall r f), OReg r)
  end.

(** The [tobool] compare of [if] and [while] ([to_bool] in [for]): an
    [i32] condition is compared with zero. *)
Definition cg_tobool (g : cg) (c : operand) : cg * operand :=
  let '(g1, r) := new_reg g in (emit g1 (ICmpNe0 r c), OReg r).

(** [if (!terminated) LLVMBuildBr(...)]. *)
Definition br_if_open (g : cg) (l : nat) : cg :=
  if terminated g then g else emit g (IBr l).

(** The lowering functions, with fuel: [cg_stmt], the loop emitting the
    defers ([cg_defers]: no terminator check), [cg_block] (stops after a
    terminator) and the loop over match arms ([cg_cases]). *)
Fixpoint cg_stmt (fuel : nat) (g : cg) (s : stmt) {struct fuel} : res cg :=
  match fuel with
  | O => NoFuel
  | S n =>
    match s with
    | SRet v =>
        let '(g1, rv) :=
          match v with
          | Some e => let '(g1, o) := cg_expr g e in (g1, Some o)
          | None => (g, None)
          end in
        g2 <- cg_defers n g1 (rev (defers g1)) ;;
        Ok (emit g2 (IRet rv))
    | SExpr e => Ok (fst (cg_expr g e))
    | SIf c thn els =>
        let '(g1, cv) := cg_expr g c in
        let '(g2, cb) := cg_tobool g1 cv in
        let '(g3, then_bb) := new_block g2 in
        let '(g4, else_bb) := new_block g3 in
        let '(g5, merge_bb) := new_block g4 in
        let g6 := emit g5 (ICondBr cb then_bb
                             (match els with Some _ => else_bb | None => merge_bb end)) in
        g7 <- cg_block n (position g6 then_bb) thn ;;
        let g8 := br_if_open g7 merge_bb in
        let g9 := position g8 else_bb in
        g10 <- (match els with Some b => cg_block n g9 b | None => Ok g9 end) ;;
        let g11 := br_if_open g10 merge_bb in
        Ok (position g11 merge_bb)
    | SWhile c body =>
        let '(g1, cond_bb) := new_block g in
        let '(g2, body_bb) := new_block g1 in
        let '(g3, end_bb) := new_block g2 in
        let prev_cond := loop_cond g3 in
        let prev_end := loop_end g3 in
        let g4 := set_loop g3 (Some cond_bb) (Some end_bb) in
        let g5 := position (emit g4 (IBr cond_bb)) cond_bb in
        let '(g6, cv) := cg_expr g5 c in
        let '(g7, cb) := cg_tobool g6 cv in
        let g8 := emit g7 (ICondBr cb body_bb end_bb) in
        g9 <- cg_block n (position g8 body_bb) body ;;
        let g10 := br_if_open g9 cond_bb in
        let g11 := set_loop g10 prev_cond prev_end in
        Ok (position g11 end_bb)
    | SFor init c incr body =>
        g1 <- cg_stmt n g init ;;
        let '(g2, cond_bb) := new_block g1 in
        let '(g3, body_bb) := new_block g2 in
        let '(g4, incr_bb) := new_block g3 in
        let '(g5, end_bb) := new_block g4 in
        let prev_cond := loop_cond g5 in
        let prev_end := loop_end g5 in
        let g6 := set_loop g5 (Some incr_bb) (Some end_bb) in
        let g7 := position (emit g6 (IBr cond_bb)) cond_bb in
        let '(g8, cv) := cg_expr g7 c in
        let '(g9, cb) := cg_tobool g8 cv in
        let g10 := emit g9 (ICondBr cb body_bb end_bb) in
        g11 <- cg_block n (position g10 body_bb) body ;;
        let g12 := br_if_open g11 incr_bb in
        g13 <- cg_stmt n (position g12 incr_bb) incr ;;
        let g14 := emit g13 (IBr cond_bb) in
        let g15 := set_loop g14 prev_cond prev_end in
        Ok (position g15 end_bb)
    | SBreak =>
        match loop_end g with
        | Some l => Ok (emit g (IBr l))
        | None => Fatal
        end
    | SContinue =>
        match loop_cond g with
        | Some l => Ok (emit g (IBr l))
        | None => Fatal
        end
    | SMatch e cases =>
        let '(g1, mval) := cg_expr g e in
        let '(g2, end_bb) := new_block g1 in
        g3 <- cg_cases n g2 mval end_bb cases ;;
        let g4 := br_if_open g3 end_bb in
        Ok (position g4 end_bb)
    | SDefer body =>
        if Nat.ltb (List.length (defers g)) 64
        then Ok (set_defers g (defers g ++ [body]))
        else Fatal
    end
  end
with cg_defers (fuel : nat) (g : cg) (ds : list stmt) {struct fuel} : res cg :=
  match fuel with
  | O => NoFuel
  | S n =>
    match ds with
    | [] => Ok g
    | d :: ds' => g1 <- cg_stmt n g d ;; cg_defers n g1 ds'
    end
  end
with cg_block (fuel : nat) (g : cg) (ss : list stmt) {struct fuel} : res cg :=
  match fuel with
  | O => NoFuel
  | S n =>
    match ss with
    | [] => Ok g
    | s :: ss' =>
        g1 <- cg_stmt n g s ;;
        if terminated g1 then Ok g1 else cg_block n g1 ss'
    end
  end
with cg_cases (fuel : nat) (g : cg) (mval : operand) (end_bb : nat)
              (cases : list (option expr * list stmt)) {struct fuel} : res cg :=
  match fuel with
  | O => NoFuel
  | S n =>
    match cases with
    | [] => Ok g
    | (None, body) :: rest =>
        g1 <- cg_block n g body ;;
        cg_cases n (br_if_open g1 end_bb) mval end_bb rest
    | (Some v, body) :: rest =>
        let '(g1, cv) := cg_expr g v in
        let '(g2, r) := new_reg g1 in
        let g3 := emit g2 (ICmpEq r mval cv) in
        let '(g4, then_bb) := new_block g3 in
        let '(g5, next_bb) := new_block g4 in
        let g6 := emit g5 (ICondBr (OReg r) then_bb next_bb) in
        g7 <- cg_block n (position g6 then_bb) body ;;
        let g8 := br_if_open g7 end_bb in
        cg_cases n (position g8 next_bb) mval end_bb rest
    end
  end.

(** Return kinds of a function, as far as the implicit return needs. *)
Inductive ret_kind := RVoid | RInt.

(** The implicit end-of-function return of [cg_fn_decl]. *)
Definition fn_epilogue (fuel : nat) (g : cg) (rk : ret_kind) : res cg :=
  if terminated g then Ok g
  else
    g1 <- cg_defers fuel g (rev (defers g)) ;;
    Ok (emit g1 (IRet (match rk with
                       | RVoid => None
                       | RInt => Some (OConst 0)
                       end))).

(** The state at function entry: block 0 ([entry]) is the insert block,
    the defer array is empty; the loop targets are those of the caller
    (none at top level). Parameters are not modelled. *)
Definition fn_entry : cg := mkCG (fun _ => []) 0 1 0 [] None None.

(** [cg_fn_decl] for a function with body [body]. *)
Definition cg_fn_decl (fuel : nat) (body : list stmt) (rk : ret_kind) : res cg :=
  g1 <- cg_block fuel fn_entry body ;;
  fn_epilogue fuel g1 rk.

End Lower.

(** ** Running the lowered IR *)
Module Exec.
Import Lower.

(** How a run ends: at a call of a marked function (the first thing an
    arm body does, in the statements about [match]), on reaching the
    designated stop block, at a [ret], on a block the verifier rejects,
    or out of fuel. *)
Inductive outcome :=
  | RStop (f : string)
  | RAt (l : nat)
  | RRet (v : option Z)
  | RInvalid
  | ROut.

Definition val (regs : nat -> Z) (o : operand) : Z :=
  match o with
  | OConst v => v
  | OReg r => regs r
  end.

Definition b2z (b : bool) : Z := if b then 1 else 0.

(** Execution of the instructions [is] of a block (in program order),
    then of the blocks it branches to. [oracle f] is the [i32] result of
    a call to [f]. A terminator must end its block and a block must end
    in a terminator, as the LLVM verifier requires. *)
Fixpoint exec (fuel : nat) (bl : nat -> list instr) (marker : string -> bool)
         (stop : nat) (oracle : string -> Z) (regs : nat -> Z)
         (is : list instr) {struct fuel} : outcome :=
  match fuel with
  | O => ROut
  | S n =>
    let jump l :=
      if Nat.eqb l stop then RAt l
      else exec n bl marker stop oracle regs (rev (bl l)) in
    match is with
    | [] => RInvalid
    | ICall r f :: t =>
        if marker f then RStop f
        else exec n bl marker stop oracle (upd regs r (i32 (oracle f))) t
    | ICmpEq r a b :: t =>
        exec n bl marker stop oracle (upd regs r (b2z (val regs a =? val regs b))) t
    | ICmpNe0 r a :: t =>
        exec n bl marker stop oracle (upd regs r (b2z (negb (val regs a =? 0)))) t
    | IBr l :: [] => jump l
    | ICondBr c l1 l2 :: [] => jump (if val regs c =? 0 then l2 else l1)
    | IRet v :: [] => RRet (option_map (val regs) v)
    | _ :: _ => RInvalid
    end
  end.

(** The per-block check of [LLVMVerifyModule]: a block is non-empty, ends
    in a terminator and has no terminator before its end. Blocks are
    stored most recent instruction first. *)
Definition wf_block (b : list instr) : bool :=
  match b with
  | [] => false
  | i :: t => is_terminator i && forallb (fun j => negb (is_terminator j)) t
  end.

Definition verify (g : cg) : bool :=
  forallb (fun l => wf_block (blocks g l)) (seq 0 (nblocks g)).

End Exec.

(** ** Third pass over top-level declarations: [cg_ext_decl], [cg_fn_decl]
    registration and call resolution ([cg_call]) *)
Module Decls.

(** A function signature ([type_fn]): return type, parameter types,
    variadic flag. *)
Record fsig := FSig { ret : TypeKind; ptypes : list TypeKind; vararg : bool }.

(** Top-level declarations. A function's body is reduced to the names it
    calls, in order; its parameters to their names. *)
Inductive decl :=
  | DExt (name : string) (sig : fsig)
  | DFn (name : string) (sig : fsig) (params : list string) (calls : list string)
  | DEnum (members : list string)
  | DSt (name : string).

(** Symbol-table entries: functions carry their function type
    ([llvm_fn_type] set); enum members and locals do not. *)
Inductive skind :=
  | SFun (sig : fsig)
  | SEnumConst
  | SLocal.

Record symbol := Sym { sname : string; skind_of : skind }.

(** Codegen state of this pass: the symbol stack (most recent first, as
    [sym_lookup] scans it), the functions added to the module in order
    ([LLVMAddFunction]), and the log of call resolutions. *)
Record st := ST {
  syms : list symbol;
  funcs : list (string * fsig);
  resolved : list (string * fsig) }.

Definition sym_lookup (ss : list symbol) (n : string) : option symbol :=
  find (fun s => String.eqb (sname s) n) ss.

(** The builtins [cg_call] accepts when the name is not bound. *)
Definition is_builtin (n : string) : bool :=
  existsb (String.eqb n) ["print"; "product"; "sum"; "count"; "min"; "max"]%string.

(** [cg_call] with an identifier callee: a bound function symbol gives its
    signature; a bound non-function is "'%s' is not a function"; an
    unbound builtin is lowered inline (nothing resolved); any other
    unbound name is "undefined function". *)
Definition cg_call (g : st) (n : string) : res st :=
  match sym_lookup (syms g) n with
  | Some (Sym _ (SFun sg)) => Ok (ST (syms g) (funcs g) (resolved g ++ [(n, sg)]))
  | Some _ => Fatal
  | None => if is_builtin n then Ok g else Fatal
  end.

Fixpoint cg_calls (g : st) (cs : list string) : res st :=
  match cs with
  | [] => Ok g
  | c :: cs' => g1 <- cg_call g c ;; cg_calls g1 cs'
  end.

(** [cg_ext_decl]: skipped when the name is bound to any symbol. *)
Definition cg_ext_decl (g : st) (n : string) (sg : fsig) : st :=
  match sym_lookup (syms g) n with
  | Some _ => g
  | None => ST (Sym n (SFun sg) :: syms g) (funcs g ++ [(n, sg)]) (resolved g)
  end.

(** [cg_fn_decl]: adds the function and its symbol unconditionally, pushes
    the parameters, lowers the body, then restores the symbol count. *)
Definition cg_fn_decl (g : st) (n : string) (sg : fsig) (ps : list string)
           (cs : list string) : res st :=
  let outer := Sym n (SFun sg) :: syms g in
  let inner := rev (map (fun p => Sym p SLocal) ps) ++ outer in
  g1 <- cg_calls (ST inner (funcs g ++ [(n, sg)]) (resolved g)) cs ;;
  Ok (ST outer (funcs g1) (resolved g1)).

(** Pass 2: enum members become symbols. *)
Definition enum_pass (g : st) (ds : list decl) : st :=
  fold_left (fun g d =>
    match d with
    | DEnum ms => fold_left (fun g m => ST (Sym m SEnumConst :: syms g) (funcs g) (resolved g)) ms g
    | _ => g
    end) ds g.

(** Pass 3: externs and functions in program order. *)
Fixpoint fn_pass (g : st) (ds : list decl) : res st :=
  match ds with
  | [] => Ok g
  | DExt n sg :: ds' => fn_pass (cg_ext_decl g n sg) ds'
  | DFn n sg ps cs :: ds' => g1 <- cg_fn_decl g n sg ps cs ;; fn_pass g1 ds'
  | _ :: ds' => fn_pass g ds'
  end.

Definition codegen_decls (ds : list decl) : res st :=
  fn_pass (enum_pass (ST [] [] []) ds) ds.

End Decls.

(** ** The expression, type and parameter parsers (parser.c) *)
Module Parse.

(** A token: its kind, its text ([tok_name]) and, for integer literals,
    its value. *)
Record token := Tok { kind : TokenKind; text : string; int_val : Z }.

Definition tk (k : TokenKind) : token := Tok k "" 0.
Definition tk_ident (s : string) : token := Tok TOK_IDENT s 0.
Definition tk_int (v : Z) : token := Tok TOK_INT_LIT "" v.

Definition tok_eqb (a b : TokenKind) : bool :=
  if TokenKind_eq_dec a b then true else false.

(** The parser's view of the lexer: the current token is the head of the
    remaining stream; past the end the lexer keeps returning [TOK_EOF]. *)
Definition peek (ts : list token) : TokenKind :=
  match ts with [] => TOK_EOF | t :: _ => kind t end.

Definition check (ts : list token) (k : TokenKind) : bool := tok_eqb (peek ts) k.

Definition next (ts : list token) : list token := tl ts.

Definition expect (ts : list token) (k : TokenKind) : res (token * list token) :=
  match ts with
  | [] => if tok_eqb TOK_EOF k then Ok (tk TOK_EOF, []) else Fatal
  | t :: r => if tok_eqb (kind t) k then Ok (t, r) else Fatal
  end.

Fixpoint skip_nl (ts : list token) : list token :=
  match ts with
  | t :: r => if tok_eqb (kind t) TOK_NEWLINE || tok_eqb (kind t) TOK_SEMI
              then skip_nl r else ts
  | [] => []
  end.

(** Types ([EsType]). *)
Inductive ty :=
  | TBasic (k : TypeKind)
  | TPtr (t : ty)
  | TArray (n : Z) (t : ty)
  | TStruct (name : string)
  | TFn (ret : ty) (params : list ty) (vararg : bool).

(** Expression nodes. A float literal keeps its text. *)
Inductive node :=
  | NIntLit (v : Z)
  | NFloatLit (s : string)
  | NStrLit (s : string)
  | NNullLit
  | NIdent (name : string)
  | NCall (callee : node) (args : list node)
  | NBinary (op : TokenKind) (l r : node)
  | NUnary (op : TokenKind) (e : node)
  | NTernary (c t e : node)
  | NField (obj : node) (field : string)
  | NIndex (obj idx : node)
  | NCast (e : node) (target : ty)
  | NSizeOf (target : ty)
  | NComptime (e : node)
  | NStructInit (t : ty) (fields : list (string * node)).

Definition param : Type := (string * ty)%type.

(** The [(int)] conversion of a literal's 64-bit value. *)
Definition to_int (v : Z) : Z := v - 2^32 * ((v + 2^31) / 2^32).

Definition basic_type_of (k : TokenKind) : option TypeKind :=
  match k with
  | TOK_I8 => Some TY_I8 | TOK_I16 => Some TY_I16
  | TOK_I32 => Some TY_I32 | TOK_I64 => Some TY_I64
  | TOK_U8 => Some TY_U8 | TOK_U16 => Some TY_U16
  | TOK_U32 => Some TY_U32 | TOK_U64 => Some TY_U64
  | TOK_F32 => Some TY_F32 | TOK_F64 => Some TY_F64
  | TOK_VOID => Some TY_VOID
  | TOK_BOOL => Some TY_I32   (* bool is represented as i32 *)
  | _ => None
  end.

Definition is_type_start (k : TokenKind) : bool :=
  match basic_type_of k with
  | Some _ => true
  | None => tok_eqb k TOK_STAR || tok_eqb k TOK_LBRACKET
  end.

Definition binop_prec (k : TokenKind) : Z :=
  match k with
  | TOK_RANGE | TOK_RANGE_INC => 1
  | TOK_LOR => 2
  | TOK_LAND => 3
  | TOK_PIPE => 4
  | TOK_CARET => 5
  | TOK_AMP => 6
  | TOK_EQ | TOK_NEQ => 7
  | TOK_LT | TOK_GT | TOK_LEQ | TOK_GEQ => 8
  | TOK_SHL | TOK_SHR => 9
  | TOK_PLUS | TOK_MINUS => 10
  | TOK_STAR | TOK_SLASH | TOK_PERCENT => 11
  | _ => -1
  end.

Definition is_unary_op (k : TokenKind) : bool :=
  tok_eqb k TOK_AMP || tok_eqb k TOK_STAR || tok_eqb k TOK_BANG || tok_eqb k TOK_MINUS.

Definition digit (n : nat) : ascii := ascii_of_nat (48 + n).

Fixpoint digits_of (fuel n : nat) (acc : string) : string :=
  match fuel with
  | O => acc
  | S f => let acc' := String (digit (n mod 10)) acc in
           if (n <? 10)%nat then acc' else digits_of f (n / 10) acc'
  end.

(** [snprintf(anon_name, .., "_p%d", anon_idx)]. *)
Definition anon_name (idx : nat) : string :=
  String.append "_p" (digits_of (S idx) idx EmptyString).

(** [looks_like_struct_init]: bounded lookahead, nothing consumed. *)
Definition looks_like_struct_init (ts : list token) : bool :=
  if check ts TOK_LBRACE then
    let ts1 := skip_nl (next ts) in
    if check ts1 TOK_RBRACE then true
    else if check ts1 TOK_IDENT then check (next ts1) TOK_COLON
    else false
  else false.

(** The recursive-descent parser. Every function takes a fuel argument
  (one unit per call) and returns the node built and the remaining
  token stream. *)
Fixpoint parse_type (fuel : nat) (ts : list token) {struct fuel}
  : res (ty * list token) :=
  match fuel with
  | O => NoFuel
  | S n =>
    match ts with
    | [] => Fatal
    | t :: r =>
      if tok_eqb (kind t) TOK_STAR then
        if check r TOK_FN then
          (* function pointer: *fn(types) -> ret *)
          '(_t, ts1) <- expect (next r) TOK_LPAREN ;;
          '(ps, va, ts2) <- parse_params n true ts1 ;;
          '(_t, ts3) <- expect ts2 TOK_RPAREN ;;
          if check ts3 TOK_ARROW then
            '(rt, ts4) <- parse_type n (next ts3) ;;
            Ok (TPtr (TFn rt (map snd ps) va), ts4)
          else Ok (TPtr (TFn (TBasic TY_VOID) (map snd ps) va), ts3)
        else
          '(b, ts1) <- parse_type n r ;; Ok (TPtr b, ts1)
      else if tok_eqb (kind t) TOK_LBRACKET then
        '(sz, ts1) <- expect r TOK_INT_LIT ;;
        '(_t, ts2) <- expect ts1 TOK_RBRACKET ;;
        '(el, ts3) <- parse_type n ts2 ;;
        Ok (TArray (to_int (int_val sz)) el, ts3)
      else match basic_type_of (kind t) with
        | Some b => Ok (TBasic b, r)
        | None =>
          (* named struct type *)
          if tok_eqb (kind t) TOK_IDENT then Ok (TStruct (text t), r) else Fatal
        end
    end
  end

with parse_params (fuel : nat) (allow_anon : bool) (ts : list token) {struct fuel}
  : res (list param * bool * list token) :=
  match fuel with
  | O => NoFuel
  | S n =>
    if check ts TOK_RPAREN then Ok ([], false, ts)
    else if check ts TOK_ELLIPSIS then Ok ([], true, next ts)
    else params_loop n allow_anon 0 ts
  end

with params_loop (fuel : nat) (allow_anon : bool) (anon_idx : nat) (ts : list token)
  {struct fuel} : res (list param * bool * list token) :=
  match fuel with
  | O => NoFuel
  | S n =>
    if check ts TOK_ELLIPSIS then Ok ([], true, next ts)
    else if allow_anon && is_type_start (peek ts) then
      (* anonymous param: type only *)
      '(t, ts1) <- parse_type n ts ;;
      let pm := (anon_name anon_idx, t) in
      if check ts1 TOK_COMMA then
        '(ps, va, ts2) <- params_loop n allow_anon (S anon_idx) (next ts1) ;;
        Ok (pm :: ps, va, ts2)
      else Ok ([pm], false, ts1)
    else
      '(nm, ts1) <- expect ts TOK_IDENT ;;
      '(pm, idx', ts2) <-
        (if check ts1 TOK_COLON then
           '(t, ts2) <- parse_type n (next ts1) ;; Ok ((text nm, t), anon_idx, ts2)
         else if allow_anon then
           (* identifier used as struct type name *)
           Ok ((anon_name anon_idx, TStruct (text nm)), S anon_idx, ts1)
         else
           (* default to i32 when no type is specified *)
           Ok ((text nm, TBasic TY_I32), anon_idx, ts1)) ;;
      if check ts2 TOK_COMMA then
        '(ps, va, ts3) <- params_loop n allow_anon idx' (next ts2) ;;
        Ok (pm :: ps, va, ts3)
      else Ok ([pm], false, ts2)
  end

with parse_expr (fuel : nat) (ts : list token) {struct fuel}
  : res (node * list token) :=
  match fuel with
  | O => NoFuel
  | S n =>
    '(e, ts1) <- parse_binop n 1 ts ;;
    '(e1, ts2) <-
      (if check ts1 TOK_QUESTION then
         '(th, ts2) <- parse_expr n (next ts1) ;;
         '(_t, ts3) <- expect ts2 TOK_COLON ;;
         '(el, ts4) <- parse_expr n ts3 ;;
         Ok (NTernary e th el, ts4)
       else Ok (e, ts1)) ;;
    pipe_loop n e1 ts2
  end

with pipe_loop (fuel : nat) (e : node) (ts : list token) {struct fuel}
  : res (node * list token) :=
  match fuel with
  | O => NoFuel
  | S n =>
    if check ts TOK_PIPE_OP then
      '(rhs, ts1) <- parse_binop n 1 (next ts) ;;
      match rhs with
      | NCall c args => pipe_loop n (NCall c (e :: args)) ts1
      | NIdent _ => pipe_loop n (NCall rhs [e]) ts1
      | _ => Fatal
      end
    else Ok (e, ts)
  end

with parse_binop (fuel : nat) (min_prec : Z) (ts : list token) {struct fuel}
  : res (node * list token) :=
  match fuel with
  | O => NoFuel
  | S n => '(l, ts1) <- parse_cast n ts ;; binop_loop n min_prec l ts1
  end

with binop_loop (fuel : nat) (min_prec : Z) (lft : node) (ts : list token)
  {struct fuel} : res (node * list token) :=
  match fuel with
  | O => NoFuel
  | S n =>
    let op := peek ts in
    let prec := binop_prec op in
    if prec <? min_prec then Ok (lft, ts)
    else
      let next_min :=
        if tok_eqb op TOK_RANGE || tok_eqb op TOK_RANGE_INC then prec else prec + 1 in
      '(rgt, ts1) <- parse_binop n next_min (next ts) ;;
      binop_loop n min_prec (NBinary op lft rgt) ts1
  end

with parse_cast (fuel : nat) (ts : list token) {struct fuel}
  : res (node * list token) :=
  match fuel with
  | O => NoFuel
  | S n => '(e, ts1) <- parse_unary n ts ;; cast_loop n e ts1
  end

with cast_loop (fuel : nat) (e : node) (ts : list token) {struct fuel}
  : res (node * list token) :=
  match fuel with
  | O => NoFuel
  | S n =>
    if check ts TOK_AS then
      '(t, ts1) <- parse_type n (next ts) ;; cast_loop n (NCast e t) ts1
    else Ok (e, ts)
  end

with parse_unary (fuel : nat) (ts : list token) {struct fuel}
  : res (node * list token) :=
  match fuel with
  | O => NoFuel
  | S n =>
    if is_unary_op (peek ts) then
      '(e, ts1) <- parse_unary n (next ts) ;; Ok (NUnary (peek ts) e, ts1)
    else if check ts TOK_CT then
      '(e, ts1) <- parse_unary n (next ts) ;; Ok (NComptime e, ts1)
    else
      '(p, ts1) <- parse_primary n ts ;; parse_postfix n p ts1
  end

with parse_primary (fuel : nat) (ts : list token) {struct fuel}
  : res (node * list token) :=
  match fuel with
  | O => NoFuel
  | S n =>
    match ts with
    | [] => Fatal
    | t :: r =>
      let k := kind t in
      if tok_eqb k TOK_INT_LIT then Ok (NIntLit (int_val t), r)
      else if tok_eqb k TOK_FLOAT_LIT then Ok (NFloatLit (text t), r)
      else if tok_eqb k TOK_STR_LIT then Ok (NStrLit (text t), r)
      else if tok_eqb k TOK_NULL_KW then Ok (NNullLit, r)
      else if tok_eqb k TOK_IDENT then
        (* identifier or struct init sugar T { ... } *)
        if check r TOK_LBRACE && looks_like_struct_init r then
          parse_struct_init_literal n (TStruct (text t)) r
        else Ok (NIdent (text t), r)
      else if tok_eqb k TOK_LPAREN then
        '(e, ts1) <- parse_expr n r ;;
        '(_t, ts2) <- expect ts1 TOK_RPAREN ;;
        Ok (e, ts2)
      else if tok_eqb k TOK_SZ then
        '(t', ts1) <- parse_type n r ;; Ok (NSizeOf t', ts1)
      else if tok_eqb k TOK_NW then
        '(t', ts1) <- parse_type n r ;;
        if check ts1 TOK_LBRACE then parse_struct_init_literal n t' ts1
        else Ok (NCast (NCall (NIdent "malloc") [NSizeOf t']) (TPtr t'), ts1)
      else Fatal
    end
  end

with parse_postfix (fuel : nat) (lft : node) (ts : list token) {struct fuel}
  : res (node * list token) :=
  match fuel with
  | O => NoFuel
  | S n =>
    if check ts TOK_LPAREN then
      let ts1 := next ts in
      '(args, ts2) <- (if check ts1 TOK_RPAREN then Ok ([], ts1) else args_loop n ts1) ;;
      '(_t, ts3) <- expect ts2 TOK_RPAREN ;;
      parse_postfix n (NCall lft args) ts3
    else if check ts TOK_DOT then
      '(nm, ts1) <- expect (next ts) TOK_IDENT ;;
      parse_postfix n (NField lft (text nm)) ts1
    else if check ts TOK_LBRACKET then
      '(i, ts1) <- parse_expr n (next ts) ;;
      '(_t, ts2) <- expect ts1 TOK_RBRACKET ;;
      parse_postfix n (NIndex lft i) ts2
    else Ok (lft, ts)
  end

with args_loop (fuel : nat) (ts : list token) {struct fuel}
  : res (list node * list token) :=
  match fuel with
  | O => NoFuel
  | S n =>
    '(a, ts1) <- parse_expr n (skip_nl ts) ;;
    let ts2 := skip_nl ts1 in
    if check ts2 TOK_COMMA then
      '(rest, ts3) <- args_loop n (next ts2) ;; Ok (a :: rest, ts3)
    else Ok ([a], ts2)
  end

with parse_struct_init_literal (fuel : nat) (t : ty) (ts : list token) {struct fuel}
  : res (node * list token) :=
  match fuel with
  | O => NoFuel
  | S n =>
    '(_t, ts1) <- expect ts TOK_LBRACE ;;
    '(fs, ts2) <- fields_loop n (skip_nl ts1) ;;
    Ok (NStructInit t fs, ts2)
  end

with fields_loop (fuel : nat) (ts : list token) {struct fuel}
  : res (list (string * node) * list token) :=
  match fuel with
  | O => NoFuel
  | S n =>
    if check ts TOK_RBRACE || check ts TOK_EOF then
      '(_t, ts1) <- expect ts TOK_RBRACE ;; Ok ([], ts1)
    else
      '(fname, ts1) <- expect ts TOK_IDENT ;;
      '(_t, ts2) <- expect ts1 TOK_COLON ;;
      '(v, ts3) <- parse_expr n ts2 ;;
      let ts4 :=
        if check ts3 TOK_COMMA then skip_nl (next ts3)
        else let u := skip_nl ts3 in if check u TOK_RBRACE then u else skip_nl u in
      '(fs, ts5) <- fields_loop n ts4 ;;
      Ok ((text fname, v) :: fs, ts5)
  end.

End Parse.

(** ** Keyword-free declarations and function headers (parser.c) *)
Module TopLevel.
Import Parse.

(** The header of [parse_fn_decl]: keyword, name, optional parameter list
    (parsed with [allow_anon = false]) and optional [-> type]. The body
    that follows is parsed by [parse_block]; the return-type inference
    done after it reads and writes only the return type, never the
    parameters. *)
Record fn_head := FnHead {
  fn_name : string; fn_params : list param; fn_vararg : bool; fn_ret : ty }.

Definition parse_fn_head (fuel : nat) (has_kw : bool) (ts : list token)
  : res (fn_head * list token) :=
  ts0 <- (if has_kw then p <- expect ts TOK_FN ;; Ok (snd p) else Ok ts) ;;
  '(name, ts1) <- expect ts0 TOK_IDENT ;;
  let is_main := String.eqb (text name) "main" in
  '(ps, va, ts2) <-
    (if check ts1 TOK_LPAREN then
       '(_t, ts2) <- expect ts1 TOK_LPAREN ;;
       '(ps, va, ts3) <- parse_params fuel false ts2 ;;
       '(_t, ts4) <- expect ts3 TOK_RPAREN ;;
       Ok (ps, va, ts4)
     else Ok ([], false, ts1)) ;;
  '(rt, ts3) <-
    (if check ts2 TOK_ARROW then parse_type fuel (next ts2)
     else Ok (if is_main then TBasic TY_I32 else TBasic TY_VOID, ts2)) ;;
  Ok (FnHead (text name) ps va rt, ts3).

(** Which parser [parse_decl] hands a declaration to. *)
Inductive decl_kind := DK_Ext | DK_Fn | DK_St | DK_Enum.

Definition parse_decl_choice (ts : list token) : option decl_kind :=
  if check ts TOK_EXT then Some DK_Ext
  else if check ts TOK_FN then Some DK_Fn
  else if check ts TOK_ST then Some DK_St
  else if check ts TOK_ENUM then Some DK_Enum
  else if check ts TOK_IDENT then
    (* keyword-free: IDENT( -> function, IDENT{ -> struct *)
    if check (next ts) TOK_LPAREN then Some DK_Fn
    else if check (next ts) TOK_LBRACE then Some DK_St
    else None
  else None.

(** What one iteration of the [parser_parse] loop does with the form at
    the head of the stream: a [use], a declaration (by the parser
    [parse_decl] picks; [TF_Err] when it reports "expected
    declaration"), or a top-level statement. *)
Inductive top_form := TF_Use | TF_Decl (k : decl_kind) | TF_Err | TF_Stmt.

Definition decl_form (ts : list token) : top_form :=
  match parse_decl_choice ts with Some k => TF_Decl k | None => TF_Err end.

(** The scan to the matching [)]: called with [depth > 0] just after
    the opening [(]; stops on [TOK_EOF] or on the [)] that brings the
    depth to 0. *)
Fixpoint skip_to_rparen (depth : nat) (ts : list token) : list token :=
  match ts with
  | [] => []
  | t :: r =>
    if tok_eqb (kind t) TOK_EOF then ts
    else
      let d := if tok_eqb (kind t) TOK_LPAREN then S depth
               else if tok_eqb (kind t) TOK_RPAREN then pred depth
               else depth in
      if (0 <? d)%nat then skip_to_rparen d r else ts
  end.

Definition top_form_of (ts : list token) : top_form :=
  if check ts TOK_USE then TF_Use
  else if check ts TOK_EXT || check ts TOK_FN || check ts TOK_ST || check ts TOK_ENUM
  then decl_form ts
  else if check ts TOK_IDENT then
    let r := next ts in
    if check r TOK_LBRACE then decl_form ts
    else if check r TOK_LPAREN then
      let u := skip_to_rparen 1 (next r) in
      let u := if check u TOK_RPAREN then next u else u in
      if check u TOK_ASSIGN || check u TOK_ARROW || check u TOK_LBRACE
      then decl_form ts
      else TF_Stmt
    else TF_Stmt
  else TF_Stmt.

End TopLevel.

(** ** The macro preprocessor (preproc.c) over NUL-terminated byte strings

    A C string is a [list ascii]; reading past the end of the list reads the
    terminating NUL, and a NUL inside the list ends the string as in C.
    [Fatal] stands for a write past one of the fixed-size arrays ([tp] and
    [args] hold 8 entries, [ms] 128), which is undefined behaviour in C. *)
Module Preproc.

Definition NUL : ascii := "000"%char.
Definition QUOTE : ascii := "034"%char.
Definition BSLASH : ascii := "092"%char.
Definition NL : ascii := "010"%char.
Definition TAB : ascii := "009"%char.

Definition cur (s : list ascii) : ascii := match s with [] => NUL | c :: _ => c end.
Definition at_end (s : list ascii) : bool := Ascii.eqb (cur s) NUL.
Definition is_c (s : list ascii) (c : ascii) : bool := Ascii.eqb (cur s) c.

Definition isalpha (c : ascii) : bool :=
  let n := nat_of_ascii c in
  ((65 <=? n) && (n <=? 90) || (97 <=? n) && (n <=? 122))%nat.
Definition isdigit (c : ascii) : bool :=
  let n := nat_of_ascii c in ((48 <=? n) && (n <=? 57))%nat.
Definition ic (c : ascii) : bool := isalpha c || isdigit c || Ascii.eqb c "_"%char.

Definition byte_at (s : list ascii) (i : nat) : Z := Z.of_nat (nat_of_ascii (cur (skipn i s))).

(** [u8d]: the code point and the byte length of the UTF-8 sequence. *)
Definition u8d (s : list ascii) : Z * nat :=
  let c := byte_at s 0 in
  if c <? 128 then (c, 1%nat)
  else if Z.land c 224 =? 192 then
    (Z.lor (Z.shiftl (Z.land c 31) 6) (Z.land (byte_at s 1) 63), 2%nat)
  else if Z.land c 240 =? 224 then
    (Z.lor (Z.lor (Z.shiftl (Z.land c 15) 12) (Z.shiftl (Z.land (byte_at s 1) 63) 6))
           (Z.land (byte_at s 2) 63), 3%nat)
  else if Z.land c 248 =? 240 then
    (Z.lor (Z.lor (Z.lor (Z.shiftl (Z.land c 7) 18) (Z.shiftl (Z.land (byte_at s 1) 63) 12))
                  (Z.shiftl (Z.land (byte_at s 2) 63) 6))
           (Z.land (byte_at s 3) 63), 4%nat)
  else (c, 1%nat).

(** [cem]: bytes of the code point [cp] at [s] plus an optional U+FE0F,
    or 0. *)
Definition cem (s : list ascii) (cp : Z) : nat :=
  let '(v, b) := u8d s in
  if negb (v =? cp) then 0%nat
  else let '(v2, vb) := u8d (skipn b s) in
       if v2 =? 65039 then (b + vb)%nat else b.

Fixpoint skip_ws (s : list ascii) : list ascii :=
  match s with
  | c :: r => if Ascii.eqb c " "%char || Ascii.eqb c TAB then skip_ws r else s
  | [] => []
  end.

(** The identifier characters at [s], and the rest. *)
Fixpoint take_ident (s : list ascii) : list ascii * list ascii :=
  match s with
  | c :: r => if ic c then let '(w, r') := take_ident r in (c :: w, r') else ([], s)
  | [] => ([], [])
  end.

(** The bytes up to (excluding) the next newline or NUL, and the rest. *)
Fixpoint take_line (s : list ascii) : list ascii * list ascii :=
  match s with
  | c :: r => if Ascii.eqb c NUL || Ascii.eqb c NL then ([], s)
              else let '(w, r') := take_line r in (c :: w, r')
  | [] => ([], [])
  end.

Record macro := Mac { name : list ascii; params : list (list ascii); body : list ascii }.

(** The parameter loop of [collect], from just after [(]. *)
Fixpoint params_scan (fuel : nat) (q : list ascii) (tp : list (list ascii))
  : res (list (list ascii) * list ascii) :=
  match fuel with
  | O => NoFuel
  | S n =>
    if at_end q || is_c q ")"%char then Ok (tp, q)
    else
      let '(w, q1) := take_ident (skip_ws q) in
      tp' <- (match w with
              | [] => Ok tp
              | _ => if (8 <=? List.length tp)%nat then Fatal else Ok (tp ++ [w])
              end) ;;
      let q2 := skip_ws q1 in
      let q3 := if is_c q2 ","%char then tl q2 else q2 in
      params_scan n q3 tp'
  end.

(** Recognition of a [⚡ NAME(params) 👉 body] line at [p] (leading blanks
    already skipped): the macro and the position after the line. *)
Definition macro_def (fuel : nat) (p : list ascii) : res (option (macro * list ascii)) :=
  let cl := cem p 9889 in                         (* U+26A1 *)
  if (cl =? 0)%nat then Ok None
  else
    let '(nm, q1) := take_ident (skip_ws (skipn cl p)) in
    match nm with
    | [] => Ok None
    | _ =>
      '(tp, q2) <-
        (if is_c q1 "("%char then
           '(tp, q) <- params_scan fuel (tl q1) [] ;;
           Ok (tp, if is_c q ")"%char then tl q else q)
         else Ok ([], q1)) ;;
      let q3 := skip_ws q2 in
      let pl := cem q3 128073 in                  (* U+1F449 *)
      if (pl =? 0)%nat then Ok None
      else
        let '(bd, q4) := take_line (skip_ws (skipn pl q3)) in
        Ok (Some (Mac nm tp bd, if is_c q4 NL then tl q4 else q4))
    end.

(** [collect]: strips macro definition lines into [ms] (in order) and
    copies every other line. *)
Fixpoint collect_loop (fuel : nat) (p out : list ascii) (ms : list macro)
  : res (list ascii * list macro) :=
  match fuel with
  | O => NoFuel
  | S n =>
    if at_end p then Ok (out, ms)
    else
      d <- macro_def n (skip_ws p) ;;
      match d with
      | Some (m, p') =>
        if (128 <=? List.length ms)%nat then Fatal else collect_loop n p' out (ms ++ [m])
      | None =>
        (* copy line verbatim *)
        let '(line, p1) := take_line p in
        if is_c p1 NL then collect_loop n (tl p1) (out ++ line ++ [NL]) ms
        else collect_loop n p1 (out ++ line) ms
      end
  end.

Definition collect (fuel : nat) (src : list ascii) : res (list ascii * list macro) :=
  collect_loop fuel src [] [].

Definition bytes_eqb (a b : list ascii) : bool :=
  if list_eq_dec Ascii.ascii_dec a b then true else false.

(** The byte before position [r] of the string [src] that [r] is a suffix
    of ([r[-1]]), or [None] at the start ([r == src]). *)
Definition prev_char (src r : list ascii) : option ascii :=
  let k := (List.length src - List.length r)%nat in
  match k with O => None | S k' => Some (nth k' src NUL) end.

Definition word_start (src r : list ascii) : bool :=
  (isalpha (cur r) || is_c r "_"%char) &&
  match prev_char src r with None => true | Some c => negb (ic c) end.

(** A string literal from just after its opening quote: the bytes copied
    (with the closing quote, if any) and the rest. *)
Fixpoint str_tail (r : list ascii) : list ascii * list ascii :=
  match r with
  | [] => ([], [])
  | c :: r1 =>
    if Ascii.eqb c NUL then ([], r)
    else if Ascii.eqb c QUOTE then ([c], r1)
    else if Ascii.eqb c BSLASH && negb (at_end r1) then
      match r1 with
      | d :: r2 => let '(w, r3) := str_tail r2 in (c :: d :: w, r3)
      | [] => ([c], [])
      end
    else let '(w, r2) := str_tail r1 in (c :: w, r2)
  end.

Fixpoint find_param (ps : list (list ascii)) (w : list ascii) : option nat :=
  match ps with
  | [] => None
  | p :: ps' => if bytes_eqb p w then Some 0%nat
                else option_map S (find_param ps' w)
  end.

(** [subst]: scans the body of [m] ([src] is the whole body). *)
Fixpoint subst_loop (fuel : nat) (m : macro) (args : list (list ascii))
         (src b out : list ascii) : res (list ascii) :=
  match fuel with
  | O => NoFuel
  | S n =>
    if at_end b then Ok out
    else if is_c b QUOTE then
      let '(w, b1) := str_tail (tl b) in
      subst_loop n m args src b1 (out ++ QUOTE :: w)
    else if word_start src b then
      let '(w, b1) := take_ident b in
      let rep := match find_param (params m) w with
                 | Some j => if (j <? List.length args)%nat then nth j args [] else w
                 | None => w
                 end in
      subst_loop n m args src b1 (out ++ rep)
    else subst_loop n m args src (tl b) (out ++ [cur b])
  end.

Definition subst (m : macro) (args : list (list ascii)) : res (list ascii) :=
  subst_loop (S (List.length (body m))) m args (body m) (body m) [].

(** The argument loop of a function-like invocation, from just after
    [(]: the completed arguments, the bytes of the current one ([as]..[r])
    and the position where the loop stopped. *)
Fixpoint args_scan (fuel : nat) (r : list ascii) (depth : nat)
         (acc : list ascii) (args : list (list ascii))
  : res (list (list ascii) * list ascii * list ascii) :=
  match fuel with
  | O => NoFuel
  | S n =>
    if at_end r || (depth =? 0)%nat then Ok (args, acc, r)
    else if is_c r QUOTE then
      let '(w, r1) := str_tail (tl r) in
      args_scan n r1 depth (acc ++ QUOTE :: w) args
    else if is_c r "("%char then args_scan n (tl r) (S depth) (acc ++ [cur r]) args
    else if is_c r ")"%char then
      if (pred depth =? 0)%nat then Ok (args, acc, r)
      else args_scan n (tl r) (pred depth) (acc ++ [cur r]) args
    else if is_c r ","%char && (depth =? 1)%nat then
      if (8 <=? List.length args)%nat then Fatal
      else args_scan n (tl r) depth [] (args ++ [acc])
    else args_scan n (tl r) depth (acc ++ [cur r]) args
  end.

(** [expand]: one pass over [src]; the output and the [changed] flag. *)
Fixpoint expand_loop (fuel : nat) (ms : list macro) (src r out : list ascii)
         (changed : bool) : res (list ascii * bool) :=
  match fuel with
  | O => NoFuel
  | S n =>
    if at_end r then Ok (out, changed)
    else if is_c r QUOTE then
      let '(w, r1) := str_tail (tl r) in
      expand_loop n ms src r1 (out ++ QUOTE :: w) changed
    else if is_c r "'"%char && negb (at_end (tl r)) && is_c (tl (tl r)) "'"%char then
      expand_loop n ms src (skipn 3 r) (out ++ firstn 3 r) changed
    else if is_c r "/"%char && is_c (tl r) "/"%char then
      let '(w, r1) := take_line r in
      expand_loop n ms src r1 (out ++ w) changed
    else if word_start src r then
      let '(w, r1) := take_ident r in
      match find (fun m => bytes_eqb (name m) w) ms with
      | Some m =>
        if (0 <? List.length (params m))%nat && is_c r1 "("%char then
          '(args, last_arg, r2) <- args_scan (S (List.length r1)) (tl r1) 1 [] [] ;;
          if (8 <=? List.length args)%nat then Fatal
          else
            let r3 := if is_c r2 ")"%char then tl r2 else r2 in
            bd <- subst m (args ++ [last_arg]) ;;
            expand_loop n ms src r3 (out ++ bd) true
        else if (List.length (params m) =? 0)%nat then
          expand_loop n ms src r1 (out ++ body m) true
        else expand_loop n ms src r1 (out ++ w) changed
      | None => expand_loop n ms src r1 (out ++ w) changed
      end
    else expand_loop n ms src (tl r) (out ++ [cur r]) changed
  end.

(** [expand] returns [NULL] ([None]) when no macro was substituted. *)
Definition expand (ms : list macro) (src : list ascii) : res (option (list ascii)) :=
  '(out, changed) <- expand_loop (S (List.length src)) ms src src [] false ;;
  Ok (if changed then Some out else None).

(** The pass loop of [preprocess]: at most [passes] more calls of
    [expand]; the final text and the number of calls made. *)
Fixpoint pp_loop (passes : nat) (ms : list macro) (text : list ascii)
  : res (list ascii * nat) :=
  match passes with
  | O => Ok (text, 0%nat)
  | S k =>
    e <- expand ms text ;;
    match e with
    | None => Ok (text, 1%nat)
    | Some t => '(fin, c) <- pp_loop k ms t ;; Ok (fin, S c)
    end
  end.

(** [preprocess], with the number of expansion passes it ran. *)
Definition preprocess (fuel : nat) (src : list ascii) : res (list ascii * nat) :=
  '(text, ms) <- collect fuel src ;;
  match ms with
  | [] => Ok (text, 0%nat)
  | _ => pp_loop 16 ms text
  end.

End Preproc.

(** * Properties *)

(** ** Comptime folding *)
Module ComptimeFacts.
Import Comptime.

Lemma const_i64_zero : const_i64 0 = VConstInt 64 0.
Proof. reflexivity. Qed.

(** Every successful fold of a node other than [sizeof] is an [i64]
    constant. *)
Lemma cg_comptime_i64 (e : cexpr) (v : cval) :
  cg_comptime e = Some v ->
  match e with C_SIZEOF _ => True | _ => exists z, v = VConstInt 64 z end.
Proof.
  intros H; destruct e as [z|op a b|op a|c t f|k|]; simpl in H; auto;
    repeat (discriminate || match goal with
           | H : Some _ = Some _ |- _ => injection H as <-
           | H : context [match ?x with _ => _ end] |- _ => destruct x
           end); eexists; reflexivity.
Qed.

(** C8: a folded [/] or [%] whose right operand folds to 0 yields 0, and
    every foldable comptime expression other than [sizeof] is emitted as an
    [i64] constant. *)
Theorem comptime_div_zero_and_i64 (e : cexpr) (v : cval) :
  cg_comptime e = Some v ->
  (match e with C_SIZEOF _ => True | _ => exists z, v = VConstInt 64 z end) /\
  (forall op a b, e = C_BINARY op a b -> op = TOK_SLASH \/ op = TOK_PERCENT ->
     cg_comptime b = Some (VConstInt 64 0) -> v = VConstInt 64 0).
Proof.
  intros H; split; [apply cg_comptime_i64; exact H|].
  intros op a b -> Hop Hb; simpl in H; rewrite Hb in H.
  destruct (cg_comptime a) as [ca|]; [|discriminate].
  destruct (sext_value ca) as [l|]; [|discriminate]; simpl in H.
  destruct Hop as [->| ->]; simpl in H; injection H as <-; reflexivity.
Qed.

Lemma comptime_div_zero_and_i64_witness :
  cg_comptime (C_BINARY TOK_SLASH (C_INT_LIT 7) (C_INT_LIT 0)) = Some (VConstInt 64 0) /\
  ((exists z, VConstInt 64 0 = VConstInt 64 z) /\
   (forall op a b, C_BINARY TOK_SLASH (C_INT_LIT 7) (C_INT_LIT 0) = C_BINARY op a b ->
      op = TOK_SLASH \/ op = TOK_PERCENT ->
      cg_comptime b = Some (VConstInt 64 0) -> VConstInt 64 0 = VConstInt 64 0)).
Proof.
  split; [reflexivity|].
  exact (comptime_div_zero_and_i64 (C_BINARY TOK_SLASH (C_INT_LIT 7) (C_INT_LIT 0))
           (VConstInt 64 0) eq_refl).
Defined.

End ComptimeFacts.

(** ** Binary operations on integers of different widths *)
Module BinopFacts.
Import Binop.

Definition is_cmp (op : TokenKind) : bool :=
  match op with
  | TOK_EQ | TOK_NEQ | TOK_LT | TOK_GT | TOK_LEQ | TOK_GEQ => true
  | _ => false
  end.

Lemma int_binop_width (op : TokenKind) (uns : bool) (w l r : Z) (v : ival) :
  int_binop op uns w l r = Some v -> iw v = if is_cmp op then 1 else w.
Proof.
  unfold int_binop; destruct op; simpl; intros H; try discriminate;
    repeat (match goal with
            | H : Some _ = Some _ |- _ => injection H as <-
            | H : context [if ?b then _ else _] |- _ => destruct b
            end; try discriminate); reflexivity.
Qed.

Lemma to_bool_i1 (v : ival) : iw (to_bool v) = 1.
Proof.
  unfold to_bool; destruct (iw v =? 1) eqn:E; [apply Z.eqb_eq; exact E|reflexivity].
Qed.

Lemma to_bool_idem (v : ival) : to_bool (to_bool v) = to_bool v.
Proof. unfold to_bool at 1; rewrite to_bool_i1; reflexivity. Qed.

(** C3: for integer operands of different widths and an operator other
    than [&&]/[||], the narrower operand is zero-extended (its bits kept)
    to the wider width [Z.max W1 W2], the operation is carried out at that
    width, and its result has that width, except for the comparison
    operators, whose result is an [i1]. For [&&] and [||] nothing is
    widened: the result depends on the operands only through their [i1]
    conversions [to_bool], and it is an [i1]. *)
Theorem cg_int_binary_widen (op : TokenKind) (lty : TypeKind) (l r : ival) :
  iw l <> iw r ->
  (op <> TOK_LAND -> op <> TOK_LOR ->
   cg_int_binary op lty l r
     = int_binop op (is_unsigned_kind lty) (Z.max (iw l) (iw r)) (ibits l) (ibits r) /\
   (forall v, cg_int_binary op lty l r = Some v ->
      iw v = if is_cmp op then 1 else Z.max (iw l) (iw r))) /\
  (op = TOK_LAND \/ op = TOK_LOR ->
   cg_int_binary op lty l r = cg_int_binary op lty (to_bool l) (to_bool r) /\
   exists v, cg_int_binary op lty l r = Some v /\ iw v = 1).
Proof.
  intros Hne; split.
  - intros Ha Ho.
    assert (E : cg_int_binary op lty l r
      = int_binop op (is_unsigned_kind lty) (Z.max (iw l) (iw r)) (ibits l) (ibits r)).
    { unfold cg_int_binary.
      destruct (iw r <? iw l) eqn:E1.
      - apply Z.ltb_lt in E1; rewrite Z.max_l by lia.
        destruct op; try contradiction; reflexivity.
      - destruct (iw l <? iw r) eqn:E2.
        + apply Z.ltb_lt in E2; rewrite Z.max_r by lia.
          destruct op; try contradiction; reflexivity.
        + apply Z.ltb_ge in E1; apply Z.ltb_ge in E2; lia. }
    split; [exact E|].
    intros v Hv; rewrite E in Hv; exact (int_binop_width _ _ _ _ _ _ Hv).
  - intros [-> | ->]; cbn [cg_int_binary]; rewrite !to_bool_idem; split; try reflexivity;
      destruct (ibits (to_bool l) =? 0);
      first [ eexists; split; [reflexivity|]; first [reflexivity | apply to_bool_i1] ].
Qed.

Lemma cg_int_binary_widen_witness :
  iw (IV 8 5) <> iw (IV 32 7) /\
  cg_int_binary TOK_PLUS TY_I32 (IV 8 5) (IV 32 7) = Some (IV 32 12) /\
  cg_int_binary TOK_LOR TY_I32 (IV 8 0) (IV 32 7) = Some (IV 1 1).
Proof.
  refine (conj _ (conj _ _)); [simpl; lia| |].
  - destruct (cg_int_binary_widen TOK_PLUS TY_I32 (IV 8 5) (IV 32 7) ltac:(simpl; lia))
      as [H _].
    destruct (H ltac:(discriminate) ltac:(discriminate)) as [E _].
    rewrite E; reflexivity.
  - destruct (cg_int_binary_widen TOK_LOR TY_I32 (IV 8 0) (IV 32 7) ltac:(simpl; lia))
      as [_ H].
    destruct (H (or_intror eq_refl)) as [E _].
    rewrite E; reflexivity.
Defined.

(** Counterexample to "the operation produces a value of width W2": an
    [i8] and an [i32] compared with [==] give an [i1]. *)
Lemma cg_int_binary_cmp_is_i1 :
  cg_int_binary TOK_EQ TY_I32 (IV 8 5) (IV 32 5) = Some (IV 1 1).
Proof. reflexivity. Qed.

(** Counterexample for the short-circuit operators: [&&] on an [i8] and an
    [i32] yields an [i1] and widens nothing. *)
Lemma cg_int_binary_land_is_i1 :
  cg_int_binary TOK_LAND TY_I32 (IV 8 5) (IV 32 7) = Some (IV 1 1).
Proof. reflexivity. Qed.

End BinopFacts.

(** ** Statement lowering: defers *)
Module LowerFacts.
Import Lower.

Lemma bind_NoFuel {A B} (k : A -> res B) : bind NoFuel k = NoFuel.
Proof. reflexivity. Qed.

Lemma cg_expr_defers (g : cg) (e : expr) : defers (fst (cg_expr g e)) = defers g.
Proof. destruct e; reflexivity. Qed.

(** A deferred [return] re-enters the lowering of [return], which lowers
    the whole defer array again, the deferred [return] included: the
    recursion never ends. *)
Lemma cg_ret_deferred_ret_diverges (n : nat) :
  forall (g : cg) (v w : option expr) (ds : list stmt),
  defers g = ds ++ [SRet w] -> cg_stmt n g (SRet v) = NoFuel.
Proof.
  induction n as [n IH] using (well_founded_induction lt_wf).
  intros g v w ds Hd.
  destruct n as [|n]; [reflexivity|].
  assert (Hs : forall g1 rv, defers g1 = ds ++ [SRet w] ->
            (g2 <- cg_defers n g1 (rev (defers g1)) ;; Ok (emit g2 (IRet rv))) = NoFuel).
  { intros g1 rv Hd1; rewrite Hd1, rev_app_distr; simpl.
    destruct n as [|m]; [reflexivity|]; simpl.
    rewrite (IH m ltac:(lia) g1 w w ds Hd1); reflexivity. }
  simpl; destruct v as [e|].
  - destruct (cg_expr g e) as [g1 o] eqn:Ee.
    apply Hs. pose proof (cg_expr_defers g e) as D; rewrite Ee in D; simpl in D; congruence.
  - apply Hs; exact Hd.
Qed.

Lemma cg_defers_deferred_ret_diverges (n : nat) (g : cg) (v w : option expr)
      (ds rest : list stmt) :
  defers g = ds ++ [SRet w] -> cg_defers n g (SRet v :: rest) = NoFuel.
Proof.
  intros Hd; destruct n as [|m]; [reflexivity|].
  change (cg_defers (S m) g (SRet v :: rest))
    with (g1 <- cg_stmt m g (SRet v) ;; cg_defers m g1 rest).
  rewrite (cg_ret_deferred_ret_diverges m g v w ds Hd); reflexivity.
Qed.

(** The body of [fn main() -> i32 { defer return 7; return 3 }]. *)
Definition defer_return_body : list stmt :=
  [SDefer (SRet (Some (EInt 7))); SRet (Some (EInt 3))].

(** C5: lowering [fn main() -> i32 { defer return 7; return 3 }] never
    finishes: no amount of fuel suffices (the C code recurses until the
    stack overflows). *)
Theorem defer_return_never_lowers (fuel : nat) :
  cg_fn_decl fuel defer_return_body RInt = NoFuel.
Proof.
  destruct fuel as [|[|[|n]]]; try reflexivity.
  unfold cg_fn_decl, defer_return_body; simpl.
  rewrite (cg_defers_deferred_ret_diverges n _ (Some (EInt 7)) (Some (EInt 7)) [] []);
    reflexivity.
Qed.

End LowerFacts.

(** ** Top-level dispatch on [IDENT (] and [IDENT {] *)
Module TopLevelFacts.
Import Parse TopLevel.

(** [a] closes every parenthesis it opens, never closes one it did not
    open, and holds no [TOK_EOF]; [d] is the number of groups open. *)
Fixpoint balanced_at (d : nat) (a : list token) : bool :=
  match a with
  | [] => Nat.eqb d 0
  | t :: r =>
      if tok_eqb (kind t) TOK_EOF then false
      else if tok_eqb (kind t) TOK_LPAREN then balanced_at (S d) r
      else if tok_eqb (kind t) TOK_RPAREN then
        match d with O => false | S d' => balanced_at d' r end
      else balanced_at d r
  end.

Lemma tok_eqb_refl (k : TokenKind) : tok_eqb k k = true.
Proof. unfold tok_eqb; destruct (TokenKind_eq_dec k k); congruence. Qed.

Lemma skip_to_rparen_balanced (a : list token) :
  forall d rest, balanced_at d a = true ->
  skip_to_rparen (S d) (a ++ rest) = skip_to_rparen 1 rest.
Proof.
  induction a as [|t r IH]; intros d rest H; simpl in *.
  - apply Nat.eqb_eq in H; subst; reflexivity.
  - destruct (tok_eqb (kind t) TOK_EOF); [discriminate|].
    destruct (tok_eqb (kind t) TOK_LPAREN).
    + apply (IH (S d)); exact H.
    + destruct (tok_eqb (kind t) TOK_RPAREN).
      * destruct d as [|d']; [discriminate|]; simpl; apply IH; exact H.
      * simpl; apply IH; exact H.
Qed.

(** [a] never closes the group opened before it: [d + 1] groups are
    open at its start, it holds no [TOK_EOF], and no [)] in it brings the
    depth to 0. *)
Fixpoint unclosed (d : nat) (a : list token) : bool :=
  match a with
  | [] => true
  | t :: r =>
      if tok_eqb (kind t) TOK_EOF then false
      else if tok_eqb (kind t) TOK_LPAREN then unclosed (S d) r
      else if tok_eqb (kind t) TOK_RPAREN then
        match d with O => false | S d' => unclosed d' r end
      else unclosed d r
  end.

Lemma tok_eqb_true (k k' : TokenKind) : tok_eqb k k' = true -> k = k'.
Proof. unfold tok_eqb; destruct (TokenKind_eq_dec k k'); congruence. Qed.

Lemma skip_to_rparen_unclosed (a : list token) (e : token) (rest : list token) :
  kind e = TOK_EOF ->
  forall d, unclosed d a = true -> skip_to_rparen (S d) (a ++ e :: rest) = e :: rest.
Proof.
  intros He; induction a as [|t r IH]; intros d H; simpl in *.
  - rewrite He; reflexivity.
  - destruct (tok_eqb (kind t) TOK_EOF); [discriminate|].
    destruct (tok_eqb (kind t) TOK_LPAREN).
    + apply (IH (S d)); exact H.
    + destruct (tok_eqb (kind t) TOK_RPAREN).
      * destruct d as [|d']; [discriminate|]; simpl; apply IH; exact H.
      * simpl; apply IH; exact H.
Qed.

(** Scanning from inside [d + 1] open groups, a token list that reaches a
    [TOK_EOF] either closes the group at some [)] after a balanced part,
    or hits the [TOK_EOF] first. *)
Lemma group_cases (ts : list token) :
  forall d, (exists t, In t ts /\ kind t = TOK_EOF) ->
  (exists a r rest, ts = a ++ r :: rest /\ kind r = TOK_RPAREN /\ balanced_at d a = true) \/
  (exists a e rest, ts = a ++ e :: rest /\ kind e = TOK_EOF /\ unclosed d a = true).
Proof.
  induction ts as [|t ts IH]; intros d (t0 & Hin & H0); [destruct Hin|].
  destruct (tok_eqb (kind t) TOK_EOF) eqn:Ee.
  - right; exists [], t, ts; split; [reflexivity|split; [apply tok_eqb_true, Ee|reflexivity]].
  - assert (Hr : exists t', In t' ts /\ kind t' = TOK_EOF).
    { destruct Hin as [<-|Hin]; [rewrite H0, tok_eqb_refl in Ee; discriminate|].
      exists t0; split; assumption. }
    destruct (tok_eqb (kind t) TOK_LPAREN) eqn:El.
    + destruct (IH (S d) Hr) as [(a & r & rest & -> & Hk & Hb)|(a & e & rest & -> & Hk & Hu)].
      * left; exists (t :: a), r, rest; simpl; rewrite Ee, El; auto.
      * right; exists (t :: a), e, rest; simpl; rewrite Ee, El; auto.
    + destruct (tok_eqb (kind t) TOK_RPAREN) eqn:Er.
      * destruct d as [|d'].
        -- left; exists [], t, ts; split; [reflexivity|split; [apply tok_eqb_true, Er|reflexivity]].
        -- destruct (IH d' Hr) as [(a & r & rest & -> & Hk & Hb)|(a & e & rest & -> & Hk & Hu)].
           ++ left; exists (t :: a), r, rest; simpl; rewrite Ee, El, Er; auto.
           ++ right; exists (t :: a), e, rest; simpl; rewrite Ee, El, Er; auto.
      * destruct (IH d Hr) as [(a & r & rest & -> & Hk & Hb)|(a & e & rest & -> & Hk & Hu)].
        -- left; exists (t :: a), r, rest; simpl; rewrite Ee, El, Er; auto.
        -- right; exists (t :: a), e, rest; simpl; rewrite Ee, El, Er; auto.
Qed.

(** C7: a top-level form [IDENT {] is handed to the struct-declaration
    parser. A form [IDENT (] is decided by the scan to the matching [)]:
    when the group [( a )] is balanced and closed, the form is handed to
    the function-declaration parser exactly when the token after the [)]
    is [=], [->] or [{], and is otherwise parsed as a top-level statement;
    when the input ends ([TOK_EOF]) before the group is closed, the form
    is parsed as a top-level statement. Every input that ends in
    [TOK_EOF] falls in one of these two cases. *)
Theorem top_form_ident (f b l r e : token) (a rest : list token) :
  kind f = TOK_IDENT ->
  (kind b = TOK_LBRACE -> top_form_of (f :: b :: rest) = TF_Decl DK_St) /\
  (kind l = TOK_LPAREN -> kind r = TOK_RPAREN -> balanced_at 0 a = true ->
   top_form_of (f :: l :: a ++ r :: rest)
     = if check rest TOK_ASSIGN || check rest TOK_ARROW || check rest TOK_LBRACE
       then TF_Decl DK_Fn else TF_Stmt) /\
  (kind l = TOK_LPAREN -> kind e = TOK_EOF -> unclosed 0 a = true ->
   top_form_of (f :: l :: a ++ e :: rest) = TF_Stmt) /\
  (forall ts, (exists t, In t ts /\ kind t = TOK_EOF) ->
   (exists a' r' rest', ts = a' ++ r' :: rest' /\ kind r' = TOK_RPAREN /\ balanced_at 0 a' = true) \/
   (exists a' e' rest', ts = a' ++ e' :: rest' /\ kind e' = TOK_EOF /\ unclosed 0 a' = true)).
Proof.
  intros Hf; split; [|split; [|split]].
  - intros Hb; unfold top_form_of, decl_form, parse_decl_choice, check, next, peek;
      simpl; rewrite Hf, Hb; reflexivity.
  - intros Hl Hr Ha.
    unfold top_form_of; cbv zeta.
    replace (check (f :: l :: a ++ r :: rest) TOK_USE) with false
      by (unfold check, peek; rewrite Hf; reflexivity).
    replace (check (f :: l :: a ++ r :: rest) TOK_EXT || check (f :: l :: a ++ r :: rest) TOK_FN
             || check (f :: l :: a ++ r :: rest) TOK_ST
             || check (f :: l :: a ++ r :: rest) TOK_ENUM) with false
      by (unfold check, peek; rewrite Hf; reflexivity).
    replace (check (f :: l :: a ++ r :: rest) TOK_IDENT) with true
      by (unfold check, peek; rewrite Hf; reflexivity).
    unfold next; cbn [tl].
    replace (check (l :: a ++ r :: rest) TOK_LBRACE) with false
      by (unfold check, peek; rewrite Hl; reflexivity).
    replace (check (l :: a ++ r :: rest) TOK_LPAREN) with true
      by (unfold check, peek; rewrite Hl; reflexivity).
    rewrite (skip_to_rparen_balanced a 0 (r :: rest) Ha).
    replace (skip_to_rparen 1 (r :: rest)) with (r :: rest)
      by (simpl; rewrite Hr; reflexivity).
    replace (check (r :: rest) TOK_RPAREN) with true
      by (unfold check, peek; rewrite Hr; reflexivity).
    cbn [tl].
    destruct (check rest TOK_ASSIGN || check rest TOK_ARROW || check rest TOK_LBRACE);
      [|reflexivity].
    unfold decl_form, parse_decl_choice, check, next, peek; simpl; rewrite Hf, Hl;
      reflexivity.
  - intros Hl He Ha.
    unfold top_form_of; cbv zeta.
    replace (check (f :: l :: a ++ e :: rest) TOK_USE) with false
      by (unfold check, peek; rewrite Hf; reflexivity).
    replace (check (f :: l :: a ++ e :: rest) TOK_EXT || check (f :: l :: a ++ e :: rest) TOK_FN
             || check (f :: l :: a ++ e :: rest) TOK_ST
             || check (f :: l :: a ++ e :: rest) TOK_ENUM) with false
      by (unfold check, peek; rewrite Hf; reflexivity).
    replace (check (f :: l :: a ++ e :: rest) TOK_IDENT) with true
      by (unfold check, peek; rewrite Hf; reflexivity).
    unfold next; cbn [tl].
    replace (check (l :: a ++ e :: rest) TOK_LBRACE) with false
      by (unfold check, peek; rewrite Hl; reflexivity).
    replace (check (l :: a ++ e :: rest) TOK_LPAREN) with true
      by (unfold check, peek; rewrite Hl; reflexivity).
    rewrite (skip_to_rparen_unclosed a e rest He 0 Ha).
    replace (check (e :: rest) TOK_RPAREN) with false
      by (unfold check, peek; rewrite He; reflexivity).
    replace (check (e :: rest) TOK_ASSIGN || check (e :: rest) TOK_ARROW
             || check (e :: rest) TOK_LBRACE) with false
      by (unfold check, peek; rewrite He; reflexivity).
    reflexivity.
  - intros ts Hts; exact (group_cases ts 0 Hts).
Qed.

Lemma top_form_ident_witness :
  top_form_of [tk_ident "f"; tk TOK_LPAREN; tk_ident "a"; tk TOK_RPAREN;
               tk TOK_LBRACE; tk TOK_RBRACE; tk TOK_EOF] = TF_Decl DK_Fn /\
  top_form_of [tk_ident "P"; tk TOK_LBRACE; tk TOK_RBRACE; tk TOK_EOF] = TF_Decl DK_St /\
  top_form_of [tk_ident "f"; tk TOK_LPAREN; tk TOK_LPAREN; tk_ident "a"; tk TOK_RPAREN;
               tk TOK_EOF] = TF_Stmt.
Proof.
  destruct (top_form_ident (tk_ident "P") (tk TOK_LBRACE) (tk TOK_LPAREN) (tk TOK_RPAREN)
              (tk TOK_EOF) [] [tk TOK_RBRACE; tk TOK_EOF] eq_refl) as [Hs _].
  destruct (top_form_ident (tk_ident "f") (tk TOK_LBRACE) (tk TOK_LPAREN) (tk TOK_RPAREN)
              (tk TOK_EOF) [tk_ident "a"] [tk TOK_LBRACE; tk TOK_RBRACE; tk TOK_EOF] eq_refl)
    as (_ & Hfn & _).
  destruct (top_form_ident (tk_ident "f") (tk TOK_LBRACE) (tk TOK_LPAREN) (tk TOK_RPAREN)
              (tk TOK_EOF) [tk TOK_LPAREN; tk_ident "a"; tk TOK_RPAREN] [] eq_refl)
    as (_ & _ & Hu & _).
  split; [|split].
  - exact (Hfn eq_refl eq_refl eq_refl).
  - exact (Hs eq_refl).
  - exact (Hu eq_refl eq_refl eq_refl).
Defined.

(** Counterexample: the top-level call statement [f(1)] begins with
    [IDENT (] and is not a function declaration. *)
Lemma top_form_call_is_stmt :
  top_form_of [tk_ident "f"; tk TOK_LPAREN; tk_int 1; tk TOK_RPAREN;
               tk TOK_NEWLINE; tk TOK_EOF] = TF_Stmt.
Proof. reflexivity. Qed.

End TopLevelFacts.

(** ** Duplicate extern declarations *)
Module DeclsFacts.
Import Decls.
Local Open Scope string_scope.

(** The entries of an association list that carry the name [n]. *)
Definition named {A} (n : string) (l : list (string * A)) : list (string * A) :=
  filter (fun p => String.eqb (fst p) n) l.

(** Whether some enum of [ds] has a member [n]. *)
Definition enum_binds (n : string) (ds : list decl) : bool :=
  existsb (fun d => match d with
                    | DEnum ms => existsb (String.eqb n) ms
                    | _ => false
                    end) ds.

(** Whether [ds] defines a function named [n]. *)
Definition fn_named (n : string) (ds : list decl) : bool :=
  existsb (fun d => match d with DFn m _ _ _ => String.eqb m n | _ => false end) ds.

(** Whether [ds] declares an extern named [n]. *)
Definition ext_named (n : string) (ds : list decl) : bool :=
  existsb (fun d => match d with DExt m _ => String.eqb m n | _ => false end) ds.

(** Every recorded resolution of [n] is to the signature [s]. *)
Definition resolves_to (n : string) (s : fsig) (r : list (string * fsig)) : Prop :=
  Forall (fun p => fst p = n -> snd p = s) r.

Lemma ext_named_cons (n : string) (d : decl) (ds : list decl) :
  ext_named n (d :: ds) = false -> ext_named n ds = false.
Proof. unfold ext_named; simpl; intros H; apply orb_false_iff in H; tauto. Qed.

Lemma ext_named_head (n : string) (sg : fsig) (ds : list decl) :
  ext_named n (DExt n sg :: ds) = false -> False.
Proof. unfold ext_named; simpl; rewrite String.eqb_refl; discriminate. Qed.

Lemma sym_lookup_push_other (ss : list symbol) (m n : string) (k : skind) :
  m <> n -> sym_lookup (Sym m k :: ss) n = sym_lookup ss n.
Proof.
  intros Hmn; unfold sym_lookup; simpl.
  destruct (String.eqb_spec m n); [contradiction|reflexivity].
Qed.

Lemma sym_lookup_app (a b : list symbol) (n : string) :
  sym_lookup (a ++ b) n
    = match sym_lookup a n with Some s => Some s | None => sym_lookup b n end.
Proof.
  unfold sym_lookup; induction a as [|s a IH]; simpl; [reflexivity|].
  destruct (String.eqb (sname s) n); [reflexivity|exact IH].
Qed.

Lemma sym_lookup_name (ss : list symbol) (n : string) (s : symbol) :
  sym_lookup ss n = Some s -> sname s = n.
Proof.
  unfold sym_lookup; intros H; apply find_some in H as [_ H].
  apply String.eqb_eq; exact H.
Qed.

Lemma fn_pass_app (g : st) (a b : list decl) :
  fn_pass g (a ++ b) = (g1 <- fn_pass g a ;; fn_pass g1 b).
Proof.
  revert g; induction a as [|d a IH]; intros g; simpl; [reflexivity|].
  destruct d; try apply IH.
  destruct (cg_fn_decl g name sig params calls); simpl; [apply IH|reflexivity|reflexivity].
Qed.

Lemma enum_pass_fields (ds : list decl) (g : st) (n : string) :
  enum_binds n ds = false ->
  funcs (enum_pass g ds) = funcs g /\ resolved (enum_pass g ds) = resolved g /\
  sym_lookup (syms (enum_pass g ds)) n = sym_lookup (syms g) n.
Proof.
  unfold enum_pass, enum_binds; revert g; induction ds as [|d ds IH]; intros g H;
    simpl in *; [auto|].
  apply orb_false_iff in H as [Hd H].
  destruct (IH (match d with
                | DEnum ms => fold_left (fun g m => ST (Sym m SEnumConst :: syms g)
                                                      (funcs g) (resolved g)) ms g
                | _ => g
                end) H) as (F & R & L).
  rewrite F, R, L; clear F R L IH H.
  destruct d as [| | ms |]; auto.
  revert g; induction ms as [|m ms IHm]; intros g; simpl in *; [auto|].
  apply orb_false_iff in Hd as [Hm Hd].
  destruct (IHm Hd (ST (Sym m SEnumConst :: syms g) (funcs g) (resolved g)))
    as (F & R & L); simpl in *.
  rewrite F, R, L; repeat split; auto.
  apply sym_lookup_push_other; intros ->; rewrite String.eqb_refl in Hm; discriminate.
Qed.

Section Resolution.
Variable n : string.
Variable s1 : fsig.
(** What [n] is bound to at top level: nothing, or the first extern. *)
Variable X : option symbol.
Hypothesis HX : X = None \/ X = Some (Sym n (SFun s1)).

Lemma cg_call_inv (g g' : st) (c : string) :
  (forall s, sym_lookup (syms g) n = Some s -> s = Sym n (SFun s1) \/ skind_of s = SLocal) ->
  resolves_to n s1 (resolved g) ->
  cg_call g c = Ok g' ->
  syms g' = syms g /\ funcs g' = funcs g /\ resolves_to n s1 (resolved g').
Proof.
  intros Hs Hr; unfold cg_call.
  destruct (sym_lookup (syms g) c) as [[m [sg| |]]|] eqn:E; try discriminate.
  - intros H; injection H as <-; simpl; repeat split; auto.
    apply Forall_app; split; [exact Hr|]; constructor; [|constructor]; simpl.
    intros ->; destruct (Hs _ E) as [H|H]; [congruence|discriminate].
  - destruct (is_builtin c); [|discriminate]; intros H; injection H as <-; auto.
Qed.

Lemma cg_calls_inv (cs : list string) :
  forall g g',
  (forall s, sym_lookup (syms g) n = Some s -> s = Sym n (SFun s1) \/ skind_of s = SLocal) ->
  resolves_to n s1 (resolved g) ->
  cg_calls g cs = Ok g' ->
  syms g' = syms g /\ funcs g' = funcs g /\ resolves_to n s1 (resolved g').
Proof.
  induction cs as [|c cs IH]; intros g g' Hs Hr H; simpl in H.
  - injection H as <-; auto.
  - destruct (cg_call g c) as [g1| |] eqn:E; try discriminate; simpl in H.
    destruct (cg_call_inv g g1 c Hs Hr E) as (S1 & F1 & R1).
    destruct (IH g1 g' ltac:(rewrite S1; exact Hs) R1 H) as (S2 & F2 & R2).
    split; [congruence|split; [congruence|exact R2]].
Qed.

Lemma fn_pass_inv (ds : list decl) :
  forall g g',
  sym_lookup (syms g) n = X ->
  resolves_to n s1 (resolved g) ->
  fn_named n ds = false ->
  (X = None -> ext_named n ds = false) ->
  fn_pass g ds = Ok g' ->
  sym_lookup (syms g') n = X /\ named n (funcs g') = named n (funcs g) /\
  resolves_to n s1 (resolved g').
Proof.
  induction ds as [|d ds IH]; intros g g' Hl Hr Hf He H; simpl in H.
  - injection H as <-; auto.
  - destruct d as [m sg|m sg ps cs|ms|m]; simpl in Hf.
    + (* extern *)
      unfold cg_ext_decl in H.
      destruct (sym_lookup (syms g) m) eqn:Em.
      * eapply IH; eauto.
        intros HN; specialize (He HN); simpl in He; apply orb_false_iff in He; tauto.
      * destruct (String.eqb_spec m n) as [->|Hmn].
        { rewrite Em in Hl.
          destruct (ext_named_head _ _ _ (He (eq_sym Hl))). }
        destruct (IH (ST (Sym m (SFun sg) :: syms g) (funcs g ++ [(m, sg)]) (resolved g)) g'
                    ltac:(cbn [syms]; rewrite sym_lookup_push_other by exact Hmn; exact Hl)
                    Hr Hf
                    (fun HN => ext_named_cons _ _ _ (He HN)) H) as (L & F & R).
        split; [exact L|split; [|exact R]].
        rewrite F; simpl; unfold named; rewrite filter_app; simpl.
        destruct (String.eqb_spec m n); [contradiction|apply app_nil_r].
    + (* function *)
      apply orb_false_iff in Hf as [Hmn Hf].
      assert (Hmn' : m <> n) by (intros ->; rewrite String.eqb_refl in Hmn; discriminate).
      unfold cg_fn_decl in H.
      destruct (cg_calls (ST (rev (map (fun p => Sym p SLocal) ps) ++ Sym m (SFun sg) :: syms g)
                           (funcs g ++ [(m, sg)]) (resolved g)) cs) as [g1| |] eqn:E;
        try discriminate; simpl in H.
      destruct (cg_calls_inv cs (ST (rev (map (fun p => Sym p SLocal) ps)
                                     ++ Sym m (SFun sg) :: syms g)
                                  (funcs g ++ [(m, sg)]) (resolved g)) g1)
        as (S1 & F1 & R1); [| exact Hr | exact E |].
      { cbn [syms]; intros s; rewrite sym_lookup_app.
        destruct (sym_lookup (rev (map (fun p => Sym p SLocal) ps)) n) as [s'|] eqn:Ep.
        - intros Hs; injection Hs as <-; right.
          unfold sym_lookup in Ep; apply find_some in Ep as [Hin _].
          apply in_rev, in_map_iff in Hin as (p & <- & _); reflexivity.
        - rewrite sym_lookup_push_other by exact Hmn'; rewrite Hl.
          intros Hs; left; destruct HX as [HX1|HX1]; congruence. }
      simpl in F1.
      destruct (IH (ST (Sym m (SFun sg) :: syms g) (funcs g1) (resolved g1)) g'
                  ltac:(cbn [syms]; rewrite sym_lookup_push_other by exact Hmn'; exact Hl)
                  R1 Hf
                  (fun HN => ext_named_cons _ _ _ (He HN)) H)
        as (L & F & R).
      split; [exact L|split; [|exact R]].
      rewrite F; simpl; rewrite F1; unfold named; rewrite filter_app; simpl.
      destruct (String.eqb_spec m n); [contradiction|apply app_nil_r].
    + eapply IH; eauto.
    + eapply IH; eauto.
Qed.

End Resolution.

(** The first extern named [n] wins when [n] is neither an enum member nor
    a defined function. *)
Lemma first_ext_registered (pre post : list decl) (n : string) (s1 : fsig)
        (g' : st) :
  enum_binds n (pre ++ DExt n s1 :: post) = false ->
  fn_named n (pre ++ post) = false ->
  ext_named n pre = false ->
  codegen_decls (pre ++ DExt n s1 :: post) = Ok g' ->
  named n (funcs g') = [(n, s1)] /\ resolves_to n s1 (resolved g') /\
  sym_lookup (syms g') n = Some (Sym n (SFun s1)).
Proof.
  intros Hen Hfn Hext H.
  unfold codegen_decls in H.
  destruct (enum_pass_fields (pre ++ DExt n s1 :: post) (ST [] [] []) n Hen)
    as (F0 & R0 & L0); simpl in F0, R0, L0.
  set (g0 := enum_pass (ST [] [] []) (pre ++ DExt n s1 :: post)) in *.
  unfold fn_named in Hfn; rewrite existsb_app in Hfn; apply orb_false_iff in Hfn as [Hf1 Hf2].
  rewrite fn_pass_app in H.
  destruct (fn_pass g0 pre) as [g1| |] eqn:E1; try discriminate; simpl in H.
  destruct (fn_pass_inv n s1 None (or_introl eq_refl) pre g0 g1) as (L1 & F1 & R1);
    auto.
  { rewrite R0; constructor. }
  unfold cg_ext_decl in H; rewrite L1 in H.
  destruct (fn_pass_inv n s1 (Some (Sym n (SFun s1))) (or_intror eq_refl) post
              (ST (Sym n (SFun s1) :: syms g1) (funcs g1 ++ [(n, s1)]) (resolved g1)) g')
    as (L2 & F2 & R2); auto.
  - simpl; unfold sym_lookup; simpl; rewrite String.eqb_refl; reflexivity.
  - intros; discriminate.
  - split; [|split; [exact R2|exact L2]].
    rewrite F2; simpl; unfold named; rewrite filter_app; simpl; rewrite String.eqb_refl.
    fold (named n (funcs g1)); rewrite F1, F0; reflexivity.
Qed.

(** The functions a program defines, with their signatures, in order. *)
Definition fn_sigs (ds : list decl) : list (string * fsig) :=
  flat_map (fun d => match d with DFn m sg _ _ => [(m, sg)] | _ => [] end) ds.

Lemma cg_calls_keeps (cs : list string) :
  forall g g', cg_calls g cs = Ok g' -> syms g' = syms g /\ funcs g' = funcs g.
Proof.
  induction cs as [|c cs IH]; intros g g' H; simpl in H.
  - injection H as <-; auto.
  - unfold cg_call in H.
    destruct (sym_lookup (syms g) c) as [[m [sg| |]]|]; try discriminate.
    + simpl in H; destruct (IH _ _ H) as [S1 F1]; simpl in S1, F1; auto.
    + destruct (is_builtin c); [|discriminate]; simpl in H; exact (IH _ _ H).
Qed.

Lemma enum_pass_funcs (ds : list decl) (g : st) : funcs (enum_pass g ds) = funcs g.
Proof.
  unfold enum_pass; revert g; induction ds as [|d ds IH]; intros g; simpl; [reflexivity|].
  rewrite IH; destruct d as [| | ms |]; try reflexivity.
  revert g; induction ms as [|m ms IHm]; intros g; simpl; [reflexivity|].
  rewrite IHm; reflexivity.
Qed.

Lemma push_bound (ss : list symbol) (m n : string) (k : skind) :
  sym_lookup ss n <> None -> sym_lookup (Sym m k :: ss) n <> None.
Proof.
  intros H; unfold sym_lookup in *; simpl.
  destruct (String.eqb m n); [discriminate|exact H].
Qed.

Lemma enum_pass_bound (n : string) (ds : list decl) (g : st) :
  sym_lookup (syms g) n <> None \/ enum_binds n ds = true ->
  sym_lookup (syms (enum_pass g ds)) n <> None.
Proof.
  unfold enum_pass, enum_binds; revert g; induction ds as [|d ds IH]; intros g H; simpl in *.
  - destruct H as [H|H]; [exact H|discriminate].
  - apply IH.
    assert (Hms : forall ms g, sym_lookup (syms g) n <> None \/ existsb (String.eqb n) ms = true ->
              sym_lookup (syms (fold_left (fun g m => ST (Sym m SEnumConst :: syms g)
                                                (funcs g) (resolved g)) ms g)) n <> None).
    { induction ms as [|m ms IHm]; intros g0 H0; simpl in *.
      - destruct H0 as [H0|H0]; [exact H0|discriminate].
      - apply IHm; simpl.
        destruct H0 as [H0|H0]; [left; apply push_bound; exact H0|].
        apply orb_true_iff in H0 as [H0|H0]; [|right; exact H0].
        left; apply String.eqb_eq in H0; subst m.
        unfold sym_lookup; simpl; rewrite String.eqb_refl; discriminate. }
    destruct H as [H|H].
    + left; destruct d as [| | ms |]; try exact H; apply Hms; left; exact H.
    + apply orb_true_iff in H as [H|H]; [|right; exact H].
      left; destruct d as [| | ms |]; try discriminate; apply Hms; right; exact H.
Qed.

(** While [n] is bound, the third pass adds to the module only the
    functions named [n] that the program defines. *)
Lemma fn_pass_bound (n : string) (ds : list decl) :
  forall g g', sym_lookup (syms g) n <> None -> fn_pass g ds = Ok g' ->
  named n (funcs g') = (named n (funcs g) ++ named n (fn_sigs ds))%list.
Proof.
  induction ds as [|d ds IH]; intros g g' Hb H; simpl in H.
  - injection H as <-; rewrite app_nil_r; reflexivity.
  - destruct d as [m sg|m sg ps cs|ms|m]; simpl.
    + unfold cg_ext_decl in H.
      destruct (sym_lookup (syms g) m) eqn:Em; [exact (IH _ _ Hb H)|].
      pose proof (fun Hb' => IH _ _ Hb' H) as IH'.
      rewrite (IH' (push_bound _ m n _ Hb)); simpl.
      unfold named; rewrite filter_app; simpl.
      destruct (String.eqb_spec m n) as [->|]; [congruence|rewrite app_nil_r; reflexivity].
    + unfold cg_fn_decl in H.
      destruct (cg_calls _ cs) as [g1| |] eqn:E; try discriminate; simpl in H.
      destruct (cg_calls_keeps cs _ _ E) as [_ F1]; simpl in F1.
      pose proof (fun Hb' => IH _ _ Hb' H) as IH'.
      rewrite (IH' (push_bound _ m n _ Hb)); simpl.
      rewrite F1; unfold named; simpl; rewrite filter_app, <- app_assoc; simpl; destruct (String.eqb m n); reflexivity.
    + exact (IH _ _ Hb H).
    + exact (IH _ _ Hb H).
Qed.

(** C9: an extern declaration is skipped whenever its name is already
    bound to a symbol. Hence, in a program where the name [n] is neither
    an enum member nor the name of a defined function, and whose first
    extern named [n] has the signature [s1], that extern is registered and
    every later extern named [n] is skipped: if code generation succeeds,
    the module holds exactly one function named [n], with signature [s1],
    every call resolved to [n] uses [s1], and [n] stays bound to the first
    extern. When [n] is an enum member, no extern named [n] is registered:
    the functions named [n] in the module are those the program defines. *)
Theorem duplicate_ext_first_wins (n : string) :
  (forall (g : st) (sg : fsig) (ds : list decl),
     sym_lookup (syms g) n <> None -> fn_pass g (DExt n sg :: ds) = fn_pass g ds) /\
  (forall (pre post : list decl) (s1 : fsig) (g' : st),
     enum_binds n (pre ++ DExt n s1 :: post) = false ->
     fn_named n (pre ++ post) = false ->
     ext_named n pre = false ->
     codegen_decls (pre ++ DExt n s1 :: post) = Ok g' ->
     named n (funcs g') = [(n, s1)] /\ resolves_to n s1 (resolved g') /\
     sym_lookup (syms g') n = Some (Sym n (SFun s1))) /\
  (forall (ds : list decl) (g' : st),
     enum_binds n ds = true -> codegen_decls ds = Ok g' ->
     named n (funcs g') = named n (fn_sigs ds)).
Proof.
  split; [|split].
  - intros g sg ds Hb; simpl; unfold cg_ext_decl.
    destruct (sym_lookup (syms g) n); [reflexivity|congruence].
  - intros pre post s1 g'; exact (first_ext_registered pre post n s1 g').
  - intros ds g' He H; unfold codegen_decls in H.
    rewrite (fn_pass_bound n ds _ _ (enum_pass_bound n ds _ (or_intror He)) H).
    rewrite enum_pass_funcs; reflexivity.
Qed.

Definition sig_i32 : fsig := FSig TY_I32 [TY_I32] false.
Definition sig_i64 : fsig := FSig TY_I64 [TY_I64; TY_I64] true.
Definition sig_main : fsig := FSig TY_I32 [] false.

Lemma duplicate_ext_first_wins_witness :
  codegen_decls [DExt "foo" sig_i32; DFn "main" sig_main [] ["foo"]; DExt "foo" sig_i64]
    = Ok (ST [Sym "main" (SFun sig_main); Sym "foo" (SFun sig_i32)]
             [("foo", sig_i32); ("main", sig_main)] [("foo", sig_i32)]) /\
  named "foo" [("foo", sig_i32); ("main", sig_main)] = [("foo", sig_i32)] /\
  codegen_decls [DEnum ["foo"]; DExt "foo" sig_i32; DFn "foo" sig_main [] []]
    = Ok (ST [Sym "foo" (SFun sig_main); Sym "foo" SEnumConst] [("foo", sig_main)] []) /\
  named "foo" [("foo", sig_main)] = [("foo", sig_main)].
Proof.
  destruct (duplicate_ext_first_wins "foo") as (_ & H2 & H3).
  split; [reflexivity|split; [|split; [reflexivity|]]].
  - exact (proj1 (H2 [] [DFn "main" sig_main [] ["foo"]; DExt "foo" sig_i64]
                    sig_i32 _ eq_refl eq_refl eq_refl eq_refl)).
  - exact (H3 [DEnum ["foo"]; DExt "foo" sig_i32; DFn "foo" sig_main [] []] _ eq_refl eq_refl).
Defined.

(** Counterexample: when an enum member is named like the externs, no
    extern of that name is registered at all. *)
Lemma duplicate_ext_enum_member :
  codegen_decls [DEnum ["foo"]; DExt "foo" sig_i32; DExt "foo" sig_i64]
    = Ok (ST [Sym "foo" SEnumConst] [] []).
Proof. reflexivity. Qed.

End DeclsFacts.

(** ** Statement lowering: where defers are emitted *)
Module DeferFacts.
Import Lower.

(** A deferred call statement [defer f()]. *)
Definition defer_call (f : string) : stmt := SExpr (ECall f).

(** The calls of [fs], in this order, with result registers from [r]. *)
Fixpoint emit_calls (r : nat) (fs : list string) : list instr :=
  match fs with
  | [] => []
  | f :: fs' => ICall r f :: emit_calls (S r) fs'
  end.

(** The return value as the [ND_RET] case computes it. *)
Definition ret_value (g : cg) (v : option expr) : cg * option operand :=
  match v with
  | Some e => let '(g1, o) := cg_expr g e in (g1, Some o)
  | None => (g, None)
  end.

Lemma blocks_emit_cur (g : cg) (i : instr) :
  blocks (emit g i) (cur g) = i :: blocks g (cur g).
Proof. unfold emit, set_blocks, upd; simpl; rewrite Nat.eqb_refl; reflexivity. Qed.

Lemma cg_defers_calls (fs : list string) :
  forall fuel g, (List.length fs < fuel)%nat ->
  exists g', cg_defers fuel g (map defer_call fs) = Ok g' /\
    cur g' = cur g /\ defers g' = defers g /\
    nregs g' = (nregs g + List.length fs)%nat /\
    rev (blocks g' (cur g)) = rev (blocks g (cur g)) ++ emit_calls (nregs g) fs.
Proof.
  induction fs as [|f fs IH]; intros fuel g Hf.
  - destruct fuel as [|m]; [lia|].
    exists g; simpl; rewrite app_nil_r, Nat.add_0_r; auto.
  - destruct fuel as [|[|m]]; simpl in Hf; [lia|lia|].
    set (g1 := emit (mkCG (blocks g) (cur g) (nblocks g) (S (nregs g)) (defers g)
                       (loop_cond g) (loop_end g)) (ICall (nregs g) f)).
    destruct (IH (S m) g1 ltac:(lia)) as (g' & E & C & D & R & B).
    exists g'.
    change (cg_defers (S (S m)) g (map defer_call (f :: fs)))
      with (g2 <- cg_stmt (S m) g (SExpr (ECall f)) ;; cg_defers (S m) g2 (map defer_call fs)).
    simpl (cg_stmt (S m) g (SExpr (ECall f))); cbn [bind]; fold g1.
    rewrite E; split; [reflexivity|].
    assert (Cg1 : cur g1 = cur g) by reflexivity.
    assert (Rg1 : nregs g1 = S (nregs g)) by reflexivity.
    assert (Bg1 : blocks g1 (cur g) = ICall (nregs g) f :: blocks g (cur g))
      by exact (blocks_emit_cur
                  (mkCG (blocks g) (cur g) (nblocks g) (S (nregs g)) (defers g)
                        (loop_cond g) (loop_end g)) (ICall (nregs g) f)).
    rewrite Cg1 in C, B; rewrite Rg1 in R, B.
    split; [exact C|split; [exact D|split; [cbn [List.length]; lia|]]].
    rewrite B, Bg1; simpl; rewrite <- app_assoc; reflexivity.
Qed.

(** C1: with the defers [defer f1(); ...; defer fk()] registered, in this
    order, when a [return] is lowered, the return value is computed, then
    the calls [fk(), ..., f1()] are emitted, in reverse registration
    order, and then the [ret]. The implicit return at the end of a
    function whose last block is still open does the same with the defers
    registered by then. [break] and [continue] emit only their branch and
    leave the defers untouched; [defer] appends its statement to them. *)
Theorem defers_at_exits (fuel : nat) (g : cg) (fs : list string) :
  defers g = map defer_call fs -> (List.length fs < fuel)%nat ->
  (forall v, exists g',
     cg_stmt (S fuel) g (SRet v) = Ok g' /\
     let '(g1, rv) := ret_value g v in
     cur g' = cur g /\
     rev (blocks g' (cur g))
       = rev (blocks g1 (cur g)) ++ emit_calls (nregs g1) (rev fs) ++ [IRet rv]) /\
  (forall rk, terminated g = false -> exists g',
     fn_epilogue fuel g rk = Ok g' /\
     rev (blocks g' (cur g))
       = rev (blocks g (cur g)) ++ emit_calls (nregs g) (rev fs)
         ++ [IRet (match rk with RVoid => None | RInt => Some (OConst 0) end)]) /\
  (forall l, loop_end g = Some l -> cg_stmt (S fuel) g SBreak = Ok (emit g (IBr l))) /\
  (forall l, loop_cond g = Some l -> cg_stmt (S fuel) g SContinue = Ok (emit g (IBr l))) /\
  (forall d, (List.length fs < 64)%nat ->
     cg_stmt (S fuel) g (SDefer d) = Ok (set_defers g (map defer_call fs ++ [d]))).
Proof.
  intros Hd Hf.
  assert (Hrev : rev (map defer_call fs) = map defer_call (rev fs)) by (symmetry; apply map_rev).
  assert (Hlen : (List.length (rev fs) < fuel)%nat) by (rewrite length_rev; exact Hf).
  repeat split.
  - intros v.
    assert (Hg1 : cur (fst (ret_value g v)) = cur g /\ defers (fst (ret_value g v)) = defers g)
      by (destruct v as [[z|h]|]; simpl; auto).
    destruct (ret_value g v) as [g1 rv] eqn:Ev; simpl in Hg1; destruct Hg1 as [C1 D1].
    destruct (cg_defers_calls (rev fs) fuel g1 Hlen) as (g2 & E & C & _ & _ & B).
    exists (emit g2 (IRet rv)).
    split.
    + assert (Hs : cg_stmt (S fuel) g (SRet v)
                   = (g2 <- cg_defers fuel g1 (rev (defers g1)) ;; Ok (emit g2 (IRet rv)))).
      { unfold ret_value in Ev; simpl; destruct v as [e|].
        - destruct (cg_expr g e) as [h o]; injection Ev as <- <-; reflexivity.
        - injection Ev as <- <-; reflexivity. }
      rewrite Hs, D1, Hd, Hrev, E; reflexivity.
    + unfold emit at 1; simpl; split; [congruence|].
      unfold upd; rewrite C, C1, Nat.eqb_refl; simpl.
      rewrite <- C1, B, <- app_assoc; reflexivity.
  - intros rk Ht.
    destruct (cg_defers_calls (rev fs) fuel g Hlen) as (g2 & E & C & _ & _ & B).
    eexists; split.
    + unfold fn_epilogue; rewrite Ht, Hd, Hrev, E; reflexivity.
    + rewrite <- C at 1; rewrite blocks_emit_cur; simpl; rewrite C, B, <- app_assoc;
        reflexivity.
  - intros l Hl; simpl; rewrite Hl; reflexivity.
  - intros l Hl; simpl; rewrite Hl; reflexivity.
  - intros d H64; simpl; rewrite Hd, length_map.
    apply Nat.ltb_lt in H64; rewrite H64; reflexivity.
Qed.

Definition with_two_defers : cg :=
  set_defers fn_entry (map defer_call ["A"%string; "B"%string]).

Lemma defers_at_exits_witness :
  defers with_two_defers = map defer_call ["A"%string; "B"%string] /\ (2 < 3)%nat /\
  exists g', cg_stmt 4 with_two_defers (SRet None) = Ok g' /\
    rev (blocks g' 0) = [ICall 0 "B"%string; ICall 1 "A"%string; IRet None].
Proof.
  split; [reflexivity|split; [lia|]].
  destruct (defers_at_exits 3 with_two_defers ["A"%string; "B"%string] eq_refl ltac:(simpl; lia))
    as [Hr _].
  destruct (Hr None) as (g' & E & C & B).
  exists g'; split; [exact E|].
  exact B.
Defined.

(** Counterexample: in [fn f() { if 1 { return }; defer A() }] the early
    [return] (block 1) runs no deferred call; only the fall-through
    (block 3) calls [A]. *)
Lemma early_return_skips_later_defer :
  match cg_fn_decl 10 [SIf (EInt 1) [SRet None] None; SDefer (defer_call "A"%string)] RVoid
  with
  | Ok g => blocks g 1 = [IRet None] /\ blocks g 3 = [IRet None; ICall 1 "A"%string]
  | _ => False
  end.
Proof. vm_compute. split; reflexivity. Qed.

End DeferFacts.

(** ** Function headers: parameters without a type *)
Module ParamFacts.
Import Parse TopLevel.

(** The type keyword of a primitive type. *)
Definition tok_of_kind (k : TypeKind) : TokenKind :=
  match k with
  | TY_I8 => TOK_I8 | TY_I16 => TOK_I16 | TY_I32 => TOK_I32 | TY_I64 => TOK_I64
  | TY_U8 => TOK_U8 | TY_U16 => TOK_U16 | TY_U32 => TOK_U32 | TY_U64 => TOK_U64
  | TY_F32 => TOK_F32 | TY_F64 => TOK_F64 | TY_VOID => TOK_VOID
  end.

(** The tokens of a type written without function pointers:
    [i32], [*T], [[n]T] and struct names. *)
Fixpoint type_tokens (t : ty) : list token :=
  match t with
  | TBasic k => [tk (tok_of_kind k)]
  | TPtr t' => tk TOK_STAR :: type_tokens t'
  | TArray n t' => tk TOK_LBRACKET :: tk_int n :: tk TOK_RBRACKET :: type_tokens t'
  | TStruct s => [tk_ident s]
  | TFn _ _ _ => []
  end.

(** Types [type_tokens] writes: no function types, array sizes that fit
    an [int]. *)
Fixpoint simple_ty (t : ty) : bool :=
  match t with
  | TBasic _ | TStruct _ => true
  | TPtr t' => simple_ty t'
  | TArray n t' => (0 <=? n) && (n <? 2 ^ 31) && simple_ty t'
  | TFn _ _ _ => false
  end.

Lemma to_int_small (n : Z) : 0 <= n < 2 ^ 31 -> to_int n = n.
Proof.
  intros H; unfold to_int.
  rewrite (Z.div_small (n + 2 ^ 31) (2 ^ 32)) by lia; lia.
Qed.

Lemma parse_type_simple (t : ty) :
  simple_ty t = true -> forall fuel r, (List.length (type_tokens t) <= fuel)%nat ->
  parse_type fuel (type_tokens t ++ r) = Ok (t, r).
Proof.
  induction t as [k|t IH|n t IH|s|rt _ pts va]; intros Hs fuel r Hf;
    [| | | |discriminate]; simpl in Hf; (destruct fuel as [|m]; [lia|]).
  - destruct k; reflexivity.
  - assert (Hc : check (type_tokens t ++ r) TOK_FN = false)
      by (destruct t; simpl in *; try discriminate; try (destruct k); reflexivity).
    simpl; rewrite Hc, (IH Hs m r ltac:(lia)); reflexivity.
  - simpl in Hs; apply andb_prop in Hs as [Hn Hs]; apply andb_prop in Hn as [H0 H1].
    apply Z.leb_le in H0; apply Z.ltb_lt in H1.
    simpl; rewrite (IH Hs m r ltac:(lia)); simpl.
    rewrite to_int_small by lia; reflexivity.
  - reflexivity.
Qed.

End ParamFacts.

(** ** Statement lowering: the [match] chain *)
Module MatchFacts.
Import Lower Exec.

(** Blocks not created yet are empty. *)
Definition fresh (g : cg) : Prop := forall l, (nblocks g <= l)%nat -> blocks g l = [].

(** How lowering a statement from [g] may change the state: blocks and
    registers are only created; the insert block stays or moves to a block
    created meanwhile; the blocks that existed, other than the insert block,
    are untouched, and the insert block only grows at its end. *)
Definition grows (g g' : cg) : Prop :=
  (cur g < nblocks g)%nat /\
  (nblocks g <= nblocks g')%nat /\ (nregs g <= nregs g')%nat /\
  (cur g' < nblocks g')%nat /\
  (cur g' = cur g \/ (nblocks g <= cur g')%nat) /\
  (forall l, (l < nblocks g)%nat -> l <> cur g -> blocks g' l = blocks g l) /\
  (exists pre, blocks g' (cur g) = pre ++ blocks g (cur g)) /\
  (fresh g -> fresh g').

Lemma grows_refl (g : cg) : (cur g < nblocks g)%nat -> grows g g.
Proof.
  intros H; unfold grows; repeat split; auto; [exists []; reflexivity].
Qed.

Lemma grows_trans (g x y : cg) : grows g x -> grows x y -> grows g y.
Proof.
  intros (H0 & H1 & H2 & H3 & H4 & H5 & H6 & H7) (K0 & K1 & K2 & K3 & K4 & K5 & K6 & K7).
  unfold grows; split; [exact H0|]; split; [lia|]; split; [lia|]; split; [exact K3|].
  split; [destruct H4 as [H4|H4], K4 as [K4|K4];
          [left; congruence|right; lia|right; lia|right; lia]|].
  split; [|split; [|auto]].
  - intros l Hl Hne.
    destruct (Nat.eq_dec l (cur x)) as [->|Hx].
    + destruct H4 as [H4|H4]; [congruence|lia].
    + rewrite K5 by lia; apply H5; auto.
  - destruct H6 as [p1 E1].
    destruct (Nat.eq_dec (cur x) (cur g)) as [Ex|Ex].
    + destruct K6 as [p2 E2]; rewrite Ex in E2; exists (p2 ++ p1).
      rewrite E2, E1, app_assoc; reflexivity.
    + exists p1; rewrite K5 by (try lia; congruence); exact E1.
Qed.

Lemma grows_emit (g x : cg) (i : instr) : grows g x -> grows g (emit x i).
Proof.
  intros (H0 & H1 & H2 & H3 & H4 & H5 & H6 & H7); unfold grows; simpl.
  split; [exact H0|]; split; [exact H1|]; split; [exact H2|]; split; [exact H3|].
  split; [exact H4|]; split; [|split].
  - intros l Hl Hne; unfold emit, set_blocks, upd; simpl.
    destruct (Nat.eqb_spec l (cur x)) as [->|]; [destruct H4; [congruence|lia]|auto].
  - destruct H6 as [p E]; unfold emit, set_blocks, upd; simpl.
    destruct (Nat.eqb_spec (cur g) (cur x)) as [Ex|Ex].
    + exists (i :: p); rewrite <- Ex, E; reflexivity.
    + exists p; exact E.
  - intros Hf l Hl; unfold emit, set_blocks, upd; simpl in Hl |- *.
    destruct (Nat.eqb_spec l (cur x)); [lia|apply (H7 Hf); exact Hl].
Qed.

Lemma grows_position (g x : cg) (l : nat) :
  grows g x -> (nblocks g <= l)%nat -> (l < nblocks x)%nat -> grows g (position x l).
Proof.
  intros (H0 & H1 & H2 & H3 & H4 & H5 & H6 & H7) Hl1 Hl2; unfold grows; simpl.
  split; [exact H0|]; split; [exact H1|]; split; [exact H2|]; split; [exact Hl2|].
  split; [right; exact Hl1|]; split; [exact H5|]; split; [exact H6|].
  exact H7.
Qed.

Lemma grows_new_block (g x y : cg) (l : nat) :
  grows g x -> new_block x = (y, l) ->
  grows g y /\ l = nblocks x /\ nblocks y = S (nblocks x) /\ cur y = cur x /\
  blocks y = blocks x /\ nregs y = nregs x.
Proof.
  intros (H0 & H1 & H2 & H3 & H4 & H5 & H6 & H7) E; unfold new_block in E.
  injection E as <- <-; simpl.
  split; [|repeat split].
  unfold grows; simpl.
  split; [exact H0|]; split; [lia|]; split; [exact H2|]; split; [lia|].
  split; [destruct H4; [left; exact H|right; lia]|].
  split; [exact H5|]; split; [exact H6|].
  intros Hf l Hl; apply (H7 Hf); simpl in Hl; lia.
Qed.

Lemma grows_new_reg (g x y : cg) (r : nat) :
  grows g x -> new_reg x = (y, r) ->
  grows g y /\ r = nregs x /\ nblocks y = nblocks x /\ cur y = cur x /\
  blocks y = blocks x /\ nregs y = S (nregs x).
Proof.
  intros (H0 & H1 & H2 & H3 & H4 & H5 & H6 & H7) E; unfold new_reg in E.
  injection E as <- <-; simpl.
  split; [|repeat split].
  unfold grows; simpl.
  split; [exact H0|]; split; [exact H1|]; split; [lia|]; split; [exact H3|].
  split; [exact H4|]; split; [exact H5|]; split; [exact H6|].
  exact H7.
Qed.

Lemma grows_cg_expr (g x y : cg) (e : expr) (o : operand) :
  grows g x -> cg_expr x e = (y, o) -> grows g y /\ nblocks y = nblocks x.
Proof.
  intros H E; destruct e as [v|f]; simpl in E.
  - injection E as <- _; auto.
  - injection E as <- _.
    destruct (grows_new_reg g x _ (nregs x) H eq_refl) as (G & _ & N & _).
    split; [apply grows_emit; exact G|exact N].
Qed.

Lemma grows_cg_tobool (g x y : cg) (c o : operand) :
  grows g x -> cg_tobool x c = (y, o) -> grows g y /\ nblocks y = nblocks x.
Proof.
  intros H E; unfold cg_tobool in E.
  injection E as <- _.
  destruct (grows_new_reg g x _ (nregs x) H eq_refl) as (G & _ & N & _).
  split; [apply grows_emit; exact G|exact N].
Qed.

Lemma grows_br_if_open (g x : cg) (l : nat) : grows g x -> grows g (br_if_open x l).
Proof. intros H; unfold br_if_open; destruct (terminated x); [exact H|apply grows_emit, H]. Qed.

Lemma grows_set_loop (g x : cg) c e : grows g x -> grows g (set_loop x c e).
Proof. intros (H0 & H1 & H2 & H3 & H4 & H5 & H6 & H7); unfold grows; simpl; auto 10. Qed.

Lemma grows_set_defers (g x : cg) d : grows g x -> grows g (set_defers x d).
Proof. intros (H0 & H1 & H2 & H3 & H4 & H5 & H6 & H7); unfold grows; simpl; auto 10. Qed.

Lemma grows_nblocks (g x : cg) : grows g x -> (nblocks g <= nblocks x)%nat.
Proof. intros H; apply H. Qed.

Lemma grows_cur (g x : cg) : grows g x -> (cur x < nblocks x)%nat.
Proof. intros H; apply H. Qed.

Lemma nblocks_emit (x : cg) i : nblocks (emit x i) = nblocks x.
Proof. reflexivity. Qed.
Lemma nblocks_br_if_open (x : cg) l : nblocks (br_if_open x l) = nblocks x.
Proof. unfold br_if_open; destruct (terminated x); reflexivity. Qed.
Lemma nblocks_position (x : cg) l : nblocks (position x l) = nblocks x.
Proof. reflexivity. Qed.
Lemma nblocks_set_loop (x : cg) c e : nblocks (set_loop x c e) = nblocks x.
Proof. reflexivity. Qed.

Ltac nb_facts :=
  repeat match goal with
  | H : grows ?a ?b |- _ => pose proof (grows_nblocks a b H); clear H
  end;
  repeat match goal with
  | H : context [nblocks (emit ?x ?i)] |- _ => rewrite (nblocks_emit x i) in H
  | H : context [nblocks (br_if_open ?x ?i)] |- _ => rewrite (nblocks_br_if_open x i) in H
  | H : context [nblocks (position ?x ?i)] |- _ => rewrite (nblocks_position x i) in H
  | H : context [nblocks (set_loop ?x ?c ?e)] |- _ => rewrite (nblocks_set_loop x c e) in H
  | |- context [nblocks (emit ?x ?i)] => rewrite (nblocks_emit x i)
  | |- context [nblocks (br_if_open ?x ?i)] => rewrite (nblocks_br_if_open x i)
  | |- context [nblocks (position ?x ?i)] => rewrite (nblocks_position x i)
  | |- context [nblocks (set_loop ?x ?c ?e)] => rewrite (nblocks_set_loop x c e)
  end.

Ltac gr g0 :=
  match goal with
  | H : grows g0 ?x |- grows g0 ?x => exact H
  | |- grows g0 g0 => apply grows_refl; assumption
  | |- grows g0 (emit _ _) => apply grows_emit; gr g0
  | |- grows g0 (br_if_open _ _) => apply grows_br_if_open; gr g0
  | |- grows g0 (set_loop _ _ _) => apply grows_set_loop; gr g0
  | |- grows g0 (set_defers _ _) => apply grows_set_defers; gr g0
  | |- grows g0 (position _ _) =>
      apply grows_position; [gr g0 | nb_facts; lia | nb_facts; lia]
  | H : grows ?x ?y |- grows g0 ?y => apply (grows_trans g0 x y); [gr g0 | exact H]
  end.

Ltac peel g0 :=
  match goal with
  | H : context [cg_expr ?x ?e] |- _ =>
      lazymatch type of H with cg_expr _ _ = _ => fail | _ => idtac end;
      let Hg := fresh "Hg" in assert (Hg : grows g0 x) by gr g0;
      let y := fresh "g" in let o := fresh "o" in let E := fresh "E" in
      destruct (cg_expr x e) as [y o] eqn:E;
      destruct (grows_cg_expr g0 x y e o Hg E) as [? ?]
  | H : context [cg_tobool ?x ?c] |- _ =>
      lazymatch type of H with cg_tobool _ _ = _ => fail | _ => idtac end;
      let Hg := fresh "Hg" in assert (Hg : grows g0 x) by gr g0;
      let y := fresh "g" in let o := fresh "o" in let E := fresh "E" in
      destruct (cg_tobool x c) as [y o] eqn:E;
      destruct (grows_cg_tobool g0 x y c o Hg E) as [? ?]
  | H : context [new_block ?x] |- _ =>
      lazymatch type of H with new_block _ = _ => fail | _ => idtac end;
      let Hg := fresh "Hg" in assert (Hg : grows g0 x) by gr g0;
      let y := fresh "g" in let l := fresh "l" in let E := fresh "E" in
      destruct (new_block x) as [y l] eqn:E;
      destruct (grows_new_block g0 x y l Hg E) as (? & ? & ? & ? & ? & ?)
  | H : context [new_reg ?x] |- _ =>
      lazymatch type of H with new_reg _ = _ => fail | _ => idtac end;
      let Hg := fresh "Hg" in assert (Hg : grows g0 x) by gr g0;
      let y := fresh "g" in let r := fresh "r" in let E := fresh "E" in
      destruct (new_reg x) as [y r] eqn:E;
      destruct (grows_new_reg g0 x y r Hg E) as (? & ? & ? & ? & ? & ?)
  end; cbv beta iota zeta in *.

Ltac bindstep g0 IHs IHd IHb IHc :=
  match goal with
  | H : bind (cg_stmt ?n ?x ?s) _ = Ok _ |- _ =>
      let y := fresh "g" in let E := fresh "E" in let Gx := fresh "Gx" in
      destruct (cg_stmt n x s) as [y| |] eqn:E; [|discriminate|discriminate];
      cbn [bind] in H; assert (Gx : grows g0 x) by gr g0;
      pose proof (IHs x s y (grows_cur _ _ Gx) E)
  | H : bind (cg_defers ?n ?x ?s) _ = Ok _ |- _ =>
      let y := fresh "g" in let E := fresh "E" in let Gx := fresh "Gx" in
      destruct (cg_defers n x s) as [y| |] eqn:E; [|discriminate|discriminate];
      cbn [bind] in H; assert (Gx : grows g0 x) by gr g0;
      pose proof (IHd x s y (grows_cur _ _ Gx) E)
  | H : bind (cg_block ?n ?x ?s) _ = Ok _ |- _ =>
      let y := fresh "g" in let E := fresh "E" in let Gx := fresh "Gx" in
      destruct (cg_block n x s) as [y| |] eqn:E; [|discriminate|discriminate];
      cbn [bind] in H; assert (Gx : grows g0 x) by gr g0;
      pose proof (IHb x s y (grows_cur _ _ Gx) E)
  | H : bind (cg_cases ?n ?x ?m ?e ?s) _ = Ok _ |- _ =>
      let y := fresh "g" in let E := fresh "E" in let Gx := fresh "Gx" in
      destruct (cg_cases n x m e s) as [y| |] eqn:E; [|discriminate|discriminate];
      cbn [bind] in H; assert (Gx : grows g0 x) by gr g0;
      pose proof (IHc x m e s y (grows_cur _ _ Gx) E)
  end.

Ltac tailstep g0 IHs IHd IHb IHc :=
  match goal with
  | H : cg_stmt ?n ?x ?s = Ok ?y |- grows g0 ?y =>
      let Gx := fresh "Gx" in assert (Gx : grows g0 x) by gr g0;
      exact (grows_trans _ _ _ Gx (IHs x s y (grows_cur _ _ Gx) H))
  | H : cg_defers ?n ?x ?s = Ok ?y |- grows g0 ?y =>
      let Gx := fresh "Gx" in assert (Gx : grows g0 x) by gr g0;
      exact (grows_trans _ _ _ Gx (IHd x s y (grows_cur _ _ Gx) H))
  | H : cg_block ?n ?x ?s = Ok ?y |- grows g0 ?y =>
      let Gx := fresh "Gx" in assert (Gx : grows g0 x) by gr g0;
      exact (grows_trans _ _ _ Gx (IHb x s y (grows_cur _ _ Gx) H))
  | H : cg_cases ?n ?x ?m ?e ?s = Ok ?y |- grows g0 ?y =>
      let Gx := fresh "Gx" in assert (Gx : grows g0 x) by gr g0;
      exact (grows_trans _ _ _ Gx (IHc x m e s y (grows_cur _ _ Gx) H))
  | H : Ok _ = Ok ?y |- grows g0 ?y => injection H as <-; gr g0
  end.

Ltac run0 g0 IHs IHd IHb IHc :=
  repeat (first [ peel g0 | bindstep g0 IHs IHd IHb IHc
                | match goal with
                  | H : context [if terminated ?x then _ else _] |- _ =>
                      destruct (terminated x)
                  | H : context [match loop_end ?x with _ => _ end] |- _ =>
                      destruct (loop_end x); [|discriminate]
                  | H : context [match loop_cond ?x with _ => _ end] |- _ =>
                      destruct (loop_cond x); [|discriminate]
                  | H : context [if Nat.ltb ?a ?b then _ else _] |- _ =>
                      destruct (Nat.ltb a b); [|discriminate]
                  end ]).

Ltac run g0 IHs IHd IHb IHc := run0 g0 IHs IHd IHb IHc; tailstep g0 IHs IHd IHb IHc.

Lemma lower_grows (fuel : nat) :
  (forall g s g', (cur g < nblocks g)%nat -> cg_stmt fuel g s = Ok g' -> grows g g') /\
  (forall g ds g', (cur g < nblocks g)%nat -> cg_defers fuel g ds = Ok g' -> grows g g') /\
  (forall g ss g', (cur g < nblocks g)%nat -> cg_block fuel g ss = Ok g' -> grows g g') /\
  (forall g mval eb cs g', (cur g < nblocks g)%nat ->
     cg_cases fuel g mval eb cs = Ok g' -> grows g g').
Proof.
  induction fuel as [|n IH]; [repeat split; intros; discriminate|].
  destruct IH as (IHs & IHd & IHb & IHc).
  split; [|split; [|split]].
  - intros g0 s g' Hc H; pose proof (grows_refl g0 Hc) as G0.
    destruct s as [[e|]|e|c thn [els|]|c body|init c incr body| | |e cases|d];
      cbn [cg_stmt] in H; run g0 IHs IHd IHb IHc.
  - intros g0 ds g' Hc H; pose proof (grows_refl g0 Hc) as G0.
    destruct ds as [|d ds]; cbn [cg_defers] in H; run g0 IHs IHd IHb IHc.
  - intros g0 ss g' Hc H; pose proof (grows_refl g0 Hc) as G0.
    destruct ss as [|s ss]; cbn [cg_block] in H; run g0 IHs IHd IHb IHc.
  - intros g0 mval eb cs g' Hc H; pose proof (grows_refl g0 Hc) as G0.
    destruct cs as [|[[v|] body] cs]; cbn [cg_cases] in H; run g0 IHs IHd IHb IHc.
Qed.

(** The prefix order on block contents: every block that existed keeps its
    instructions and may only grow at its end. *)
Definition ext (x y : cg) : Prop :=
  (nblocks x <= nblocks y)%nat /\
  (forall k, (k < nblocks x)%nat -> exists pre, blocks y k = pre ++ blocks x k).

Lemma ext_refl (x : cg) : ext x x.
Proof. split; [lia|]. intros k _; exists []; reflexivity. Qed.

Lemma ext_trans (x y z : cg) : ext x y -> ext y z -> ext x z.
Proof.
  intros [H1 H2] [K1 K2]; split; [lia|].
  intros k Hk; destruct (H2 k Hk) as [p Hp]; destruct (K2 k ltac:(lia)) as [q Hq].
  exists (q ++ p); rewrite Hq, Hp, app_assoc; reflexivity.
Qed.

Lemma grows_ext (x y : cg) : grows x y -> ext x y.
Proof.
  intros (H0 & H1 & H2 & H3 & H4 & H5 & H6 & H7); split; [exact H1|].
  intros k Hk; destruct (Nat.eq_dec k (cur x)) as [->|Hne]; [exact H6|].
  exists []; apply H5; assumption.
Qed.

Lemma ext_emit (x : cg) (i : instr) : ext x (emit x i).
Proof.
  split; [cbn; lia|]. intros k _; unfold emit, set_blocks, upd; cbn.
  destruct (Nat.eqb k (cur x)) eqn:E.
  - apply Nat.eqb_eq in E; subst k; exists [i]; reflexivity.
  - exists []; reflexivity.
Qed.

Lemma ext_br_if_open (x : cg) (l : nat) : ext x (br_if_open x l).
Proof. unfold br_if_open; destruct (terminated x); [apply ext_refl|apply ext_emit]. Qed.

Lemma ext_position (x : cg) (l : nat) : ext x (position x l).
Proof. split; [cbn; lia|]. intros k _; exists []; reflexivity. Qed.

Lemma blocks_emit_other (x : cg) (i : instr) (k : nat) :
  k <> cur x -> blocks (emit x i) k = blocks x k.
Proof.
  intros H; unfold emit, set_blocks, upd; cbn.
  destruct (Nat.eqb k (cur x)) eqn:E; [apply Nat.eqb_eq in E; congruence|reflexivity].
Qed.

Lemma blocks_br_if_open_other (x : cg) (l k : nat) :
  k <> cur x -> blocks (br_if_open x l) k = blocks x k.
Proof.
  intros H; unfold br_if_open; destruct (terminated x); [reflexivity|].
  apply blocks_emit_other, H.
Qed.

Lemma bind_Ok {A B} (m : res A) (k : A -> res B) (y : B) :
  bind m k = Ok y -> exists a, m = Ok a /\ k a = Ok y.
Proof. destruct m as [a| |]; cbn; intros H; [exists a; auto|discriminate|discriminate]. Qed.

(** An arm body that starts with a call puts the call first in the block
    it is lowered into. *)
Lemma cg_block_call_first (n : nat) (x y : cg) (m : string) (b : list stmt) :
  (cur x < nblocks x)%nat -> cg_block n x (SExpr (ECall m) :: b) = Ok y ->
  ext x y /\ exists r pre, blocks y (cur x) = pre ++ ICall r m :: blocks x (cur x).
Proof.
  intros Hc H.
  destruct n as [|n]; [discriminate|]; cbn [cg_block] in H.
  destruct n as [|n]; [discriminate|]; cbn [cg_stmt bind cg_expr new_reg fst] in H.
  set (x1 := emit _ _) in H.
  assert (T : terminated x1 = false)
    by (unfold terminated, x1, emit, set_blocks, upd; cbn; rewrite Nat.eqb_refl; reflexivity).
  rewrite T in H.
  assert (G : grows x1 y) by (apply (proj1 (proj2 (proj2 (lower_grows (S n))))) with b; [exact Hc|exact H]).
  split.
  - apply ext_trans with x1; [|apply grows_ext, G].
    split; [cbn; lia|]. intros k _; unfold x1, emit, set_blocks, upd; cbn.
    destruct (Nat.eqb k (cur x)) eqn:E.
    + apply Nat.eqb_eq in E; subst k; eexists [_]; reflexivity.
    + exists []; reflexivity.
  - destruct G as (_ & _ & _ & _ & _ & _ & [pre Hp] & _).
    exists (nregs x), pre. change (cur x) with (cur x1) at 1. rewrite Hp. unfold x1, emit, set_blocks, upd; cbn.
    rewrite Nat.eqb_refl; reflexivity.
Qed.

Lemma fresh_emit (x : cg) (i : instr) :
  (cur x < nblocks x)%nat -> fresh x -> fresh (emit x i).
Proof.
  intros Hc F l Hl; cbn in Hl; rewrite blocks_emit_other by lia; apply F, Hl.
Qed.

Lemma fresh_br_if_open (x : cg) (l : nat) :
  (cur x < nblocks x)%nat -> fresh x -> fresh (br_if_open x l).
Proof. intros Hc F; unfold br_if_open; destruct (terminated x); [exact F|apply fresh_emit; assumption]. Qed.

(** The arms of a [match] as the statement about it uses them: a case
    value [v] and a body whose first statement calls the function [m]
    (reaching the arm is observed as that call), and the default arm. *)
Definition match_arm : Type := (Z * string * list stmt)%type.

Definition arm_case (a : match_arm) : option expr * list stmt :=
  let '(v, m, b) := a in (Some (EInt v), SExpr (ECall m) :: b).

Definition dflt_cases (d : option (string * list stmt)) : list (option expr * list stmt) :=
  match d with
  | Some (m, b) => [(None, SExpr (ECall m) :: b)]
  | None => []
  end.

Definition arms_marked (marker : string -> bool) (arms : list match_arm)
           (d : option (string * list stmt)) : bool :=
  forallb (fun a => let '(_, m, _) := a in marker m) arms &&
  match d with Some (m, _) => marker m | None => true end.

(** The dispatch the documentation describes: the first arm whose value
    equals the scrutinee [x] runs; otherwise the default arm, if any;
    otherwise control reaches the end block. *)
Fixpoint match_spec (x : Z) (arms : list match_arm) (d : option (string * list stmt))
         (end_bb : nat) : outcome :=
  match arms with
  | [] => match d with Some (m, _) => RStop m | None => RAt end_bb end
  | (v, m, _) :: rest => if i32 v =? x then RStop m else match_spec x rest d end_bb
  end.

Lemma exec_call_marked (F : nat) bl marker stop oracle regs r m t :
  (1 <= F)%nat -> marker m = true ->
  exec F bl marker stop oracle regs (ICall r m :: t) = RStop m.
Proof. intros HF Hm; destruct F as [|F]; [lia|]; cbn; rewrite Hm; reflexivity. Qed.

Lemma cases_chain (marker : string -> bool) (oracle : string -> Z)
      (d : option (string * list stmt)) (arms : list match_arm) :
  forall n h mval end_bb g' regs x F,
  (cur h < nblocks h)%nat -> fresh h -> terminated h = false ->
  (end_bb < nblocks h)%nat -> arms_marked marker arms d = true ->
  val regs mval = x -> (forall r0, mval = OReg r0 -> (r0 < nregs h)%nat) ->
  (2 * List.length arms + 1 <= F)%nat ->
  cg_cases n h mval end_bb (map arm_case arms ++ dflt_cases d) = Ok g' ->
  exists X, blocks (br_if_open g' end_bb) (cur h) = X ++ blocks h (cur h) /\
    exec F (blocks (br_if_open g' end_bb)) marker end_bb oracle regs (rev X)
    = match_spec x arms d end_bb.
Proof.
  induction arms as [|[[v m] b] rest IH];
    intros n h mval end_bb g' regs x F Hc Hf Ht He Hm Hx Hr HF H.
  - destruct n as [|n]; [discriminate|].
    destruct d as [[m b]|]; cbn [map app dflt_cases cg_cases] in H.
    + apply bind_Ok in H; destruct H as (g1 & H1 & H2).
      destruct n as [|n]; [discriminate|]; cbn [cg_cases] in H2.
      injection H2 as <-.
      destruct (cg_block_call_first _ _ _ _ _ Hc H1) as [[Hn1 Hx1] (r & pre & Hp)].
      destruct (proj2 (ext_trans _ _ _ (ext_br_if_open g1 end_bb)
                        (ext_br_if_open _ end_bb)) (cur h) ltac:(lia)) as [q Hq].
      exists (q ++ pre ++ [ICall r m]); split.
      * rewrite Hq, Hp, <- !app_assoc; reflexivity.
      * rewrite !rev_app_distr; cbn [rev app].
        apply exec_call_marked; [lia|].
        cbn [arms_marked forallb andb] in Hm; exact Hm.
    + injection H as <-.
      exists [IBr end_bb]; split.
      * unfold br_if_open; rewrite Ht; unfold emit, set_blocks, upd; cbn.
        rewrite Nat.eqb_refl; reflexivity.
      * destruct F as [|F]; [lia|]; cbn; rewrite Nat.eqb_refl; reflexivity.
  - destruct n as [|n]; [discriminate|].
    cbn [map app arm_case cg_cases cg_expr] in H.
    pose proof (grows_refl h Hc) as G0.
    destruct (new_reg h) as [h2 r] eqn:E1.
    destruct (grows_new_reg h h h2 r G0 E1) as (G2 & Er & Nb2 & Cu2 & Bl2 & Nr2).
    set (g3 := emit h2 (ICmpEq r mval (OConst (i32 v)))) in H.
    assert (G3 : grows h g3) by (apply grows_emit, G2).
    destruct (new_block g3) as [g4 tb] eqn:E2.
    destruct (grows_new_block h g3 g4 tb G3 E2) as (G4 & Etb & Nb4 & Cu4 & Bl4 & Nr4).
    destruct (new_block g4) as [g5 nb] eqn:E3.
    destruct (grows_new_block h g4 g5 nb G4 E3) as (G5 & Enb & Nb5 & Cu5 & Bl5 & Nr5).
    set (g6 := emit g5 (ICondBr (OReg r) tb nb)) in H.
    assert (G6 : grows h g6) by (apply grows_emit, G5).
    assert (Cu3 : cur g3 = cur h) by (unfold g3; cbn; exact Cu2).
    assert (Nr3 : nregs g3 = S (nregs h)) by (unfold g3; cbn; exact Nr2).
    assert (Nb3 : nblocks g3 = nblocks h) by (unfold g3; cbn; exact Nb2).
    assert (Nb6 : nblocks g6 = S (S (nblocks h))) by (unfold g6; cbn; lia).
    assert (Cu6 : cur g6 = cur h) by (unfold g6; cbn; lia).
    assert (Bl6c : blocks g6 (cur h) =
              [ICondBr (OReg r) tb nb; ICmpEq r mval (OConst (i32 v))] ++ blocks h (cur h)).
    { unfold g6, emit, set_blocks, upd; cbn. rewrite Cu5, Cu4, Bl5, Bl4.
      rewrite Cu3; unfold g3, emit, set_blocks, upd; cbn. rewrite Cu2, Bl2, Nat.eqb_refl; reflexivity. }
    assert (Bl6o : forall k, k <> cur h -> blocks g6 k = blocks h k).
    { intros k Hk. unfold g6; rewrite blocks_emit_other by (rewrite Cu5, Cu4, Cu3; exact Hk).
      rewrite Bl5, Bl4; unfold g3; rewrite blocks_emit_other by lia; rewrite Bl2; reflexivity. }
    apply bind_Ok in H; destruct H as (g7 & H7 & H).
    cbv zeta in H.
    assert (Gp : grows (position g6 tb) g7).
    { apply (proj1 (proj2 (proj2 (lower_grows n)))) with (SExpr (ECall m) :: b); [cbn; lia|exact H7]. }
    destruct (cg_block_call_first n (position g6 tb) g7 m b ltac:(cbn; lia) H7) as [Ex7 (r' & pre & Hp)].
    cbn [cur position] in Hp.
    set (g8 := br_if_open g7 end_bb) in H.
    set (h' := position g8 nb) in H.
    destruct Gp as (P0 & P1 & P2 & P3 & P4 & P5 & P6 & P7); cbn [nblocks cur position nregs blocks] in P0, P1, P2, P3, P4, P5, P6, P7, Ex7, Hp.
    assert (Cu7 : cur g7 <> cur h /\ cur g7 <> nb) by lia.
    assert (Fh6 : fresh g6).
    { intros l Hl; rewrite Bl6o by lia; apply Hf; lia. }
    assert (Fh' : fresh h').
    { unfold h', g8; cbn; apply fresh_br_if_open; [lia|apply P7, Fh6]. }
    assert (Tb : blocks g6 tb = []) by (rewrite Bl6o by lia; apply Hf; lia).
    assert (Bnb : blocks h' nb = []).
    { unfold h', g8; cbn. rewrite blocks_br_if_open_other by lia.
      rewrite P5 by lia; rewrite Bl6o by lia; apply Hf; lia. }
    assert (Th' : terminated h' = false) by (unfold terminated; cbn [h' cur position]; rewrite Bnb; reflexivity).
    assert (Nbh' : nblocks h' = nblocks g7) by (unfold h', g8; cbn; apply nblocks_br_if_open).
    assert (Nrh' : nregs h' = nregs g7) by (unfold h', g8, br_if_open; destruct (terminated g7); reflexivity).
    assert (Nr6 : nregs g6 = S (nregs h)) by (unfold g6; cbn; lia).
    set (regs' := upd regs r (b2z (val regs mval =? val regs (OConst (i32 v))))).
    assert (Hx' : val regs' mval = x).
    { destruct mval as [c|r0]; [exact Hx|]. cbn. unfold regs', upd.
      specialize (Hr r0 eq_refl). destruct (Nat.eqb r0 r) eqn:Q; [apply Nat.eqb_eq in Q; lia|exact Hx]. }
    cbn [arms_marked forallb andb] in Hm.
    apply andb_prop in Hm; destruct Hm as [Hm1 Hm]. apply andb_prop in Hm1; destruct Hm1 as [Hmm Hmr].
    cbn [List.length] in HF.
    destruct (IH n h' mval end_bb g' regs' x (F - 2)%nat ltac:(change (cur h') with nb; lia) Fh' Th' ltac:(lia)
                (andb_true_intro (conj Hmr Hm)) Hx'
                ltac:(intros r0 ->; specialize (Hr r0 eq_refl); lia) ltac:(lia) H)
      as (X' & HX1 & HX2).
    assert (Gh' : grows h' g').
    { apply (proj2 (proj2 (proj2 (lower_grows n)))) with mval end_bb (map arm_case rest ++ dflt_cases d);
        [change (cur h') with nb; lia|exact H]. }
    destruct Gh' as (Q0 & Q1 & Q2 & Q3 & Q4 & Q5 & Q6 & Q7); change (cur h') with nb in Q4, Q5.
    exists [ICondBr (OReg r) tb nb; ICmpEq r mval (OConst (i32 v))]; split.
    + rewrite blocks_br_if_open_other by lia.
      rewrite Q5 by lia.
      unfold h', g8; cbn. rewrite blocks_br_if_open_other by lia.
      rewrite P5 by lia. exact Bl6c.
    + destruct F as [|[|F]]; [lia|lia|]. cbn [rev app].
      change (exec (S (S F)) ?bl marker end_bb oracle regs (ICmpEq r mval (OConst (i32 v)) :: ?t))
        with (exec (S F) bl marker end_bb oracle regs' t).
      assert (Rr : regs' r = b2z (x =? i32 v)).
      { unfold regs', upd; rewrite Nat.eqb_refl, <- Hx; reflexivity. }
      cbn [exec val]. rewrite Rr; cbn [match_spec].
      rewrite (Z.eqb_sym (i32 v) x).
      destruct (x =? i32 v) eqn:Ev; cbn [b2z Z.eqb].
      * destruct (Nat.eqb tb end_bb) eqn:Et; [apply Nat.eqb_eq in Et; lia|].
        destruct (proj2 (ext_trans _ _ _ (ext_br_if_open g7 end_bb)
                  (ext_trans _ _ _ (ext_position g8 nb)
                  (ext_trans _ _ _ (grows_ext _ _ (conj Q0 (conj Q1 (conj Q2 (conj Q3 (conj Q4 (conj Q5 (conj Q6 Q7))))))))
                  (ext_br_if_open g' end_bb)))) tb ltac:(lia)) as [q Hq].
        fold g8 in Hq. fold h' in Hq.
        rewrite Hq, Hp, Tb, !rev_app_distr; cbn [rev app].
        apply exec_call_marked; [lia|exact Hmm].
      * destruct (Nat.eqb nb end_bb) eqn:Et; [apply Nat.eqb_eq in Et; lia|].
        replace (S (S F) - 2)%nat with F in HX2 by lia.
        change (cur h') with nb in HX1.
        rewrite HX1, Bnb, app_nil_r.
        exact HX2.
Qed.

(** The value of the scrutinee: an [i32] constant, or the [i32] result of
    a call. *)
Definition scrut_val (oracle : string -> Z) (e : expr) : Z :=
  match e with
  | EInt v => i32 v
  | ECall f => i32 (oracle f)
  end.

(** The scrutinee's own call is not one of the observed arm calls. *)
Definition scrut_ok (marker : string -> bool) (e : expr) : bool :=
  match e with
  | EInt _ => true
  | ECall f => negb (marker f)
  end.

(** Lowering [match e { v1 => B1, ..., vk => Bk, _ => D }] (the default
    arm, if any, last) from an open insert block appends a chain of
    compares to it; running that code jumps to the body of the first arm
    whose value equals the scrutinee, else to the default body, else to the
    shared end block (the block created right after the scrutinee). *)
Theorem match_dispatch (n : nat) (g g' : cg) (e : expr) (arms : list match_arm)
        (d : option (string * list stmt)) (marker : string -> bool)
        (oracle : string -> Z) (regs : nat -> Z) (F : nat) :
  (cur g < nblocks g)%nat -> fresh g -> terminated g = false ->
  arms_marked marker arms d = true -> scrut_ok marker e = true ->
  (2 * List.length arms + 2 <= F)%nat ->
  cg_stmt n g (SMatch e (map arm_case arms ++ dflt_cases d)) = Ok g' ->
  exists X, blocks g' (cur g) = X ++ blocks g (cur g) /\
    exec F (blocks g') marker (nblocks g) oracle regs (rev X)
    = match_spec (scrut_val oracle e) arms d (nblocks g).
Proof.
  intros Hc Hf Ht Hm Hs HF H.
  destruct n as [|n]; [discriminate|]; cbn [cg_stmt] in H.
  pose proof (grows_refl g Hc) as G0.
  destruct e as [v0|f]; cbn [cg_expr] in H.
  - destruct (new_block g) as [h eb] eqn:E.
    destruct (grows_new_block g g h eb G0 E) as (Gh & Eeb & Nbh & Cuh & Blh & Nrh).
    apply bind_Ok in H; destruct H as (g3 & H3 & H4); injection H4 as <-.
    destruct (cases_chain marker oracle d arms n h (OConst (i32 v0)) eb g3 regs (i32 v0) F
                ltac:(lia) ltac:(intros l Hl; rewrite Blh; apply Hf; lia)
                ltac:(unfold terminated; rewrite Cuh, Blh; exact Ht) ltac:(lia) Hm
                eq_refl ltac:(discriminate) ltac:(lia) H3) as (X & HX1 & HX2).
    exists X; split.
    + change (blocks (position ?x _)) with (blocks x). rewrite Cuh, Blh in HX1; exact HX1.
    + change (blocks (position ?x _)) with (blocks x). rewrite <- Eeb; exact HX2.
  - destruct (new_reg g) as [g1 r0] eqn:E1.
    destruct (grows_new_reg g g g1 r0 G0 E1) as (G1 & Er & Nb1 & Cu1 & Bl1 & Nr1).
    cbv beta iota zeta in H.
    set (g2 := emit g1 (ICall r0 f)) in H.
    assert (Cu2 : cur g2 = cur g) by (unfold g2; cbn; exact Cu1).
    assert (Nb2 : nblocks g2 = nblocks g) by (unfold g2; cbn; exact Nb1).
    assert (Nr2 : nregs g2 = S (nregs g)) by (unfold g2; cbn; exact Nr1).
    assert (Bl2c : blocks g2 (cur g) = ICall r0 f :: blocks g (cur g)).
    { unfold g2, emit, set_blocks, upd; cbn. rewrite Cu1, Bl1, Nat.eqb_refl; reflexivity. }
    assert (Bl2o : forall l, l <> cur g -> blocks g2 l = blocks g l).
    { intros l Hl; unfold g2; rewrite blocks_emit_other by lia; rewrite Bl1; reflexivity. }
    assert (G2 : grows g g2) by (apply grows_emit, G1).
    destruct (new_block g2) as [h eb] eqn:E.
    destruct (grows_new_block g g2 h eb G2 E) as (Gh & Eeb & Nbh & Cuh & Blh & Nrh).
    apply bind_Ok in H; destruct H as (g3 & H3 & H4); injection H4 as <-.
    set (regs1 := upd regs r0 (i32 (oracle f))).
    cbn [List.length] in HF.
    destruct (cases_chain marker oracle d arms n h (OReg r0) eb g3 regs1 (i32 (oracle f)) (F - 1)
                ltac:(lia) ltac:(intros l Hl; rewrite Blh, Bl2o by lia; apply Hf; lia)
                ltac:(unfold terminated; rewrite Cuh, Blh, Cu2, Bl2c; reflexivity) ltac:(lia) Hm
                ltac:(unfold regs1, upd; cbn; rewrite Nat.eqb_refl; reflexivity)
                ltac:(intros r1 Hr1; injection Hr1 as <-; lia) ltac:(lia) H3) as (X & HX1 & HX2).
    exists (X ++ [ICall r0 f]); split.
    + change (blocks (position ?x _)) with (blocks x).
      rewrite Cuh, Blh, Cu2, Bl2c in HX1. rewrite HX1, <- app_assoc; reflexivity.
    + change (blocks (position ?x _)) with (blocks x).
      rewrite rev_app_distr; cbn [rev app].
      destruct F as [|F]; [lia|]. cbn [exec].
      cbn [scrut_ok] in Hs; apply negb_true_iff in Hs; rewrite Hs.
      replace (S F - 1)%nat with F in HX2 by lia.
      rewrite Eeb, Nb2 in HX2 |- *. exact HX2.
Qed.

Definition ex_arms : list match_arm := [(1, "a"%string, []); (2, "b"%string, [])].
Definition ex_dflt : option (string * list stmt) := Some ("d"%string, []).
Definition ex_marker (f : string) : bool := negb (String.eqb f "s").
Definition ex_oracle (f : string) : Z := 2.

Lemma match_dispatch_witness :
  exists g', cg_stmt 10 fn_entry (SMatch (ECall "s") (map arm_case ex_arms ++ dflt_cases ex_dflt)) = Ok g' /\
  exists X, blocks g' (cur fn_entry) = X ++ blocks fn_entry (cur fn_entry) /\
    exec 6 (blocks g') ex_marker (nblocks fn_entry) ex_oracle (fun _ => 0) (rev X)
    = match_spec (scrut_val ex_oracle (ECall "s")) ex_arms ex_dflt (nblocks fn_entry).
Proof.
  exists (match cg_stmt 10 fn_entry (SMatch (ECall "s") (map arm_case ex_arms ++ dflt_cases ex_dflt))
          with Ok g => g | _ => fn_entry end).
  split; [vm_compute; reflexivity|].
  apply (match_dispatch 10 fn_entry _ (ECall "s") ex_arms ex_dflt ex_marker ex_oracle (fun _ => 0) 6);
    [vm_compute; reflexivity | intros l _; vm_compute; reflexivity | vm_compute; reflexivity
    | vm_compute; reflexivity | vm_compute; reflexivity | vm_compute; reflexivity
    | vm_compute; reflexivity].
Defined.

(** A block the verifier rejects whatever is appended to it: a terminator
    stands before its last instruction. *)
Definition bad_block (b : list instr) : bool :=
  match b with
  | [] => false
  | _ :: t => existsb is_terminator t
  end.

Definition badin (g : cg) : Prop :=
  exists k, (k < nblocks g)%nat /\ bad_block (blocks g k) = true.

Lemma bad_block_app (pre b : list instr) :
  bad_block b = true -> bad_block (pre ++ b) = true.
Proof.
  intros H; destruct pre as [|i pre]; [exact H|]; cbn [app bad_block].
  destruct b as [|j t]; [discriminate|]; cbn [bad_block] in H.
  rewrite existsb_app; cbn [existsb]; rewrite H, !orb_true_r; reflexivity.
Qed.

Lemma bad_block_wf (b : list instr) : bad_block b = true -> wf_block b = false.
Proof.
  destruct b as [|i t]; [discriminate|]; cbn [bad_block wf_block]; intros H.
  apply andb_false_intro2.
  destruct (forallb (fun j => negb (is_terminator j)) t) eqn:E; [|reflexivity].
  rewrite forallb_forall in E; apply existsb_exists in H as (j & Hj & Hb).
  specialize (E j Hj); rewrite Hb in E; discriminate.
Qed.

Lemma badin_ext (x y : cg) : ext x y -> badin x -> badin y.
Proof.
  intros [H1 H2] (k & Hk & Hb); exists k; split; [lia|].
  destruct (H2 k Hk) as [pre ->]; apply bad_block_app, Hb.
Qed.

Lemma badin_verify (g : cg) : badin g -> verify g = false.
Proof.
  intros (k & Hk & Hb); unfold verify.
  destruct (forallb _ _) eqn:E; [|reflexivity].
  rewrite forallb_forall in E.
  specialize (E k ltac:(apply in_seq; lia)); rewrite bad_block_wf in E by exact Hb; discriminate.
Qed.

Lemma terminated_br_if_open (x : cg) (l : nat) : terminated (br_if_open x l) = true.
Proof.
  unfold br_if_open; destruct (terminated x) eqn:E; [exact E|].
  unfold terminated, emit, set_blocks, upd; cbn; rewrite Nat.eqb_refl; reflexivity.
Qed.

Lemma cur_cg_expr (x : cg) (e : expr) : cur (fst (cg_expr x e)) = cur x.
Proof. destruct e; reflexivity. Qed.

(** The arms before a given one are lowered one after the other from the
    insert block, each leaving a state the next one starts from. *)
Lemma cases_app (pre rest : list (option expr * list stmt)) (mval : operand) (eb : nat) :
  forall n g g', (cur g < nblocks g)%nat -> cg_cases n g mval eb (pre ++ rest) = Ok g' ->
  exists m g1, grows g g1 /\ cg_cases m g1 mval eb rest = Ok g'.
Proof.
  induction pre as [|c pre IH]; intros n g g' Hc H.
  - exists n, g; split; [apply grows_refl, Hc|exact H].
  - destruct n as [|n]; [discriminate|].
    destruct (lower_grows n) as (IHs & IHd & IHb & IHc).
    pose proof (grows_refl g Hc) as G0.
    destruct c as [[v|] body]; cbn [app cg_cases] in H; run0 g IHs IHd IHb IHc; cbv beta zeta in H;
      match goal with
      | H : cg_cases n ?x _ _ _ = Ok _ |- _ =>
          let Gx := fresh "Gx" in assert (Gx : grows g x) by gr g;
          let m := fresh "m" in let y := fresh "y" in
          let Gy := fresh "Gy" in let Hy := fresh "Hy" in
          destruct (IH n x g' (grows_cur _ _ Gx) H) as (m & y & Gy & Hy);
          exists m, y; split; [exact (grows_trans _ _ _ Gx Gy)|exact Hy]
      end.
Qed.

(** A default arm followed by a valued arm: the default's body is closed
    by the branch to the end block, and the compare of the next arm is
    appended to the same block, after that branch. *)
Lemma default_then_valued_bad (db vb : list stmt) (v : expr)
      (post : list (option expr * list stmt)) (mval : operand) (eb : nat) :
  forall n g g', (cur g < nblocks g)%nat ->
  cg_cases n g mval eb ((None, db) :: (Some v, vb) :: post) = Ok g' -> badin g'.
Proof.
  intros n g g' Hc H.
  destruct n as [|n]; [discriminate|]; cbn [cg_cases] in H.
  apply bind_Ok in H; destruct H as (g1 & H1 & H).
  destruct n as [|n]; [discriminate|]; cbn [cg_cases] in H.
  pose proof (proj1 (proj2 (proj2 (lower_grows (S n)))) g db g1 Hc H1) as G1.
  set (x := br_if_open g1 eb) in H.
  assert (Gx : grows g x) by apply grows_br_if_open, G1.
  assert (Hcx : (cur x < nblocks x)%nat) by apply (grows_cur _ _ Gx).
  assert (Tx : terminated x = true) by apply terminated_br_if_open.
  destruct (cg_expr x v) as [x1 cv] eqn:E1.
  destruct (grows_cg_expr x x x1 v cv (grows_refl x Hcx) E1) as (G2 & Nb2).
  assert (Cu1 : cur x1 = cur x) by (rewrite <- (cur_cg_expr x v), E1; reflexivity).
  destruct (new_reg x1) as [x2 r] eqn:E2.
  destruct (grows_new_reg x x1 x2 r G2 E2) as (G3 & _ & Nb3 & Cu3 & Bl3 & _).
  set (x3 := emit x2 (ICmpEq r mval cv)) in H.
  assert (Hc3 : (cur x3 < nblocks x3)%nat) by (cbn; rewrite Nb3, Cu3, Cu1, Nb2; exact Hcx).
  assert (B3 : bad_block (blocks x3 (cur x)) = true).
  { destruct G2 as (_ & _ & _ & _ & _ & _ & [pre Hp] & _).
    unfold x3, emit, set_blocks, upd; cbn. rewrite Cu3, Cu1, Nat.eqb_refl, Bl3, Hp.
    unfold terminated in Tx; destruct (blocks x (cur x)) as [|i t]; [discriminate|].
    cbn [bad_block]; rewrite existsb_app; cbn [existsb]; rewrite Tx, orb_true_r; reflexivity. }
  destruct (lower_grows n) as (IHs & IHd & IHb & IHc).
  assert (G : grows x3 g') by (run x3 IHs IHd IHb IHc).
  apply (badin_ext x3 g' (grows_ext _ _ G)).
  exists (cur x); split; [|exact B3].
  cbn; rewrite Nb3, Nb2; exact Hcx.
Qed.

Lemma fn_epilogue_ext (fuel : nat) (g g' : cg) (rk : ret_kind) :
  (cur g < nblocks g)%nat -> fn_epilogue fuel g rk = Ok g' -> ext g g'.
Proof.
  intros Hc H; unfold fn_epilogue in H.
  destruct (terminated g); [injection H as <-; apply ext_refl|].
  apply bind_Ok in H; destruct H as (g1 & H1 & H); injection H as <-.
  apply ext_trans with g1; [|apply ext_emit].
  apply grows_ext, (proj1 (proj2 (lower_grows fuel)) g _ g1 Hc H1).
Qed.

(** C2: a [match] whose default arm is followed by a valued arm is lowered
    into IR the verifier rejects. The default body is emitted in place and
    closed by its branch to the end block; the compare and the conditional
    branch of the next arm are then appended to that same, already
    terminated block. This holds wherever the default arm stands, for any
    arms before it and after the valued arm, for the [match] statement
    lowered from any state, and for a function whose body starts with it. *)
Theorem match_default_not_last (e : expr) (pre post : list (option expr * list stmt))
        (db vb : list stmt) (v : expr) :
  (forall n g g', (cur g < nblocks g)%nat ->
     cg_stmt n g (SMatch e (pre ++ (None, db) :: (Some v, vb) :: post)) = Ok g' ->
     verify g' = false) /\
  (forall fuel ss rk g,
     cg_fn_decl fuel (SMatch e (pre ++ (None, db) :: (Some v, vb) :: post) :: ss) rk = Ok g ->
     verify g = false).
Proof.
  assert (Hs : forall n g g', (cur g < nblocks g)%nat ->
     cg_stmt n g (SMatch e (pre ++ (None, db) :: (Some v, vb) :: post)) = Ok g' -> badin g').
  { intros n g g' Hc H.
    destruct n as [|n]; [discriminate|]; cbn [cg_stmt] in H.
    pose proof (grows_refl g Hc) as G0.
    destruct (cg_expr g e) as [g1 o] eqn:E1.
    destruct (grows_cg_expr g g g1 e o G0 E1) as (G1 & _).
    destruct (new_block g1) as [g2 eb] eqn:E2.
    destruct (grows_new_block g g1 g2 eb G1 E2) as (G2 & _).
    apply bind_Ok in H; destruct H as (g3 & H3 & H); injection H as <-.
    destruct (cases_app pre _ o eb n g2 g3 (grows_cur _ _ G2) H3) as (m & g4 & G4 & H4).
    apply (badin_ext g3).
    + apply ext_trans with (br_if_open g3 eb); [apply ext_br_if_open|apply ext_position].
    + exact (default_then_valued_bad db vb v post o eb m g4 g3 (grows_cur _ _ G4) H4). }
  split.
  - intros n g g' Hc H; exact (badin_verify _ (Hs n g g' Hc H)).
  - intros fuel ss rk g H; unfold cg_fn_decl in H.
    apply bind_Ok in H; destruct H as (g1 & H1 & H).
    destruct fuel as [|f]; [discriminate|]; cbn [cg_block] in H1.
    apply bind_Ok in H1; destruct H1 as (h & Hh & H1).
    assert (Hc0 : (cur fn_entry < nblocks fn_entry)%nat) by (cbn; lia).
    pose proof (Hs f fn_entry h Hc0 Hh) as Bh.
    pose proof (proj1 (lower_grows f) fn_entry _ h Hc0 Hh) as Gh.
    assert (E : ext h g1).
    { destruct (terminated h); [injection H1 as <-; apply ext_refl|].
      apply grows_ext, (proj1 (proj2 (proj2 (lower_grows f))) h ss g1 (grows_cur _ _ Gh) H1). }
    assert (Hc1 : (cur g1 < nblocks g1)%nat).
    { destruct (terminated h); [injection H1 as <-; exact (grows_cur _ _ Gh)|].
      exact (grows_cur _ _ (proj1 (proj2 (proj2 (lower_grows f))) h ss g1 (grows_cur _ _ Gh) H1)). }
    apply badin_verify, (badin_ext g1 g (fn_epilogue_ext _ _ _ _ Hc1 H)), (badin_ext h g1 E Bh).
Qed.

(** [match 1 { _ => d(), 1 => a() }] as a function body. *)
Lemma match_default_not_last_witness :
  exists g, cg_fn_decl 10
    [SMatch (EInt 1) [(None, [SExpr (ECall "d")]); (Some (EInt 1), [SExpr (ECall "a")])];
     SRet (Some (EInt 0))] RInt = Ok g /\
  blocks g 0 = [ICondBr (OReg 1) 2 3; ICmpEq 1 (OConst 1) (OConst 1); IBr 1; ICall 0 "d"] /\
  verify g = false.
Proof.
  exists (match cg_fn_decl 10
            [SMatch (EInt 1) [(None, [SExpr (ECall "d")]); (Some (EInt 1), [SExpr (ECall "a")])];
             SRet (Some (EInt 0))] RInt with Ok g => g | _ => fn_entry end).
  split; [vm_compute; reflexivity|split; [vm_compute; reflexivity|]].
  apply (proj2 (match_default_not_last (EInt 1) [] [] [SExpr (ECall "d")] [SExpr (ECall "a")] (EInt 1))
           10%nat [SRet (Some (EInt 0))] RInt).
  vm_compute; reflexivity.
Defined.

End MatchFacts.


(** * The expansion passes of the preprocessor. *)
Module PreprocFacts.
Import Preproc.

Lemma bind_not_NoFuel {A B} (m : res A) (k : A -> res B) :
  m <> NoFuel -> (forall a, m = Ok a -> k a <> NoFuel) -> bind m k <> NoFuel.
Proof. destruct m as [a| |]; cbn; intros H1 H2; [apply H2; reflexivity|discriminate|congruence]. Qed.

Lemma str_tail_len (n : nat) (r : list ascii) :
  (List.length r <= n)%nat -> (List.length (snd (str_tail r)) <= List.length r)%nat.
Proof.
  revert r; induction n as [|n IH]; intros r Hr.
  - destruct r; [cbn; lia|cbn in Hr; lia].
  - destruct r as [|c r1]; [cbn; lia|]. cbn [str_tail].
    destruct (Ascii.eqb c NUL); [cbn; lia|].
    destruct (Ascii.eqb c QUOTE); [cbn; lia|].
    destruct (Ascii.eqb c BSLASH && negb (at_end r1)).
    + destruct r1 as [|d r2]; [cbn; lia|].
      destruct (str_tail r2) as [w r3] eqn:E; cbn [snd].
      destruct n as [|n]; [cbn in Hr; lia|].
      pose proof (IH r2 ltac:(cbn in Hr; lia)) as K; rewrite E in K; cbn in K |- *; lia.
    + destruct (str_tail r1) as [w r2] eqn:E; cbn [snd].
      pose proof (IH r1 ltac:(cbn in Hr; lia)) as K; rewrite E in K; cbn in K |- *; lia.
Qed.

Lemma str_tail_le (r : list ascii) : (List.length (snd (str_tail r)) <= List.length r)%nat.
Proof. apply (str_tail_len (List.length r)); lia. Qed.

Lemma take_line_le (r : list ascii) : (List.length (snd (take_line r)) <= List.length r)%nat.
Proof.
  induction r as [|c r IH]; [cbn; lia|]. cbn [take_line].
  destruct (Ascii.eqb c NUL || Ascii.eqb c NL); [cbn; lia|].
  destruct (take_line r) as [w r'] eqn:E; cbn in IH |- *; lia.
Qed.

Lemma take_ident_le (r : list ascii) : (List.length (snd (take_ident r)) <= List.length r)%nat.
Proof.
  induction r as [|c r IH]; [cbn; lia|]. cbn [take_ident].
  destruct (ic c); [|cbn; lia].
  destruct (take_ident r) as [w r'] eqn:E; cbn in IH |- *; lia.
Qed.

Lemma take_ident_lt (c : ascii) (r : list ascii) :
  ic c = true -> (List.length (snd (take_ident (c :: r))) < List.length (c :: r))%nat.
Proof.
  intros H; cbn [take_ident]; rewrite H. pose proof (take_ident_le r) as K.
  destruct (take_ident r) as [w r'] eqn:E; cbn in K |- *; lia.
Qed.

Lemma take_line_lt (c : ascii) (r : list ascii) :
  (Ascii.eqb c NUL || Ascii.eqb c NL) = false ->
  (List.length (snd (take_line (c :: r))) < List.length (c :: r))%nat.
Proof.
  intros H; cbn [take_line]; rewrite H. pose proof (take_line_le r) as K.
  destruct (take_line r) as [w r'] eqn:E; cbn in K |- *; lia.
Qed.

Lemma args_scan_total (fuel : nat) :
  forall r depth acc args, (List.length r < fuel)%nat ->
  args_scan fuel r depth acc args <> NoFuel /\
  (forall a l r', args_scan fuel r depth acc args = Ok (a, l, r') ->
     (List.length r' <= List.length r)%nat).
Proof.
  induction fuel as [|n IH]; intros r depth acc args Hr; [lia|].
  cbn [args_scan].
  destruct (at_end r || (depth =? 0)%nat) eqn:Ae;
    [split; [discriminate|intros a l r' H; injection H as _ _ <-; lia]|].
  destruct r as [|c r0]; [cbn in Ae; discriminate Ae|].
  unfold is_c; cbn [cur tl].
  destruct (Ascii.eqb c QUOTE).
  { pose proof (str_tail_le r0) as K. destruct (str_tail r0) as [w r1] eqn:E; cbn in K.
    destruct (IH r1 depth (acc ++ QUOTE :: w) args ltac:(cbn in Hr; lia)) as [A B].
    split; [exact A|intros a l r' H; specialize (B a l r' H); cbn; lia]. }
  destruct (Ascii.eqb c "("%char).
  { destruct (IH r0 (S depth) (acc ++ [c]) args ltac:(cbn in Hr; lia)) as [A B].
    split; [exact A|intros a l r' H; specialize (B a l r' H); cbn; lia]. }
  destruct (Ascii.eqb c ")"%char).
  { destruct (pred depth =? 0)%nat.
    - split; [discriminate|intros a l r' H; injection H as _ _ <-; lia].
    - destruct (IH r0 (pred depth) (acc ++ [c]) args ltac:(cbn in Hr; lia)) as [A B].
      split; [exact A|intros a l r' H; specialize (B a l r' H); cbn; lia]. }
  destruct (Ascii.eqb c ","%char && (depth =? 1)%nat).
  { destruct (8 <=? List.length args)%nat; [split; [discriminate|discriminate]|].
    destruct (IH r0 depth [] (args ++ [acc]) ltac:(cbn in Hr; lia)) as [A B].
    split; [exact A|intros a l r' H; specialize (B a l r' H); cbn; lia]. }
  destruct (IH r0 depth (acc ++ [c]) args ltac:(cbn in Hr; lia)) as [A B].
  split; [exact A|intros a l r' H; specialize (B a l r' H); cbn; lia].
Qed.

Lemma subst_loop_total (fuel : nat) (m : macro) (args : list (list ascii)) (src : list ascii) :
  forall b out, (List.length b < fuel)%nat -> subst_loop fuel m args src b out <> NoFuel.
Proof.
  induction fuel as [|n IH]; intros b out Hb; [lia|].
  cbn [subst_loop].
  destruct (at_end b) eqn:Ae; [discriminate|].
  destruct b as [|c b0]; [discriminate|].
  destruct (is_c (c :: b0) QUOTE).
  { cbn [tl]. pose proof (str_tail_le b0) as K. destruct (str_tail b0) as [w b1] eqn:E; cbn in K.
    apply IH; cbn in Hb; lia. }
  destruct (word_start src (c :: b0)) eqn:Ws.
  { assert (Hc : ic c = true).
    { unfold word_start, is_c in Ws; cbn [cur] in Ws. apply andb_prop in Ws as [Ws _].
      unfold ic; apply orb_true_iff in Ws as [Ws|Ws]; rewrite Ws; [reflexivity|].
      rewrite !orb_true_r; reflexivity. }
    pose proof (take_ident_lt c b0 Hc) as K.
    destruct (take_ident (c :: b0)) as [w b1] eqn:E; cbn in K.
    apply IH; cbn in Hb; lia. }
  apply IH; cbn in Hb |- *; lia.
Qed.

Lemma subst_total (m : macro) (args : list (list ascii)) : subst m args <> NoFuel.
Proof. apply subst_loop_total; lia. Qed.

Lemma expand_loop_total (fuel : nat) :
  forall ms src r out ch, (List.length r < fuel)%nat -> expand_loop fuel ms src r out ch <> NoFuel.
Proof.
  induction fuel as [|n IH]; intros ms src r out ch Hr; [lia|].
  cbn [expand_loop].
  destruct (at_end r) eqn:Ae; [discriminate|].
  destruct r as [|c r0]; [cbn in Ae; discriminate Ae|].
  cbn [List.length] in Hr.
  destruct (is_c (c :: r0) QUOTE).
  { cbn [tl]. pose proof (str_tail_le r0) as K. destruct (str_tail r0) as [w r1] eqn:E; cbn in K.
    apply IH; lia. }
  destruct (is_c (c :: r0) "'"%char && negb (at_end (tl (c :: r0))) && is_c (tl (tl (c :: r0))) "'"%char).
  { apply IH. rewrite length_skipn; cbn [List.length]; lia. }
  destruct (is_c (c :: r0) "/"%char && is_c (tl (c :: r0)) "/"%char) eqn:Sl.
  { apply andb_prop in Sl as [S1 _]; unfold is_c in S1; cbn [cur] in S1.
    apply Ascii.eqb_eq in S1; subst c.
    pose proof (take_line_lt "/"%char r0 eq_refl) as K.
    destruct (take_line ("/"%char :: r0)) as [w r1] eqn:E; cbn [snd List.length] in K.
    apply IH; lia. }
  destruct (word_start src (c :: r0)) eqn:Ws.
  { assert (Hc : ic c = true).
    { unfold word_start, is_c in Ws; cbn [cur] in Ws. apply andb_prop in Ws as [Ws _].
      unfold ic; apply orb_true_iff in Ws as [Ws|Ws]; rewrite Ws; [reflexivity|].
      rewrite !orb_true_r; reflexivity. }
    pose proof (take_ident_lt c r0 Hc) as K.
    destruct (take_ident (c :: r0)) as [w r1] eqn:E; cbn [snd List.length] in K.
    destruct (find (fun m => bytes_eqb (name m) w) ms) as [m|].
    - destruct ((0 <? List.length (params m))%nat && is_c r1 "("%char).
      + destruct (args_scan_total (S (List.length r1)) (tl r1) 1 [] []
                    ltac:(destruct r1; cbn; lia)) as [A B].
        apply bind_not_NoFuel; [exact A|].
        intros [[args la] r2] E2. specialize (B _ _ _ E2).
        destruct (8 <=? List.length args)%nat; [discriminate|].
        apply bind_not_NoFuel; [apply subst_total|]. intros bd _.
        assert (T1 : (List.length (tl r1) <= List.length r1)%nat) by (destruct r1; cbn; lia).
        apply IH. destruct (is_c r2 ")"%char); [destruct r2; cbn in B |- *|]; lia.
      + destruct (List.length (params m) =? 0)%nat; apply IH; lia.
    - apply IH; lia. }
  apply IH; cbn; lia.
Qed.

Lemma expand_total (ms : list macro) (src : list ascii) : expand ms src <> NoFuel.
Proof.
  unfold expand. apply bind_not_NoFuel; [apply expand_loop_total; lia|].
  intros [o ch] _; discriminate.
Qed.

Lemma pp_loop_total (k : nat) (ms : list macro) (text : list ascii) : pp_loop k ms text <> NoFuel.
Proof.
  revert text; induction k as [|k IH]; intros text; cbn [pp_loop]; [discriminate|].
  apply bind_not_NoFuel; [apply expand_total|]. intros [t|] _; [|discriminate].
  apply bind_not_NoFuel; [apply IH|]. intros [fin c] _; discriminate.
Qed.

(** The text after [i] passes of [expand]; a pass that substitutes
    nothing leaves the text as it is. *)
Fixpoint pass_text (ms : list macro) (text : list ascii) (i : nat) : res (list ascii) :=
  match i with
  | O => Ok text
  | S j =>
    t <- pass_text ms text j ;;
    e <- expand ms t ;;
    Ok (match e with Some t' => t' | None => t end)
  end.

Lemma pass_text_shift (ms : list macro) (text t' : list ascii) (i : nat) :
  expand ms text = Ok (Some t') -> pass_text ms text (S i) = pass_text ms t' i.
Proof.
  intros E; induction i as [|i IH].
  - cbn; rewrite E; reflexivity.
  - change (pass_text ms text (S (S i))) with
      (t <- pass_text ms text (S i) ;; e <- expand ms t ;;
       Ok (match e with Some t' => t' | None => t end)).
    rewrite IH; reflexivity.
Qed.

Lemma pp_loop_spec (k : nat) (ms : list macro) :
  forall text out c, pp_loop k ms text = Ok (out, c) ->
  (c <= k)%nat /\ ((1 <= k)%nat -> (1 <= c)%nat) /\
  (forall i, (i < c - 1)%nat ->
     exists t t', pass_text ms text i = Ok t /\ expand ms t = Ok (Some t')) /\
  pass_text ms text c = Ok out /\
  ((c < k)%nat -> exists t, pass_text ms text (c - 1) = Ok t /\ expand ms t = Ok None /\ out = t).
Proof.
  induction k as [|k IH]; intros text out c H; cbn [pp_loop] in H.
  - injection H as <- <-. split; [lia|]. split; [lia|]. split; [intros; lia|].
    split; [reflexivity|intros; lia].
  - apply MatchFacts.bind_Ok in H; destruct H as ([t'|] & E & H).
    + apply MatchFacts.bind_Ok in H; destruct H as ([fin c'] & P & H); injection H as <- <-.
      destruct (IH t' fin c' P) as (H1 & H2 & H3 & H4 & H5).
      split; [lia|]. split; [lia|]. split; [|split].
      * intros [|i] Hi; [exists text, t'; split; [reflexivity|exact E]|].
        rewrite pass_text_shift with (t' := t') by exact E. apply H3; lia.
      * rewrite pass_text_shift with (t' := t') by exact E; exact H4.
      * intros Hc. destruct c' as [|c'']; [destruct k; lia|].
        replace (S (S c'') - 1)%nat with (S c'') by lia.
        rewrite pass_text_shift with (t' := t') by exact E.
        replace c'' with (S c'' - 1)%nat by lia. apply H5; lia.
    + injection H as <- <-. split; [lia|]. split; [lia|]. split; [intros; lia|].
      split; [cbn; rewrite E; reflexivity|].
      intros _; exists text; split; [reflexivity|split; [exact E|reflexivity]].
Qed.

(** C6: once the macro definitions are collected (and there is at least
    one), [preprocess] does not run forever, and it runs between 1 and 16
    passes of [expand]: every pass but the last substituted a macro, and a
    run that stops before the 16th pass stops at the first pass that
    substituted nothing. *)
Theorem preprocess_passes (fuel : nat) (src text : list ascii) (ms : list macro) :
  collect fuel src = Ok (text, ms) -> ms <> [] ->
  preprocess fuel src <> NoFuel /\
  forall out c, preprocess fuel src = Ok (out, c) ->
    (1 <= c <= 16)%nat /\
    (forall i, (i < c - 1)%nat ->
       exists t t', pass_text ms text i = Ok t /\ expand ms t = Ok (Some t')) /\
    pass_text ms text c = Ok out /\
    ((c < 16)%nat -> exists t, pass_text ms text (c - 1) = Ok t /\ expand ms t = Ok None /\ out = t).
Proof.
  intros Hc Hm.
  assert (P : preprocess fuel src = pp_loop 16 ms text).
  { unfold preprocess; rewrite Hc; cbn [bind]. destruct ms; [congruence|reflexivity]. }
  rewrite P. split; [apply pp_loop_total|].
  intros out c H. destruct (pp_loop_spec 16 ms text out c H) as (H1 & H2 & H3 & H4 & H5).
  split; [lia|]. auto.
Qed.

(** Source bytes: U+26A1 and U+1F449 in UTF-8. *)
Definition zap : list ascii := map ascii_of_nat [226; 154; 161]%nat.
Definition point : list ascii := map ascii_of_nat [240; 159; 145; 137]%nat.
Definition bytes (s : string) : list ascii := list_ascii_of_string s.

(** [⚡A 👉 B], [⚡B 👉 1], then [A]. *)
Definition pp_nested : list ascii :=
  zap ++ bytes "A" ++ point ++ bytes "B" ++ [NL] ++
  zap ++ bytes "B" ++ point ++ bytes "1" ++ [NL] ++ bytes "A".

Lemma preprocess_passes_witness :
  exists text ms, collect 100 pp_nested = Ok (text, ms) /\ ms <> [] /\
    preprocess 100 pp_nested <> NoFuel /\ preprocess 100 pp_nested = Ok (bytes "1", 3%nat).
Proof.
  do 2 eexists; split; [reflexivity|]. split; [discriminate|]. split.
  - eapply proj1. eapply preprocess_passes; [reflexivity|discriminate].
  - vm_compute; reflexivity.
Defined.

(** [⚡X 👉 X], then [X]: each pass substitutes [X] by [X]. *)
Definition pp_identity : list ascii := zap ++ bytes "X" ++ point ++ bytes "X" ++ [NL] ++ bytes "X".

Lemma preprocess_identity_macro_16_passes :
  collect 100 pp_identity = Ok (bytes "X", [Mac (bytes "X") [] (bytes "X")]) /\
  expand [Mac (bytes "X") [] (bytes "X")] (bytes "X") = Ok (Some (bytes "X")) /\
  preprocess 100 pp_identity = Ok (bytes "X", 16%nat).
Proof. vm_compute. split; [reflexivity|split; reflexivity]. Qed.

(** [⚡F(-) 👉 x]: the parameter loop of [collect] does not advance on [-]. *)
Definition pp_hang : list ascii := zap ++ bytes "F(-)" ++ point ++ bytes "x".

Lemma params_scan_hang (n : nat) (q : list ascii) (tp : list (list ascii)) :
  q = bytes "-)" ++ point ++ bytes "x" -> params_scan n q tp = NoFuel.
Proof.
  intros ->; revert tp; induction n as [|n IH]; intros tp; [reflexivity|]. exact (IH tp).
Qed.

Lemma collect_params_hang (fuel : nat) : collect fuel pp_hang = NoFuel.
Proof.
  destruct fuel as [|n]; [reflexivity|].
  unfold collect; simpl. unfold macro_def; simpl.
  rewrite params_scan_hang by reflexivity. reflexivity.
Qed.

End PreprocFacts.

Module PipeFacts.
Import Parse.

(** [a] agrees with [b] when [b] ran to completion. *)
Definition agrees {A} (a b : res A) : Prop := b <> NoFuel -> a = b.

Lemma agrees_refl {A} (a : res A) : agrees a a.
Proof. intros _; reflexivity. Qed.

Lemma agrees_bind {A B} (m1 m2 : res A) (k1 k2 : A -> res B) :
  agrees m1 m2 -> (forall x, agrees (k1 x) (k2 x)) ->
  agrees (bind m1 k1) (bind m2 k2).
Proof.
  intros H1 H2 Hn; destruct m2 as [a| |]; cbn in Hn |- *.
  - rewrite H1 by discriminate; apply H2; exact Hn.
  - rewrite H1 by discriminate; reflexivity.
  - congruence.
Qed.

(** More fuel does not change a result reached with less. *)
Lemma parse_fuel_mono (n : nat) :
  (forall m ts, (n <= m)%nat -> agrees (parse_type m ts) (parse_type n ts)) /\
  (forall m a ts, (n <= m)%nat -> agrees (parse_params m a ts) (parse_params n a ts)) /\
  (forall m a i ts, (n <= m)%nat -> agrees (params_loop m a i ts) (params_loop n a i ts)) /\
  (forall m ts, (n <= m)%nat -> agrees (parse_expr m ts) (parse_expr n ts)) /\
  (forall m e ts, (n <= m)%nat -> agrees (pipe_loop m e ts) (pipe_loop n e ts)) /\
  (forall m p ts, (n <= m)%nat -> agrees (parse_binop m p ts) (parse_binop n p ts)) /\
  (forall m p l ts, (n <= m)%nat -> agrees (binop_loop m p l ts) (binop_loop n p l ts)) /\
  (forall m ts, (n <= m)%nat -> agrees (parse_cast m ts) (parse_cast n ts)) /\
  (forall m e ts, (n <= m)%nat -> agrees (cast_loop m e ts) (cast_loop n e ts)) /\
  (forall m ts, (n <= m)%nat -> agrees (parse_unary m ts) (parse_unary n ts)) /\
  (forall m ts, (n <= m)%nat -> agrees (parse_primary m ts) (parse_primary n ts)) /\
  (forall m l ts, (n <= m)%nat -> agrees (parse_postfix m l ts) (parse_postfix n l ts)) /\
  (forall m ts, (n <= m)%nat -> agrees (args_loop m ts) (args_loop n ts)) /\
  (forall m t ts, (n <= m)%nat ->
     agrees (parse_struct_init_literal m t ts) (parse_struct_init_literal n t ts)) /\
  (forall m ts, (n <= m)%nat -> agrees (fields_loop m ts) (fields_loop n ts)).
Proof.
  induction n as [|n IH].
  { repeat split; intros; intros Hn; exfalso; apply Hn; reflexivity. }
  destruct IH as (Ity & Ipp & Ipl & Iex & Ipi & Ibi & Ibl & Ica & Icl & Iun & Ipr
                  & Ipo & Iar & Isi & Ifl).
  repeat split; intros; (destruct m as [|m]; [lia|]);
  cbn [parse_type parse_params params_loop parse_expr pipe_loop parse_binop
       binop_loop parse_cast cast_loop parse_unary parse_primary parse_postfix
       args_loop parse_struct_init_literal fields_loop].
  all: repeat (cbv beta iota zeta;
  lazymatch goal with
  | |- agrees ?a ?a => apply agrees_refl
  | |- agrees (bind _ _) (bind _ _) => apply agrees_bind; [| intros ?]
  | |- agrees (match ?x with _ => _ end) _ => destruct x
  | |- agrees (parse_type _ _) _ => apply Ity; lia
  | |- agrees (parse_params _ _ _) _ => apply Ipp; lia
  | |- agrees (params_loop _ _ _ _) _ => apply Ipl; lia
  | |- agrees (parse_expr _ _) _ => apply Iex; lia
  | |- agrees (pipe_loop _ _ _) _ => apply Ipi; lia
  | |- agrees (parse_binop _ _ _) _ => apply Ibi; lia
  | |- agrees (binop_loop _ _ _ _) _ => apply Ibl; lia
  | |- agrees (parse_cast _ _) _ => apply Ica; lia
  | |- agrees (cast_loop _ _ _) _ => apply Icl; lia
  | |- agrees (parse_unary _ _) _ => apply Iun; lia
  | |- agrees (parse_primary _ _) _ => apply Ipr; lia
  | |- agrees (parse_postfix _ _ _) _ => apply Ipo; lia
  | |- agrees (args_loop _ _) _ => apply Iar; lia
  | |- agrees (parse_struct_init_literal _ _ _) _ => apply Isi; lia
  | |- agrees (fields_loop _ _) _ => apply Ifl; lia
  end).
Qed.


(** Tokens that end an expression at the binary-operator level, the way
    the end of the input does. *)
Definition stop_tok (k : TokenKind) : bool :=
  (binop_prec k =? -1) &&
  negb (existsb (tok_eqb k)
          [TOK_AS; TOK_ARROW; TOK_LPAREN; TOK_DOT; TOK_LBRACKET; TOK_LBRACE;
           TOK_RBRACE; TOK_IDENT; TOK_COLON; TOK_NEWLINE; TOK_SEMI; TOK_EOF]).

Lemma tok_eqb_spec (a b : TokenKind) : tok_eqb a b = true <-> a = b.
Proof. unfold tok_eqb; destruct (TokenKind_eq_dec a b); split; congruence. Qed.

Lemma tok_eqb_ne (a b : TokenKind) : a <> b -> tok_eqb a b = false.
Proof. unfold tok_eqb; destruct (TokenKind_eq_dec a b); congruence. Qed.

Lemma check_nil (K : TokenKind) : K <> TOK_EOF -> check [] K = false.
Proof. intros H; unfold check; cbn; apply tok_eqb_ne; congruence. Qed.

Lemma check_app (ts l : list token) (K : TokenKind) :
  ts <> [] -> check (ts ++ l) K = check ts K.
Proof. destruct ts; [congruence|reflexivity]. Qed.

Lemma next_app (ts l : list token) : ts <> [] -> next (ts ++ l) = next ts ++ l.
Proof. destruct ts; [congruence|reflexivity]. Qed.

Lemma peek_app (ts l : list token) : ts <> [] -> peek (ts ++ l) = peek ts.
Proof. destruct ts; [congruence|reflexivity]. Qed.

Lemma expect_app (ts l : list token) (K : TokenKind) (t : token) (ts' : list token) :
  expect ts K = Ok (t, ts') -> K <> TOK_EOF ->
  ts <> [] /\ expect (ts ++ l) K = Ok (t, ts' ++ l).
Proof.
  intros H HK; destruct ts as [|t1 ts1]; cbn in H |- *.
  - rewrite tok_eqb_ne in H by congruence; discriminate.
  - split; [discriminate|].
    destruct (tok_eqb (kind t1) K); [|discriminate].
    injection H as <- <-; reflexivity.
Qed.

Lemma skip_nl_app (ts l : list token) :
  skip_nl ts <> [] -> skip_nl (ts ++ l) = skip_nl ts ++ l.
Proof.
  induction ts as [|t ts IH]; cbn; [congruence|].
  destruct (tok_eqb (kind t) TOK_NEWLINE || tok_eqb (kind t) TOK_SEMI); auto.
Qed.

Lemma skip_nl_idem (ts : list token) : skip_nl (skip_nl ts) = skip_nl ts.
Proof.
  induction ts as [|t ts IH]; cbn; [reflexivity|].
  destruct (tok_eqb (kind t) TOK_NEWLINE || tok_eqb (kind t) TOK_SEMI) eqn:E; auto.
  cbn; rewrite E; reflexivity.
Qed.

(** Ends of the input: what each function does on an empty stream. *)
Lemma parse_type_nil n v rest : parse_type n [] <> Ok (v, rest).
Proof. destruct n; discriminate. Qed.

Lemma params_loop_nil n a i v rest : params_loop n a i [] <> Ok (v, rest).
Proof. destruct n; [discriminate|]; cbn; destruct a; discriminate. Qed.

Lemma parse_primary_nil n v rest : parse_primary n [] <> Ok (v, rest).
Proof. destruct n; discriminate. Qed.

Lemma parse_unary_nil n v rest : parse_unary n [] <> Ok (v, rest).
Proof. destruct n as [|[|n]]; discriminate. Qed.

Lemma parse_cast_nil n v rest : parse_cast n [] <> Ok (v, rest).
Proof. destruct n as [|[|[|n]]]; discriminate. Qed.

Lemma parse_binop_nil n p v rest : parse_binop n p [] <> Ok (v, rest).
Proof. destruct n as [|[|[|[|n]]]]; discriminate. Qed.

Lemma parse_expr_nil n v rest : parse_expr n [] <> Ok (v, rest).
Proof. destruct n as [|[|[|[|[|n]]]]]; discriminate. Qed.

Lemma args_loop_nil n v rest : args_loop n [] <> Ok (v, rest).
Proof. destruct n as [|[|[|[|[|[|n]]]]]]; discriminate. Qed.

Lemma fields_loop_nil n v rest : fields_loop n [] <> Ok (v, rest).
Proof. destruct n; discriminate. Qed.

Lemma pipe_loop_nil n e v rest : pipe_loop n e [] = Ok (v, rest) -> rest = [].
Proof. destruct n; cbn; congruence. Qed.

Lemma cast_loop_nil n e v rest : cast_loop n e [] = Ok (v, rest) -> rest = [].
Proof. destruct n; cbn; congruence. Qed.

Lemma parse_postfix_nil n e v rest : parse_postfix n e [] = Ok (v, rest) -> rest = [].
Proof. destruct n; cbn; congruence. Qed.

Lemma binop_loop_nil n p e v rest : binop_loop n p e [] = Ok (v, rest) -> rest = [].
Proof.
  destruct n as [|n]; cbn; [congruence|].
  destruct (-1 <? p); [congruence|].
  destruct (parse_binop n _ []) as [[x y]| |] eqn:E; cbn; [|congruence|congruence].
  exfalso; exact (parse_binop_nil _ _ _ _ E).
Qed.

Lemma bind_ok_inv {A B} (m : res A) (k : A -> res B) (b : B) :
  bind m k = Ok b -> exists a, m = Ok a /\ k a = Ok b.
Proof. destruct m; cbn; eauto; discriminate. Qed.

(** The separator step of [fields_loop] after a field value. *)
Definition field_sep (ts3 : list token) : list token :=
  if check ts3 TOK_COMMA then skip_nl (next ts3)
  else let u := skip_nl ts3 in if check u TOK_RBRACE then u else skip_nl u.

Lemma fields_loop_S (n : nat) (ts : list token) :
  fields_loop (S n) ts =
  if check ts TOK_RBRACE || check ts TOK_EOF then
    '(_t, ts1) <- expect ts TOK_RBRACE ;; Ok ([], ts1)
  else
    '(fname, ts1) <- expect ts TOK_IDENT ;;
    '(_t, ts2) <- expect ts1 TOK_COLON ;;
    '(v, ts3) <- parse_expr n ts2 ;;
    '(fs, ts5) <- fields_loop n (field_sep ts3) ;;
    Ok ((text fname, v) :: fs, ts5).
Proof. reflexivity. Qed.

Lemma field_sep_nil : field_sep [] = [].
Proof. reflexivity. Qed.

Lemma field_sep_app (ts3 l : list token) :
  ts3 <> [] -> field_sep ts3 <> [] -> field_sep (ts3 ++ l) = field_sep ts3 ++ l.
Proof.
  intros H1 H2; unfold field_sep in *; rewrite check_app by exact H1.
  destruct (check ts3 TOK_COMMA).
  - rewrite next_app by exact H1; apply skip_nl_app; exact H2.
  - assert (Hu : skip_nl ts3 <> []).
    { intros Hu; rewrite Hu in H2; apply H2; reflexivity. }
    rewrite skip_nl_app by exact Hu; rewrite check_app by exact Hu.
    destruct (check (skip_nl ts3) TOK_RBRACE); [reflexivity|].
    apply skip_nl_app; exact H2.
Qed.

Section Extend.

Variable t0 : token.
Variable r : list token.
Hypothesis Hk : stop_tok (kind t0) = true.

Lemma stop_facts :
  binop_prec (kind t0) = -1 /\
  forall K, In K [TOK_AS; TOK_ARROW; TOK_LPAREN; TOK_DOT; TOK_LBRACKET; TOK_LBRACE;
             TOK_RBRACE; TOK_IDENT; TOK_COLON; TOK_NEWLINE; TOK_SEMI; TOK_EOF] ->
  check (t0 :: r) K = false.
Proof.
  unfold stop_tok in Hk; apply andb_prop in Hk as [H1 H2]; split; [lia|].
  intros K HK; unfold check; cbn.
  destruct (tok_eqb (kind t0) K) eqn:E; [|reflexivity].
  apply negb_true_iff in H2. exfalso.
  assert (existsb (tok_eqb (kind t0)) [TOK_AS; TOK_ARROW; TOK_LPAREN; TOK_DOT; TOK_LBRACKET; TOK_LBRACE;
             TOK_RBRACE; TOK_IDENT; TOK_COLON; TOK_NEWLINE; TOK_SEMI; TOK_EOF] = true)
    by (apply existsb_exists; eauto).
  congruence.
Qed.

Ltac stop_check :=
  lazymatch goal with
  | |- tok_eqb (kind t0) ?K = false => exact (proj2 stop_facts K ltac:(cbn; tauto))
  | |- _ => apply (proj2 stop_facts); cbn; tauto
  end.

Lemma skip_nl_stop : skip_nl (t0 :: r) = t0 :: r.
Proof.
  cbn. pose proof (ltac:(stop_check) : check (t0 :: r) TOK_NEWLINE = false) as A.
  pose proof (ltac:(stop_check) : check (t0 :: r) TOK_SEMI = false) as B.
  unfold check in A, B; cbn in A, B; rewrite A, B; reflexivity.
Qed.

Lemma looks_app (ts : list token) :
  looks_like_struct_init (ts ++ t0 :: r) = looks_like_struct_init ts.
Proof.
  unfold looks_like_struct_init.
  destruct ts as [|t ts].
  - cbn [app]. rewrite (ltac:(stop_check) : check (t0 :: r) TOK_LBRACE = false). reflexivity.
  - cbn [app]. unfold check; cbn [peek next tl].
    destruct (tok_eqb (kind t) TOK_LBRACE); [|reflexivity].
    destruct (skip_nl ts) eqn:E.
    + assert (skip_nl (ts ++ t0 :: r) = t0 :: r) as ->.
      { clear -E Hk. induction ts as [|u ts IH]; cbn in E |- *; [apply skip_nl_stop|].
        destruct (tok_eqb (kind u) TOK_NEWLINE || tok_eqb (kind u) TOK_SEMI); auto; discriminate. }
      cbn [peek].
      rewrite (ltac:(stop_check) : tok_eqb (kind t0) TOK_RBRACE = false).
      rewrite (ltac:(stop_check) : tok_eqb (kind t0) TOK_IDENT = false). reflexivity.
    + rewrite skip_nl_app by (rewrite E; discriminate). rewrite E.
      cbn [app peek next tl].
      destruct (tok_eqb (kind t1) TOK_RBRACE); [reflexivity|].
      destruct (tok_eqb (kind t1) TOK_IDENT); [|reflexivity].
      destruct l as [|u l].
      * cbn [app peek]. rewrite (ltac:(stop_check) : tok_eqb (kind t0) TOK_COLON = false). reflexivity.
      * reflexivity.
Qed.


Lemma check_stop (ts : list token) (K : TokenKind) :
  K <> TOK_EOF ->
  In K [TOK_AS; TOK_ARROW; TOK_LPAREN; TOK_DOT; TOK_LBRACKET; TOK_LBRACE;
        TOK_RBRACE; TOK_IDENT; TOK_COLON; TOK_NEWLINE; TOK_SEMI; TOK_EOF] ->
  check (ts ++ t0 :: r) K = check ts K.
Proof.
  intros HK HI; destruct ts as [|t ts]; [|reflexivity].
  cbn [app]; rewrite check_nil by exact HK; apply (proj2 stop_facts); exact HI.
Qed.

Ltac fin H := injection H; intros; subst; reflexivity.
Tactic Notation "inv" hyp(H) "as" simple_intropattern(p) ident(E) :=
  apply bind_ok_inv in H as (p & E & H); cbv beta iota in H.
Ltac cs := rewrite check_stop by (discriminate || (cbn; tauto)).
Ltac ex E := let Hn := fresh "Hx" in let E' := fresh "Ex" in
  destruct (expect_app _ (t0 :: r) _ _ _ E ltac:(discriminate)) as [Hn E']; rewrite E'; cbn [bind].

(** Appending a stop token (and anything after it) behind an input that a
    function parses leaves the result and the tokens it consumes unchanged:
    the functions at the binary-operator level treat a stop token like the
    end of the input; the others stop before the end. *)
Lemma parse_extend (n : nat) :
  (forall ts v rest, parse_type n ts = Ok (v, rest) ->
     parse_type n (ts ++ t0 :: r) = Ok (v, rest ++ t0 :: r)) /\
  (forall a ts ps va rest, parse_params n a ts = Ok (ps, va, rest) -> rest <> [] ->
     parse_params n a (ts ++ t0 :: r) = Ok (ps, va, rest ++ t0 :: r)) /\
  (forall a i ts ps va rest, params_loop n a i ts = Ok (ps, va, rest) -> rest <> [] ->
     params_loop n a i (ts ++ t0 :: r) = Ok (ps, va, rest ++ t0 :: r)) /\
  (forall ts v rest, parse_expr n ts = Ok (v, rest) -> rest <> [] ->
     parse_expr n (ts ++ t0 :: r) = Ok (v, rest ++ t0 :: r)) /\
  (forall e ts v rest, pipe_loop n e ts = Ok (v, rest) -> rest <> [] ->
     pipe_loop n e (ts ++ t0 :: r) = Ok (v, rest ++ t0 :: r)) /\
  (forall p ts v rest, 0 < p -> parse_binop n p ts = Ok (v, rest) ->
     parse_binop n p (ts ++ t0 :: r) = Ok (v, rest ++ t0 :: r)) /\
  (forall p lft ts v rest, 0 < p -> binop_loop n p lft ts = Ok (v, rest) ->
     binop_loop n p lft (ts ++ t0 :: r) = Ok (v, rest ++ t0 :: r)) /\
  (forall ts v rest, parse_cast n ts = Ok (v, rest) ->
     parse_cast n (ts ++ t0 :: r) = Ok (v, rest ++ t0 :: r)) /\
  (forall e ts v rest, cast_loop n e ts = Ok (v, rest) ->
     cast_loop n e (ts ++ t0 :: r) = Ok (v, rest ++ t0 :: r)) /\
  (forall ts v rest, parse_unary n ts = Ok (v, rest) ->
     parse_unary n (ts ++ t0 :: r) = Ok (v, rest ++ t0 :: r)) /\
  (forall ts v rest, parse_primary n ts = Ok (v, rest) ->
     parse_primary n (ts ++ t0 :: r) = Ok (v, rest ++ t0 :: r)) /\
  (forall lft ts v rest, parse_postfix n lft ts = Ok (v, rest) ->
     parse_postfix n lft (ts ++ t0 :: r) = Ok (v, rest ++ t0 :: r)) /\
  (forall ts v rest, args_loop n ts = Ok (v, rest) -> rest <> [] ->
     args_loop n (ts ++ t0 :: r) = Ok (v, rest ++ t0 :: r)) /\
  (forall t ts v rest, parse_struct_init_literal n t ts = Ok (v, rest) ->
     parse_struct_init_literal n t (ts ++ t0 :: r) = Ok (v, rest ++ t0 :: r)) /\
  (forall ts v rest, fields_loop n ts = Ok (v, rest) ->
     fields_loop n (ts ++ t0 :: r) = Ok (v, rest ++ t0 :: r)).
Proof.
  induction n as [|n IH].
  { repeat split; intros; discriminate. }
  destruct IH as (Ity & Ipp & Ipl & Iex & Ipi & Ibi & Ibl & Ica & Icl & Iun & Ipr
                  & Ipo & Iar & Isi & Ifl).
  split; [|split; [|split; [|split; [|split; [|split; [|split; [|split; [|split;
    [|split; [|split; [|split; [|split; [|split]]]]]]]]]]]]].
  - (* parse_type *)
    intros ts v rest H.
    destruct ts as [|t ts]; [exfalso; exact (parse_type_nil _ _ _ H)|].
    cbn [parse_type app] in H |- *.
    destruct (tok_eqb (kind t) TOK_STAR).
    + destruct (check ts TOK_FN) eqn:EF.
      * assert (Hts : ts <> []) by (intros ->; rewrite check_nil in EF by discriminate; discriminate).
        rewrite check_app, EF by exact Hts.
        inv H as [t1 ts1] E1. rewrite next_app by exact Hts. ex E1.
        inv H as [[ps va] ts2] E2. inv H as [t3 ts3] E3.
        destruct (expect_app _ (t0 :: r) _ _ _ E3 ltac:(discriminate)) as [Hne E3'].
        rewrite (Ipp _ _ _ _ _ E2 Hne); cbn [bind]; rewrite E3'; cbn [bind].
        destruct (check ts3 TOK_ARROW) eqn:EA.
        -- assert (ts3 <> []) by (intros ->; rewrite check_nil in EA by discriminate; discriminate).
           rewrite check_app, EA by assumption.
           inv H as [rt ts4] E4. rewrite next_app by assumption.
           rewrite (Ity _ _ _ E4); cbn [bind]; fin H.
        -- cs. rewrite EA. fin H.
      * inv H as [b ts1] E1.
        assert (Hts : ts <> []) by (intros ->; exact (parse_type_nil _ _ _ E1)).
        rewrite check_app, EF by exact Hts.
        rewrite (Ity _ _ _ E1); cbn [bind]; fin H.
    + destruct (tok_eqb (kind t) TOK_LBRACKET).
      * inv H as [sz ts1] E1. ex E1. inv H as [u ts2] E2. ex E2.
        inv H as [el ts3] E3. rewrite (Ity _ _ _ E3); cbn [bind]; fin H.
      * destruct (basic_type_of (kind t)); [fin H|].
        destruct (tok_eqb (kind t) TOK_IDENT); [fin H|discriminate].
  - (* parse_params *)
    intros a ts ps va rest H Hr.
    destruct ts as [|t ts].
    { cbn [parse_params] in H; rewrite !check_nil in H by discriminate.
      exfalso; exact (params_loop_nil _ _ _ _ _ H). }
    cbn [parse_params] in H |- *.
    rewrite !check_app by discriminate.
    destruct (check (t :: ts) TOK_RPAREN); [fin H|].
    destruct (check (t :: ts) TOK_ELLIPSIS); [rewrite next_app by discriminate; fin H|].
    exact (Ipl _ _ _ _ _ _ H Hr).
  - (* params_loop *)
    intros a i ts ps va rest H Hr.
    destruct ts as [|t ts]; [exfalso; exact (params_loop_nil _ _ _ _ _ H)|].
    cbn [params_loop] in H |- *.
    rewrite check_app by discriminate.
    destruct (check (t :: ts) TOK_ELLIPSIS); [rewrite next_app by discriminate; fin H|].
    rewrite peek_app by discriminate.
    destruct (a && is_type_start (peek (t :: ts))).
    + inv H as [ty ts1] E1.
      destruct (check ts1 TOK_COMMA) eqn:EC.
      * assert (ts1 <> []) by (intros ->; rewrite check_nil in EC by discriminate; discriminate).
        rewrite (Ity _ _ _ E1); cbn [bind]; rewrite check_app, EC by assumption.
        inv H as [[ps' va'] ts2] E2. injection H; intros; subst.
        rewrite next_app by assumption. rewrite (Ipl _ _ _ _ _ _ E2 Hr); cbn [bind]; reflexivity.
      * injection H; intros; subst.
        rewrite (Ity _ _ _ E1); cbn [bind]; rewrite check_app, EC by assumption; reflexivity.
    + inv H as [nm ts1] E1. ex E1.
      inv H as [[pm idx'] ts2] E2.
      assert (Hts2 : ts2 <> []).
      { destruct (check ts2 TOK_COMMA) eqn:EC.
        - intros ->; rewrite check_nil in EC by discriminate; discriminate.
        - injection H; intros; subst; exact Hr. }
      destruct (check ts1 TOK_COLON) eqn:EL.
      * assert (ts1 <> []) by (intros ->; rewrite check_nil in EL by discriminate; discriminate).
        rewrite check_app, EL by assumption.
        inv E2 as [ty ts2'] E3. injection E2; intros; subst.
        rewrite next_app by assumption. rewrite (Ity _ _ _ E3); cbn [bind].
        rewrite check_app by exact Hts2.
        destruct (check ts2 TOK_COMMA).
        -- inv H as [[ps' va'] ts3] E4. injection H; intros; subst.
           rewrite next_app by exact Hts2. rewrite (Ipl _ _ _ _ _ _ E4 Hr); cbn [bind]; reflexivity.
        -- fin H.
      * assert (ts1 = ts2) by (destruct a; injection E2; intros; subst; reflexivity). subst ts2.
        rewrite check_app, EL by exact Hts2.
        destruct a; injection E2; intros; subst; cbn [bind];
          rewrite check_app by exact Hts2;
          (destruct (check ts1 TOK_COMMA);
           [ inv H as [[ps' va'] ts3] E4; injection H; intros; subst;
             rewrite next_app by exact Hts2; rewrite (Ipl _ _ _ _ _ _ E4 Hr); cbn [bind]; reflexivity
           | fin H ]).
  - (* parse_expr *)
    intros ts v rest H Hr. cbn [parse_expr] in H |- *.
    inv H as [e ts1] E1. inv H as [e1 ts2] E2.
    assert (ts2 <> []) by (intros ->; apply pipe_loop_nil in H; congruence).
    rewrite (Ibi 1 _ _ _ ltac:(lia) E1); cbn [bind].
    destruct (check ts1 TOK_QUESTION) eqn:EQ.
    + assert (ts1 <> []) by (intros ->; rewrite check_nil in EQ by discriminate; discriminate).
      rewrite check_app, EQ by assumption.
      inv E2 as [th ts2a] E3. inv E2 as [u ts3] E4. inv E2 as [el ts4] E5.
      injection E2; intros; subst.
      destruct (expect_app _ (t0 :: r) _ _ _ E4 ltac:(discriminate)) as [Hne E4'].
      rewrite next_app by assumption. rewrite (Iex _ _ _ E3 Hne); cbn [bind].
      rewrite E4'; cbn [bind]. rewrite (Iex _ _ _ E5 ltac:(assumption)); cbn [bind].
      exact (Ipi _ _ _ _ H Hr).
    + injection E2; intros; subst.
      rewrite check_app, EQ by assumption; cbn [bind]. exact (Ipi _ _ _ _ H Hr).
  - (* pipe_loop *)
    intros e ts v rest H Hr. cbn [pipe_loop] in H |- *.
    destruct ts as [|t ts].
    { rewrite check_nil in H by discriminate. injection H; intros; subst; congruence. }
    rewrite check_app by discriminate.
    destruct (check (t :: ts) TOK_PIPE_OP); [|fin H].
    inv H as [rhs ts1] E1.
    assert (ts1 <> []) by (intros ->; destruct rhs; try discriminate; apply pipe_loop_nil in H; congruence).
    rewrite next_app by discriminate. rewrite (Ibi 1 _ _ _ ltac:(lia) E1); cbn [bind].
    destruct rhs; try discriminate; apply Ipi; assumption.
  - (* parse_binop *)
    intros p ts v rest Hp H. cbn [parse_binop] in H |- *.
    inv H as [l0 ts1] E1. rewrite (Ica _ _ _ E1); cbn [bind].
    exact (Ibl _ _ _ _ _ Hp H).
  - (* binop_loop *)
    intros p lft ts v rest Hp H. cbn [binop_loop] in H |- *.
    destruct ts as [|t ts].
    + cbn [app peek] in H |- *. rewrite (proj1 stop_facts).
      change (binop_prec TOK_EOF) with (-1) in H.
      assert (E : (-1 <? p) = true) by (apply Z.ltb_lt; lia).
      rewrite E in H |- *. fin H.
    + rewrite peek_app, next_app by discriminate.
      destruct (binop_prec (peek (t :: ts)) <? p) eqn:Ep; [fin H|].
      apply Z.ltb_ge in Ep.
      inv H as [rgt ts1] E1.
      match type of E1 with parse_binop _ ?m _ = _ =>
        assert (Hm : 0 < m) by (destruct (_ || _); lia) end.
      rewrite (Ibi _ _ _ _ Hm E1); cbn [bind].
      exact (Ibl _ _ _ _ _ Hp H).
  - (* parse_cast *)
    intros ts v rest H. cbn [parse_cast] in H |- *.
    inv H as [e ts1] E1. rewrite (Iun _ _ _ E1); cbn [bind].
    exact (Icl _ _ _ _ H).
  - (* cast_loop *)
    intros e ts v rest H. cbn [cast_loop] in H |- *.
    cs. destruct (check ts TOK_AS) eqn:EA; [|fin H].
    assert (ts <> []) by (intros ->; rewrite check_nil in EA by discriminate; discriminate).
    inv H as [ty ts1] E1. rewrite next_app by assumption.
    rewrite (Ity _ _ _ E1); cbn [bind]. exact (Icl _ _ _ _ H).
  - (* parse_unary *)
    intros ts v rest H.
    destruct ts as [|t ts]; [exfalso; exact (parse_unary_nil _ _ _ H)|].
    cbn [parse_unary] in H |- *.
    rewrite peek_app, check_app, next_app by discriminate.
    destruct (is_unary_op (peek (t :: ts))).
    + inv H as [e ts1] E1. rewrite (Iun _ _ _ E1); cbn [bind]; fin H.
    + destruct (check (t :: ts) TOK_CT).
      * inv H as [e ts1] E1. rewrite (Iun _ _ _ E1); cbn [bind]; fin H.
      * inv H as [p0 ts1] E1. rewrite (Ipr _ _ _ E1); cbn [bind].
        exact (Ipo _ _ _ _ H).
  - (* parse_primary *)
    intros ts v rest H.
    destruct ts as [|t ts]; [exfalso; exact (parse_primary_nil _ _ _ H)|].
    cbn [parse_primary app] in H |- *.
    destruct (tok_eqb (kind t) TOK_INT_LIT); [fin H|].
    destruct (tok_eqb (kind t) TOK_FLOAT_LIT); [fin H|].
    destruct (tok_eqb (kind t) TOK_STR_LIT); [fin H|].
    destruct (tok_eqb (kind t) TOK_NULL_KW); [fin H|].
    destruct (tok_eqb (kind t) TOK_IDENT).
    + cs. rewrite looks_app.
      destruct (check ts TOK_LBRACE && looks_like_struct_init ts); [exact (Isi _ _ _ _ H)|fin H].
    + destruct (tok_eqb (kind t) TOK_LPAREN).
      * inv H as [e ts1] E1. inv H as [u ts2] E2.
        destruct (expect_app _ (t0 :: r) _ _ _ E2 ltac:(discriminate)) as [Hne E2'].
        rewrite (Iex _ _ _ E1 Hne); cbn [bind]. rewrite E2'; cbn [bind]; fin H.
      * destruct (tok_eqb (kind t) TOK_SZ).
        -- inv H as [ty ts1] E1. rewrite (Ity _ _ _ E1); cbn [bind]; fin H.
        -- destruct (tok_eqb (kind t) TOK_NW); [|discriminate].
           inv H as [ty ts1] E1. rewrite (Ity _ _ _ E1); cbn [bind].
           cs. destruct (check ts1 TOK_LBRACE); [exact (Isi _ _ _ _ H)|fin H].
  - (* parse_postfix *)
    intros lft ts v rest H. cbn [parse_postfix] in H |- *.
    cs. cs. cs.
    destruct (check ts TOK_LPAREN) eqn:EL.
    + assert (Hts : ts <> []) by (intros ->; rewrite check_nil in EL by discriminate; discriminate).
      rewrite next_app by exact Hts.
      inv H as [args ts2] E1. inv H as [u ts3] E2.
      destruct (expect_app _ (t0 :: r) _ _ _ E2 ltac:(discriminate)) as [Hne E2'].
      destruct (next ts) as [|w ws] eqn:EN.
      * rewrite check_nil in E1 by discriminate. exfalso; exact (args_loop_nil _ _ _ E1).
      * rewrite check_app by discriminate.
        destruct (check (w :: ws) TOK_RPAREN).
        -- injection E1; intros; subst. cbn [bind]. rewrite E2'; cbn [bind]. exact (Ipo _ _ _ _ H).
        -- rewrite (Iar _ _ _ E1 Hne); cbn [bind]. rewrite E2'; cbn [bind]. exact (Ipo _ _ _ _ H).
    + destruct (check ts TOK_DOT) eqn:ED.
      * assert (Hts : ts <> []) by (intros ->; rewrite check_nil in ED by discriminate; discriminate).
        rewrite next_app by exact Hts.
        inv H as [nm ts1] E1. ex E1. exact (Ipo _ _ _ _ H).
      * destruct (check ts TOK_LBRACKET) eqn:EB; [|fin H].
        assert (Hts : ts <> []) by (intros ->; rewrite check_nil in EB by discriminate; discriminate).
        rewrite next_app by exact Hts.
        inv H as [i ts1] E1. inv H as [u ts2] E2.
        destruct (expect_app _ (t0 :: r) _ _ _ E2 ltac:(discriminate)) as [Hne E2'].
        rewrite (Iex _ _ _ E1 Hne); cbn [bind]. rewrite E2'; cbn [bind].
        exact (Ipo _ _ _ _ H).
  - (* args_loop *)
    intros ts v rest H Hr. cbn [args_loop] in H |- *.
    inv H as [a ts1] E1.
    assert (Hs : skip_nl ts <> []) by (intros Hs; rewrite Hs in E1; exact (parse_expr_nil _ _ _ E1)).
    rewrite (skip_nl_app _ _ Hs).
    assert (Hs1 : skip_nl ts1 <> []).
    { destruct (check (skip_nl ts1) TOK_COMMA) eqn:EC.
      - intros Hs1; rewrite Hs1 in EC; rewrite check_nil in EC by discriminate; discriminate.
      - injection H; intros; subst; exact Hr. }
    assert (Ht1 : ts1 <> []) by (intros ->; apply Hs1; reflexivity).
    rewrite (Iex _ _ _ E1 Ht1); cbn [bind].
    rewrite (skip_nl_app _ _ Hs1), check_app by exact Hs1.
    destruct (check (skip_nl ts1) TOK_COMMA); [|fin H].
    inv H as [rest' ts3] E3. injection H; intros; subst.
    rewrite next_app by exact Hs1. rewrite (Iar _ _ _ E3 Hr); cbn [bind]; reflexivity.
  - (* parse_struct_init_literal *)
    intros t ts v rest H. cbn [parse_struct_init_literal] in H |- *.
    inv H as [u ts1] E1. ex E1.
    inv H as [fs ts2] E2.
    assert (Hs : skip_nl ts1 <> []) by (intros Hs; rewrite Hs in E2; exact (fields_loop_nil _ _ _ E2)).
    rewrite (skip_nl_app _ _ Hs). rewrite (Ifl _ _ _ E2); cbn [bind]; fin H.
  - (* fields_loop *)
    intros ts v rest H.
    destruct ts as [|t ts]; [exfalso; exact (fields_loop_nil _ _ _ H)|].
    rewrite fields_loop_S in H |- *.
    rewrite !check_app by discriminate.
    destruct (check (t :: ts) TOK_RBRACE || check (t :: ts) TOK_EOF).
    + inv H as [u ts1] E1. ex E1. fin H.
    + inv H as [fname ts1] E1. ex E1. inv H as [u ts2] E2. ex E2.
      inv H as [v0 ts3] E3. inv H as [fs ts5] E5.
      assert (Hf : field_sep ts3 <> []) by (intros Hf; rewrite Hf in E5; exact (fields_loop_nil _ _ _ E5)).
      assert (H3 : ts3 <> []) by (intros ->; apply Hf; reflexivity).
      rewrite (Iex _ _ _ E3 H3); cbn [bind].
      rewrite (field_sep_app _ _ H3 Hf). rewrite (Ifl _ _ _ E5); cbn [bind]; fin H.
Qed.

End Extend.

Lemma binop_mono (n m : nat) (p : Z) (ts : list token) v :
  (n <= m)%nat -> parse_binop n p ts = Ok v -> parse_binop m p ts = Ok v.
Proof.
  intros Hle H; rewrite (proj1 (proj2 (proj2 (proj2 (proj2 (proj2 (parse_fuel_mono n))))))
    m p ts Hle) by congruence; exact H.
Qed.

Lemma args_mono (n m : nat) (ts : list token) v :
  (n <= m)%nat -> args_loop n ts = Ok v -> args_loop m ts = Ok v.
Proof.
  intros Hle H.
  destruct (parse_fuel_mono n) as (_&_&_&_&_&_&_&_&_&_&_&_&Ha&_).
  rewrite (Ha m ts Hle) by congruence; exact H.
Qed.

(** A binary-level expression followed by a stop token. *)
Lemma binop_stop (n m : nat) (x : list token) (ex : node) (t0 : token) (r : list token) :
  stop_tok (kind t0) = true -> (n <= m)%nat -> parse_binop n 1 x = Ok (ex, []) ->
  parse_binop m 1 (x ++ t0 :: r) = Ok (ex, t0 :: r).
Proof.
  intros Hk Hle H.
  destruct (parse_extend t0 r Hk m) as (_&_&_&_&_&Hb&_).
  exact (Hb 1 x ex [] ltac:(lia) (binop_mono n m 1 x _ Hle H)).
Qed.

Lemma parse_unary_head (n : nat) (t : token) (ts : list token) v rest :
  parse_unary n (t :: ts) = Ok (v, rest) ->
  kind t <> TOK_RPAREN /\ kind t <> TOK_NEWLINE /\ kind t <> TOK_SEMI.
Proof.
  intros H; split; [|split]; intros E;
    destruct n as [|[|n]]; try discriminate; cbn in H; unfold check in H; cbn in H;
    rewrite E in H; cbn in H;
    repeat match type of H with context [if ?b then _ else _] => destruct b end;
    discriminate.
Qed.

Lemma parse_binop_head (n : nat) (p : Z) (ts : list token) v rest :
  parse_binop n p ts = Ok (v, rest) ->
  exists t ts', ts = t :: ts' /\
    kind t <> TOK_RPAREN /\ kind t <> TOK_NEWLINE /\ kind t <> TOK_SEMI.
Proof.
  intros H; destruct ts as [|t ts']; [exfalso; exact (parse_binop_nil _ _ _ _ H)|].
  exists t, ts'; split; [reflexivity|].
  destruct n as [|[|n]]; try discriminate.
  cbn [parse_binop parse_cast] in H.
  destruct (parse_unary n (t :: ts')) as [[u w]| |] eqn:E; try discriminate.
  exact (parse_unary_head _ _ _ _ _ E).
Qed.

Lemma skip_nl_head (t : token) (ts : list token) :
  kind t <> TOK_NEWLINE -> kind t <> TOK_SEMI -> skip_nl (t :: ts) = t :: ts.
Proof.
  intros H1 H2; cbn.
  rewrite (tok_eqb_ne _ _ H1), (tok_eqb_ne _ _ H2); reflexivity.
Qed.

Lemma args_loop_head (n : nat) (ts : list token) v rest :
  args_loop n ts = Ok (v, rest) -> check ts TOK_RPAREN = false.
Proof.
  intros H; destruct ts as [|t ts']; [reflexivity|].
  unfold check; cbn [peek].
  destruct (tok_eqb (kind t) TOK_RPAREN) eqn:E; [|reflexivity].
  apply tok_eqb_spec in E.
  destruct n as [|[|n]]; try discriminate.
  cbn [args_loop parse_expr] in H.
  rewrite skip_nl_head in H by congruence.
  destruct (parse_binop n 1 (t :: ts')) as [[u w]| |] eqn:Eb; try discriminate.
  destruct (parse_binop_head _ _ _ _ _ Eb) as (t' & ts'' & Ht & H1 & _).
  injection Ht as <- <-; congruence.
Qed.

(** [parse_expr] returns a binary-level expression that is not followed by
    [?] or [|>]. *)
Lemma expr_of_binop (n : nat) (ts : list token) (e : node) (ts1 : list token) :
  parse_binop n 1 ts = Ok (e, ts1) ->
  check ts1 TOK_QUESTION = false -> check ts1 TOK_PIPE_OP = false ->
  parse_expr (S n) ts = Ok (e, ts1).
Proof.
  intros H HQ HP; destruct n as [|n]; [discriminate|].
  cbn [parse_expr]; rewrite H; cbn [bind]; rewrite HQ; cbn [bind pipe_loop].
  rewrite HP; reflexivity.
Qed.

Lemma call_parse (m n : nat) (f : string) (ts : list token) (args : list node) :
  (m + 6 <= n)%nat -> args_loop m ts = Ok (args, [tk TOK_RPAREN]) ->
  parse_binop n 1 (tk_ident f :: tk TOK_LPAREN :: ts) = Ok (NCall (NIdent f) args, []).
Proof.
  intros Hn H.
  pose proof (args_loop_head _ _ _ _ H) as HR.
  do 4 (destruct n as [|n]; [lia|]).
  simpl. rewrite HR. rewrite (args_mono m n ts _ ltac:(lia) H).
  destruct n as [|n]; [lia|]. reflexivity.
Qed.

Lemma ident_parse (n : nat) (f : string) :
  (4 <= n)%nat -> parse_binop n 1 [tk_ident f] = Ok (NIdent f, []).
Proof.
  intros Hn; do 4 (destruct n as [|n]; [lia|]); reflexivity.
Qed.

Lemma empty_call_parse (n : nat) (f : string) :
  (5 <= n)%nat ->
  parse_binop n 1 [tk_ident f; tk TOK_LPAREN; tk TOK_RPAREN] = Ok (NCall (NIdent f) [], []).
Proof.
  intros Hn; do 5 (destruct n as [|n]; [lia|]); reflexivity.
Qed.

Lemma pipe_mono (n m : nat) (e : node) (ts : list token) v :
  (n <= m)%nat -> pipe_loop n e ts = Ok v -> pipe_loop m e ts = Ok v.
Proof.
  intros Hle H.
  destruct (parse_fuel_mono n) as (_&_&_&_&Hp&_).
  rewrite (Hp m e ts Hle) by congruence; exact H.
Qed.

Lemma expr_mono (n m : nat) (ts : list token) v :
  (n <= m)%nat -> parse_expr n ts = Ok v -> parse_expr m ts = Ok v.
Proof.
  intros Hle H.
  destruct (parse_fuel_mono n) as (_&_&_&He&_).
  rewrite (He m ts Hle) by congruence; exact H.
Qed.

(** [x] reads as [ex] at the level of [parse_expr] without a top-level
    ternary: a binary-level expression, possibly followed by pipes. *)
Definition pipe_operand (F1 : nat) (x : list token) (ex : node) : Prop :=
  exists e0 r, parse_binop F1 1 x = Ok (e0, r) /\ check r TOK_QUESTION = false /\
               pipe_loop F1 e0 r = Ok (ex, []).

(** What the pipe loop makes of [e |> rhs]. *)
Definition pipe_app (rhs e : node) : option node :=
  match rhs with
  | NCall c args => Some (NCall c (e :: args))
  | NIdent _ => Some (NCall rhs [e])
  | _ => None
  end.

Lemma pipe_none (k : nat) (e : node) (ts : list token) :
  (1 <= k)%nat -> check ts TOK_PIPE_OP = false -> pipe_loop k e ts = Ok (e, ts).
Proof. intros Hk Hc; destruct k as [|k]; [lia|]; cbn [pipe_loop]; rewrite Hc; reflexivity. Qed.

Lemma pipe_one (m k : nat) (ex rhs out : node) (rr : list token) :
  (m + 2 <= k)%nat -> parse_binop m 1 rr = Ok (rhs, []) -> pipe_app rhs ex = Some out ->
  pipe_loop k ex (tk TOK_PIPE_OP :: rr) = Ok (out, []).
Proof.
  intros Hk Hr Ho.
  destruct k as [|k]; [lia|]. cbn [pipe_loop].
  replace (check (tk TOK_PIPE_OP :: rr) TOK_PIPE_OP) with true by reflexivity.
  cbn [next tl]. rewrite (binop_mono m k 1 rr _ ltac:(lia) Hr). cbn [bind].
  destruct k as [|k]; [lia|].
  destruct rhs; try discriminate; cbn in Ho; injection Ho as <-; reflexivity.
Qed.

(** The pipes after an operand run on as before when a stop token and
    more tokens follow them. *)
Lemma pipe_loop_app (t0 : token) (s : list token) :
  stop_tok (kind t0) = true ->
  forall n e r ex, pipe_loop n e r = Ok (ex, []) ->
  forall k v, pipe_loop k ex (t0 :: s) = Ok v -> pipe_loop (n + k) e (r ++ t0 :: s) = Ok v.
Proof.
  intros Hk; induction n as [|n IH]; intros e r ex H k v Hv; [discriminate|].
  change (S n + k)%nat with (S (n + k)).
  cbn [pipe_loop] in H |- *.
  destruct (check r TOK_PIPE_OP) eqn:Ep.
  - destruct r as [|p r']; [discriminate|].
    replace (check ((p :: r') ++ t0 :: s) TOK_PIPE_OP) with true by (symmetry; exact Ep).
    cbn [next tl app] in H |- *.
    destruct (parse_binop n 1 r') as [[rhs r1]| |] eqn:Eb; try discriminate.
    cbn [bind] in H.
    destruct (parse_extend t0 s Hk (n + k)) as (_&_&_&_&_&Hb&_).
    rewrite (Hb 1 r' rhs r1 ltac:(lia) (binop_mono n (n + k) 1 r' _ ltac:(lia) Eb)).
    cbn [bind].
    destruct rhs; try discriminate; apply (IH _ _ _ H k v Hv).
  - injection H as -> ->. change (pipe_loop (S (n + k)) ex (t0 :: s) = Ok v).
    apply (pipe_mono k); [lia|exact Hv].
Qed.

(** An operand followed by a stop token other than [?]: [parse_expr]
    reads the operand, then runs the pipe loop from the stop token on. *)
Lemma expr_x_stop (F1 k N : nat) (x : list token) (ex : node) (t0 : token) (s : list token) v :
  stop_tok (kind t0) = true -> kind t0 <> TOK_QUESTION ->
  pipe_operand F1 x ex -> pipe_loop k ex (t0 :: s) = Ok v -> (F1 + k + 1 <= N)%nat ->
  parse_expr N (x ++ t0 :: s) = Ok v.
Proof.
  intros Hk Hq (e0 & r & Hb & Hr & Hp) Hv HN.
  destruct N as [|n]; [lia|]. cbn [parse_expr].
  destruct (parse_extend t0 s Hk n) as (_&_&_&_&_&Hb'&_).
  rewrite (Hb' 1 x e0 r ltac:(lia) (binop_mono F1 n 1 x _ ltac:(lia) Hb)). cbn [bind].
  replace (check (r ++ t0 :: s) TOK_QUESTION) with false.
  2:{ destruct r as [|p r']; [|exact (eq_sym Hr)].
      unfold check; cbn [app peek]; symmetry; apply tok_eqb_ne; exact Hq. }
  cbn [bind].
  apply (pipe_mono (F1 + k)); [lia|].
  exact (pipe_loop_app t0 s Hk F1 e0 r ex Hp k v Hv).
Qed.

Lemma operand_head (F1 : nat) (x : list token) (ex : node) :
  pipe_operand F1 x ex ->
  exists t x', x = t :: x' /\ kind t <> TOK_RPAREN /\ kind t <> TOK_NEWLINE /\ kind t <> TOK_SEMI.
Proof. intros (e0 & r & Hb & _); exact (parse_binop_head _ _ _ _ _ Hb). Qed.

Lemma args_cons_op (F1 m N : nat) (x rest : list token) (ex : node) (args : list node) :
  (F1 + m + 4 <= N)%nat -> pipe_operand F1 x ex ->
  args_loop m rest = Ok (args, [tk TOK_RPAREN]) ->
  args_loop N (x ++ tk TOK_COMMA :: rest) = Ok (ex :: args, [tk TOK_RPAREN]).
Proof.
  intros Hn Hx Ha.
  destruct (operand_head _ _ _ Hx) as (t & x' & Ex & _ & H2 & H3).
  destruct N as [|N]; [lia|].
  cbn [args_loop].
  replace (skip_nl (x ++ tk TOK_COMMA :: rest)) with (x ++ tk TOK_COMMA :: rest)
    by (rewrite Ex; cbn [app]; symmetry; apply skip_nl_head; assumption).
  rewrite (expr_x_stop F1 1 N x ex (tk TOK_COMMA) rest (ex, tk TOK_COMMA :: rest) eq_refl
             ltac:(discriminate) Hx (pipe_none 1 ex (tk TOK_COMMA :: rest) ltac:(lia) eq_refl) ltac:(lia)).
  cbn [bind]. destruct N as [|N]; [lia|]. cbn -[args_loop].
  rewrite (args_mono m (S N) rest _ ltac:(lia) Ha). reflexivity.
Qed.

Lemma args_single_op (F1 N : nat) (x : list token) (ex : node) :
  (F1 + 3 <= N)%nat -> pipe_operand F1 x ex ->
  args_loop N (x ++ [tk TOK_RPAREN]) = Ok ([ex], [tk TOK_RPAREN]).
Proof.
  intros Hn Hx.
  destruct (operand_head _ _ _ Hx) as (t & x' & Ex & _ & H2 & H3).
  destruct N as [|N]; [lia|].
  cbn [args_loop].
  replace (skip_nl (x ++ [tk TOK_RPAREN])) with (x ++ [tk TOK_RPAREN])
    by (rewrite Ex; cbn [app]; symmetry; apply skip_nl_head; assumption).
  rewrite (expr_x_stop F1 1 N x ex (tk TOK_RPAREN) [] (ex, [tk TOK_RPAREN]) eq_refl
             ltac:(discriminate) Hx (pipe_none 1 ex [tk TOK_RPAREN] ltac:(lia) eq_refl) ltac:(lia)).
  reflexivity.
Qed.

(** [c ? t : w]: the condition is a binary-level expression, the then
    branch is read up to the [:], the else branch is a whole [parse_expr]. *)
Lemma tern_parse (Fc Ft Fe N : nat) (c t w rest : list token) (ec et v : node) :
  (Fc + Ft + Fe + 2 <= N)%nat ->
  parse_binop Fc 1 c = Ok (ec, []) ->
  (forall u, parse_expr Ft (t ++ tk TOK_COLON :: u) = Ok (et, tk TOK_COLON :: u)) ->
  parse_expr Fe w = Ok (v, rest) -> check rest TOK_PIPE_OP = false ->
  parse_expr N (c ++ tk TOK_QUESTION :: t ++ tk TOK_COLON :: w) = Ok (NTernary ec et v, rest).
Proof.
  intros HN Hc Ht Hw Hp.
  destruct N as [|n]; [lia|]. cbn [parse_expr].
  rewrite (binop_stop Fc n c ec (tk TOK_QUESTION) (t ++ tk TOK_COLON :: w) eq_refl ltac:(lia) Hc).
  cbn [bind].
  replace (check (tk TOK_QUESTION :: t ++ tk TOK_COLON :: w) TOK_QUESTION) with true by reflexivity.
  cbn [next tl].
  rewrite (expr_mono Ft n _ _ ltac:(lia) (Ht w)). cbn [bind expect kind tk].
  replace (tok_eqb TOK_COLON TOK_COLON) with true by reflexivity. cbn [bind].
  rewrite (expr_mono Fe n _ _ ltac:(lia) Hw). cbn [bind].
  apply pipe_none; [lia|exact Hp].
Qed.

(** C4: let [x] be an operand that [parse_expr] reads as [ex] with no
  unparenthesised top-level ternary: a binary-level expression, possibly
  followed by pipes of its own ([pipe_operand]). Then [x |> f(as)] and
  [f(x, as)] parse to the same call [f(x, as)] for every non-empty argument
  list [as], and [x |> f], [x |> f()] and [f(x)] all parse to [f(x)]. When
  the pipe follows a ternary, [c ? t : x |> r] parses as [c ? t : (x |> r)]
  while [f(c ? t : x)] calls [f] on the whole ternary. *)
Theorem pipe_rewrite (x : list token) (f : string) (ex : node) (F1 : nat) :
  pipe_operand F1 x ex ->
  parse_expr (S F1) x = Ok (ex, []) /\
  (forall (as_ : list token) (args : list node) (F2 F : nat),
     args_loop F2 (as_ ++ [tk TOK_RPAREN]) = Ok (args, [tk TOK_RPAREN]) ->
     (F1 + F2 + 11 <= F)%nat ->
     parse_expr F (x ++ tk TOK_PIPE_OP :: tk_ident f :: tk TOK_LPAREN :: as_ ++ [tk TOK_RPAREN])
       = Ok (NCall (NIdent f) (ex :: args), []) /\
     parse_expr F (tk_ident f :: tk TOK_LPAREN :: x ++ tk TOK_COMMA :: as_ ++ [tk TOK_RPAREN])
       = Ok (NCall (NIdent f) (ex :: args), [])) /\
  (forall F : nat, (F1 + 10 <= F)%nat ->
     parse_expr F (x ++ [tk TOK_PIPE_OP; tk_ident f]) = Ok (NCall (NIdent f) [ex], []) /\
     parse_expr F (x ++ [tk TOK_PIPE_OP; tk_ident f; tk TOK_LPAREN; tk TOK_RPAREN])
       = Ok (NCall (NIdent f) [ex], []) /\
     parse_expr F (tk_ident f :: tk TOK_LPAREN :: x ++ [tk TOK_RPAREN])
       = Ok (NCall (NIdent f) [ex], [])) /\
  (forall (c t rr : list token) (ec et rhs out : node) (Fc Ft m F : nat),
     parse_binop Fc 1 c = Ok (ec, []) ->
     (forall u, parse_expr Ft (t ++ tk TOK_COLON :: u) = Ok (et, tk TOK_COLON :: u)) ->
     parse_binop m 1 rr = Ok (rhs, []) -> pipe_app rhs ex = Some out ->
     (Fc + Ft + F1 + m + 13 <= F)%nat ->
     parse_expr F (c ++ tk TOK_QUESTION :: t ++ tk TOK_COLON :: x ++ tk TOK_PIPE_OP :: rr)
       = Ok (NTernary ec et out, []) /\
     parse_expr F (tk_ident f :: tk TOK_LPAREN ::
                   c ++ tk TOK_QUESTION :: t ++ tk TOK_COLON :: x ++ [tk TOK_RPAREN])
       = Ok (NCall (NIdent f) [NTernary ec et ex], [])).
Proof.
  intros Hx; split; [|split; [|split]].
  - destruct Hx as (e0 & r & Hb & Hq & Hp).
    cbn [parse_expr]; rewrite Hb; cbn [bind]; rewrite Hq; cbn [bind]; exact Hp.
  - intros as_ args F2 F Ha HF; split.
    + apply (expr_x_stop F1 (F2 + 8) F x ex (tk TOK_PIPE_OP) _ _ eq_refl ltac:(discriminate) Hx);
        [|lia].
      apply (pipe_one (F2 + 6) (F2 + 8) ex (NCall (NIdent f) args)); [lia| |reflexivity].
      exact (call_parse F2 (F2 + 6) f _ args ltac:(lia) Ha).
    + destruct F as [|F]; [lia|].
      apply expr_of_binop; [|reflexivity|reflexivity].
      apply (call_parse (F1 + F2 + 4)); [lia|].
      exact (args_cons_op F1 F2 (F1 + F2 + 4) x _ ex args ltac:(lia) Hx Ha).
  - intros F HF; split; [|split].
    + apply (expr_x_stop F1 6 F x ex (tk TOK_PIPE_OP) _ _ eq_refl ltac:(discriminate) Hx); [|lia].
      apply (pipe_one 4 6 ex (NIdent f)); [lia| |reflexivity]. exact (ident_parse 4 f ltac:(lia)).
    + apply (expr_x_stop F1 7 F x ex (tk TOK_PIPE_OP) _ _ eq_refl ltac:(discriminate) Hx); [|lia].
      apply (pipe_one 5 7 ex (NCall (NIdent f) [])); [lia| |reflexivity]. exact (empty_call_parse 5 f ltac:(lia)).
    + destruct F as [|F]; [lia|].
      apply expr_of_binop; [|reflexivity|reflexivity].
      apply (call_parse (F1 + 3)); [lia|].
      exact (args_single_op F1 (F1 + 3) x ex ltac:(lia) Hx).
  - intros c t rr ec et rhs out Fc Ft m F Hc Ht Hr Ho HF; split.
    + apply (tern_parse Fc Ft (F1 + m + 3) F c t _ [] ec et out ltac:(lia) Hc Ht); [|reflexivity].
      apply (expr_x_stop F1 (m + 2) _ x ex (tk TOK_PIPE_OP) rr _ eq_refl ltac:(discriminate) Hx);
        [|lia].
      exact (pipe_one m (m + 2) ex rhs out rr ltac:(lia) Hr Ho).
    + destruct F as [|F]; [lia|].
      apply expr_of_binop; [|reflexivity|reflexivity].
      apply (call_parse (Fc + Ft + F1 + 6)); [lia|].
      destruct (parse_binop_head _ _ _ _ _ Hc) as (t1 & c' & Ec & _ & H2 & H3).
      set (N := (Fc + Ft + F1 + 6)%nat). destruct N as [|N'] eqn:EN; [lia|].
      cbn [args_loop].
      replace (skip_nl (c ++ tk TOK_QUESTION :: t ++ tk TOK_COLON :: x ++ [tk TOK_RPAREN]))
        with (c ++ tk TOK_QUESTION :: t ++ tk TOK_COLON :: x ++ [tk TOK_RPAREN])
        by (rewrite Ec; cbn [app]; symmetry; apply skip_nl_head; assumption).
      rewrite (tern_parse Fc Ft (F1 + 2) N' c t _ [tk TOK_RPAREN] ec et ex ltac:(lia) Hc Ht
                 (expr_x_stop F1 1 (F1 + 2) x ex (tk TOK_RPAREN) [] _ eq_refl ltac:(discriminate) Hx
                    (pipe_none 1 ex [tk TOK_RPAREN] ltac:(lia) eq_refl) ltac:(lia)) eq_refl).
      reflexivity.
Qed.

Definition ex_x : list token := [tk_ident "a"; tk TOK_PIPE_OP; tk_ident "g"].

Lemma pipe_rewrite_witness :
  pipe_operand 6 ex_x (NCall (NIdent "g") [NIdent "a"]) /\
  parse_expr 7 ex_x = Ok (NCall (NIdent "g") [NIdent "a"], []) /\
  parse_expr 25 (ex_x ++ [tk TOK_PIPE_OP; tk_ident "f"; tk TOK_LPAREN; tk_ident "b"; tk TOK_RPAREN])
    = Ok (NCall (NIdent "f") [NCall (NIdent "g") [NIdent "a"]; NIdent "b"], []) /\
  parse_expr 25 (tk_ident "f" :: tk TOK_LPAREN :: ex_x ++ [tk TOK_COMMA; tk_ident "b"; tk TOK_RPAREN])
    = Ok (NCall (NIdent "f") [NCall (NIdent "g") [NIdent "a"]; NIdent "b"], []) /\
  parse_expr 16 (ex_x ++ [tk TOK_PIPE_OP; tk_ident "f"])
    = Ok (NCall (NIdent "f") [NCall (NIdent "g") [NIdent "a"]], []) /\
  parse_expr 40 ([tk_ident "c"; tk TOK_QUESTION; tk_ident "t"; tk TOK_COLON] ++ ex_x ++
                 [tk TOK_PIPE_OP; tk_ident "f"])
    = Ok (NTernary (NIdent "c") (NIdent "t") (NCall (NIdent "f") [NCall (NIdent "g") [NIdent "a"]]), []) /\
  parse_expr 40 (tk_ident "f" :: tk TOK_LPAREN ::
                 [tk_ident "c"; tk TOK_QUESTION; tk_ident "t"; tk TOK_COLON] ++ ex_x ++ [tk TOK_RPAREN])
    = Ok (NCall (NIdent "f") [NTernary (NIdent "c") (NIdent "t") (NCall (NIdent "g") [NIdent "a"])], []).
Proof.
  assert (Hx : pipe_operand 6 ex_x (NCall (NIdent "g") [NIdent "a"]))
    by (exists (NIdent "a"), [tk TOK_PIPE_OP; tk_ident "g"]; vm_compute; repeat split).
  destruct (pipe_rewrite ex_x "f" _ 6 Hx) as (H0 & H1 & H2 & H3).
  assert (Ha : args_loop 8 ([tk_ident "b"] ++ [tk TOK_RPAREN]) = Ok ([NIdent "b"], [tk TOK_RPAREN]))
    by reflexivity.
  assert (Hc : parse_binop 4 1 [tk_ident "c"] = Ok (NIdent "c", [])) by reflexivity.
  assert (Ht : forall u, parse_expr 6 ([tk_ident "t"] ++ tk TOK_COLON :: u) = Ok (NIdent "t", tk TOK_COLON :: u))
    by (intros u; reflexivity).
  assert (Hr : parse_binop 4 1 [tk_ident "f"] = Ok (NIdent "f", [])) by reflexivity.
  destruct (H1 [tk_ident "b"] [NIdent "b"] 8%nat 25%nat Ha ltac:(lia)) as (Hp & Hq).
  destruct (H3 [tk_ident "c"] [tk_ident "t"] [tk_ident "f"] _ _ _ _ 4%nat 6%nat 4%nat 40%nat Hc Ht Hr eq_refl ltac:(lia))
    as (Ht1 & Ht2).
  split; [exact Hx|]. split; [exact H0|]. split; [exact Hp|]. split; [exact Hq|].
  split; [exact (proj1 (H2 16%nat ltac:(lia)))|]. split; [exact Ht1|exact Ht2].
Defined.

Definition ex_tern : list token :=
  [tk_ident "c"; tk TOK_QUESTION; tk_ident "t"; tk TOK_COLON; tk_ident "e"].

(** With a trailing ternary, [c ? t : e |> f] is [c ? t : f(e)], not [f(c ? t : e)]. *)
Lemma pipe_after_ternary :
  parse_expr 20 (ex_tern ++ [tk TOK_PIPE_OP; tk_ident "f"])
    = Ok (NTernary (NIdent "c") (NIdent "t") (NCall (NIdent "f") [NIdent "e"]), []) /\
  parse_expr 20 (tk_ident "f" :: tk TOK_LPAREN :: ex_tern ++ [tk TOK_RPAREN])
    = Ok (NCall (NIdent "f") [NTernary (NIdent "c") (NIdent "t") (NIdent "e")], []).
Proof. split; vm_compute; reflexivity. Qed.

End PipeFacts.


Module PipeChain.
Import Parse PipeFacts.

(** The tokens [|> f1 |> f2 ... |> fk]. *)
Fixpoint pipes (fs : list string) : list token :=
  match fs with
  | [] => []
  | f :: fs' => tk TOK_PIPE_OP :: tk_ident f :: pipes fs'
  end.

(** [fk(... f1(e) ...)]. *)
Definition apply_all (e : node) (fs : list string) : node :=
  fold_left (fun e f => NCall (NIdent f) [e]) fs e.

Lemma ident_then (n : nat) (f : string) (fs : list string) :
  (4 <= n)%nat -> parse_binop n 1 (tk_ident f :: pipes fs) = Ok (NIdent f, pipes fs).
Proof.
  intros Hn; destruct fs as [|g fs]; [exact (ident_parse n f Hn)|].
  exact (binop_stop 4 n [tk_ident f] (NIdent f) (tk TOK_PIPE_OP) (tk_ident g :: pipes fs)
           eq_refl Hn (ident_parse 4 f ltac:(lia))).
Qed.

Lemma pipe_loop_chain (fs : list string) :
  forall n e, (5 * List.length fs + 1 <= n)%nat ->
  pipe_loop n e (pipes fs) = Ok (apply_all e fs, []).
Proof.
  induction fs as [|f fs IH]; intros n e Hn.
  - destruct n as [|n]; [lia|]; reflexivity.
  - cbn [List.length] in Hn. destruct n as [|n]; [lia|].
    cbn [pipes pipe_loop]. unfold check; cbn [peek kind tk]. rewrite (proj2 (tok_eqb_spec TOK_PIPE_OP TOK_PIPE_OP) eq_refl).
    cbn [next tl]. rewrite (ident_then n f fs) by lia. cbn [bind].
    apply IH; lia.
Qed.

(** A chain of pipes into bare function names applies them left to right:
    [x |> f1 |> ... |> fk] parses as [fk(... f1(x) ...)]. *)
Theorem pipe_chain (x : list token) (ex : node) (F1 F : nat) (fs : list string) :
  parse_binop F1 1 x = Ok (ex, []) ->
  (F1 + 5 * List.length fs + 2 <= F)%nat ->
  parse_expr F (x ++ pipes fs) = Ok (apply_all ex fs, []).
Proof.
  intros Hx HF. destruct F as [|F]; [lia|].
  destruct fs as [|f fs].
  - rewrite app_nil_r. apply expr_of_binop; [|reflexivity|reflexivity].
    apply (binop_mono F1); [lia|exact Hx].
  - cbn [pipes parse_expr].
    rewrite (binop_stop F1 F x ex (tk TOK_PIPE_OP) (tk_ident f :: pipes fs) eq_refl ltac:(lia) Hx).
    cbn [bind]. unfold check at 1; cbn [peek kind tk tok_eqb].
    replace (tok_eqb TOK_PIPE_OP TOK_QUESTION) with false by reflexivity.
    exact (pipe_loop_chain (f :: fs) F ex ltac:(cbn [List.length] in *; lia)).
Qed.

Lemma pipe_chain_witness :
  parse_binop 10 1 [tk_ident "a"; tk TOK_STAR; tk_int 2] = Ok (NBinary TOK_STAR (NIdent "a") (NIntLit 2), []) /\
  parse_expr 30 ([tk_ident "a"; tk TOK_STAR; tk_int 2] ++ pipes ["f"; "g"]%string)
    = Ok (NCall (NIdent "g") [NCall (NIdent "f") [NBinary TOK_STAR (NIdent "a") (NIntLit 2)]], []).
Proof.
  split; [vm_compute; reflexivity|].
  apply (pipe_chain _ _ 10 30 ["f"; "g"]%string); [vm_compute; reflexivity|cbn; lia].
Defined.

End PipeChain.


Module ParseCorollaries.
Import Parse TopLevel ParamFacts PipeFacts.

(** A type written without function pointers parses back to itself, with
    the tokens after it left untouched. *)
Theorem type_roundtrip (t : ty) (fuel : nat) (r : list token) :
  simple_ty t = true -> (List.length (type_tokens t) <= fuel)%nat ->
  parse_type fuel (type_tokens t ++ r) = Ok (t, r).
Proof. intros Hs Hl; exact (parse_type_simple t Hs fuel r Hl). Qed.

Lemma type_roundtrip_witness :
  simple_ty (TPtr (TArray 4 (TBasic TY_U8))) = true /\
  (List.length (type_tokens (TPtr (TArray 4 (TBasic TY_U8)))) <= 10)%nat /\
  parse_type 10 (type_tokens (TPtr (TArray 4 (TBasic TY_U8))) ++ [tk TOK_RPAREN])
    = Ok (TPtr (TArray 4 (TBasic TY_U8)), [tk TOK_RPAREN]).
Proof.
  split; [reflexivity|split; [cbn; lia|]].
  apply type_roundtrip; [reflexivity|cbn; lia].
Defined.

(** A parameter as written: a bare name, or [name: type] with the tokens
    of the type and the type they stand for. *)
Definition pentry : Type := (string * option (list token * ty))%type.

Definition entry_tokens (e : pentry) : list token :=
  tk_ident (fst e) :: match snd e with
                      | None => []
                      | Some (toks, _) => tk TOK_COLON :: toks
                      end.

(** A parameter list, the parameters separated by commas. *)
Fixpoint render_entries (es : list pentry) : list token :=
  match es with
  | [] => []
  | [e] => entry_tokens e
  | e :: es' => entry_tokens e ++ tk TOK_COMMA :: render_entries es'
  end.

(** The tokens of a typed entry are read whole as its type. *)
Definition entry_ok (F : nat) (e : pentry) : Prop :=
  match snd e with
  | None => True
  | Some (toks, t) => parse_type F toks = Ok (t, [])
  end.

(** The parameter [params_loop] builds from an entry, and the next index
    of an anonymous parameter. *)
Definition entry_param (a : bool) (idx : nat) (e : pentry) : param * nat :=
  match snd e with
  | Some (_, t) => ((fst e, t), idx)
  | None => if a then ((anon_name idx, TStruct (fst e)), S idx)
            else ((fst e, TBasic TY_I32), idx)
  end.

Fixpoint entry_params (a : bool) (idx : nat) (es : list pentry) : list param :=
  match es with
  | [] => []
  | e :: es' => let '(pm, idx') := entry_param a idx e in pm :: entry_params a idx' es'
  end.

Lemma type_extend_stop (F n : nat) (toks : list token) (t : ty) (t0 : token) (r : list token) :
  stop_tok (kind t0) = true -> (F <= n)%nat -> parse_type F toks = Ok (t, []) ->
  parse_type n (toks ++ t0 :: r) = Ok (t, t0 :: r).
Proof.
  intros Hk Hle H.
  pose proof (proj1 (parse_extend t0 r Hk F) toks t [] H) as E; cbn [app] in E.
  rewrite (proj1 (parse_fuel_mono F) n _ Hle) by congruence; exact E.
Qed.

Lemma params_loop_entry (a : bool) (F n idx : nat) (e : pentry) (t0 : token) (r : list token) :
  entry_ok F e -> (F <= n)%nat -> stop_tok (kind t0) = true ->
  params_loop (S n) a idx (entry_tokens e ++ t0 :: r)
  = let '(pm, idx') := entry_param a idx e in
    if check (t0 :: r) TOK_COMMA then
      '(ps, va, ts3) <- params_loop n a idx' r ;; Ok (pm :: ps, va, ts3)
    else Ok ([pm], false, t0 :: r).
Proof.
  intros He Hle Hk.
  assert (Hc : check (t0 :: r) TOK_COLON = false)
    by (apply (proj2 (stop_facts t0 r Hk)); cbn; tauto).
  destruct e as [nm [[toks t]|]]; unfold entry_tokens, entry_param, entry_ok in *; cbn [fst snd] in *.
  - cbn [app params_loop]. rewrite andb_false_r. cbn [check peek kind tk_ident tok_eqb].
    cbn.
    rewrite (type_extend_stop F n toks t t0 r Hk Hle He). cbn.
    reflexivity.
  - cbn [app params_loop]. rewrite andb_false_r. cbn -[anon_name].
    rewrite Hc. destruct a; reflexivity.
Qed.

Lemma render_entries_head (e : pentry) (es : list pentry) (s : list token) :
  exists l, render_entries (e :: es) ++ s = tk_ident (fst e) :: l.
Proof. destruct es; eexists; reflexivity. Qed.

Lemma params_loop_entries (a : bool) (F : nat) (es : list pentry) :
  es <> [] -> Forall (entry_ok F) es ->
  forall m idx rest, (F + List.length es <= m)%nat -> check rest TOK_RPAREN = true ->
  params_loop m a idx (render_entries es ++ rest) = Ok (entry_params a idx es, false, rest).
Proof.
  induction es as [|e es IH]; intros Hne Hok m idx rest Hm Hr; [congruence|].
  inversion Hok as [|e' es' He Hok']; subst.
  destruct rest as [|t0 r]; [discriminate|].
  assert (Hk : kind t0 = TOK_RPAREN) by (apply tok_eqb_spec, Hr).
  assert (Hs : forall K, stop_tok K = true -> K = TOK_RPAREN \/ K = TOK_COMMA -> stop_tok K = true) by auto.
  destruct m as [|n]; [cbn [List.length] in Hm; lia|].
  destruct es as [|e2 es2].
  - change (render_entries [e]) with (entry_tokens e).
    rewrite (params_loop_entry a F n idx e t0 r He ltac:(cbn [List.length] in Hm; lia)
               ltac:(rewrite Hk; reflexivity)).
    cbn [entry_params]; destruct (entry_param a idx e) as [pm idx'].
    replace (check (t0 :: r) TOK_COMMA) with false
      by (unfold check; cbn [peek]; rewrite Hk; reflexivity).
    reflexivity.
  - change (render_entries (e :: e2 :: es2))
      with (entry_tokens e ++ tk TOK_COMMA :: render_entries (e2 :: es2)).
    rewrite <- app_assoc, <- app_comm_cons.
    rewrite (params_loop_entry a F n idx e (tk TOK_COMMA) (render_entries (e2 :: es2) ++ t0 :: r)
               He ltac:(cbn [List.length] in Hm; lia) eq_refl).
    cbn [entry_params]; destruct (entry_param a idx e) as [pm idx'].
    replace (check (tk TOK_COMMA :: render_entries (e2 :: es2) ++ t0 :: r) TOK_COMMA) with true
      by reflexivity.
    rewrite (IH ltac:(discriminate) Hok' n idx' (t0 :: r) ltac:(cbn [List.length] in Hm |- *; lia) Hr).
    reflexivity.
Qed.

(** A comma-separated parameter list of bare names and [name: type]
    entries, any type the type parser reads whole, function pointers
    included, followed by [)], parses to its parameters in order, with no
    varargs: a typed entry keeps its name and type; a bare name is an
    [i32] parameter of that name when anonymous parameters are not
    allowed (a function declaration), and an anonymous parameter [_pN]
    of the struct type named like it when they are (an extern's list). *)
Theorem params_roundtrip (a : bool) (F fuel : nat) (es : list pentry) (rest : list token) :
  Forall (entry_ok F) es -> (F + List.length es < fuel)%nat -> check rest TOK_RPAREN = true ->
  parse_params fuel a (render_entries es ++ rest) = Ok (entry_params a 0 es, false, rest).
Proof.
  intros Hok Hf Hr.
  destruct fuel as [|n]; [lia|].
  destruct es as [|e es'].
  - cbn [render_entries app parse_params]; rewrite Hr; reflexivity.
  - destruct (render_entries_head e es' rest) as [l E].
    cbn [parse_params]; rewrite E.
    replace (check (tk_ident (fst e) :: l) TOK_RPAREN) with false by reflexivity.
    replace (check (tk_ident (fst e) :: l) TOK_ELLIPSIS) with false by reflexivity.
    rewrite <- E; apply (params_loop_entries a F); [discriminate|exact Hok|lia|exact Hr].
Qed.

(** [cb: *fn(i32) -> i32], a function-pointer parameter. *)
Definition ex_entries : list pentry :=
  [("a"%string, None);
   ("cb"%string, Some ([tk TOK_STAR; tk TOK_FN; tk TOK_LPAREN; tk TOK_I32; tk TOK_RPAREN;
                        tk TOK_ARROW; tk TOK_I32],
                       TPtr (TFn (TBasic TY_I32) [TBasic TY_I32] false)));
   ("c"%string, None)].

Lemma ex_entries_ok : Forall (entry_ok 6) ex_entries.
Proof. repeat constructor. Qed.

Lemma params_roundtrip_witness :
  parse_params 10 false (render_entries ex_entries ++ [tk TOK_RPAREN])
    = Ok ([("a"%string, TBasic TY_I32); ("cb"%string, TPtr (TFn (TBasic TY_I32) [TBasic TY_I32] false));
           ("c"%string, TBasic TY_I32)], false, [tk TOK_RPAREN]) /\
  parse_params 10 true (render_entries ex_entries ++ [tk TOK_RPAREN])
    = Ok ([("_p0"%string, TStruct "a"); ("cb"%string, TPtr (TFn (TBasic TY_I32) [TBasic TY_I32] false));
           ("_p1"%string, TStruct "c")], false, [tk TOK_RPAREN]).
Proof.
  split.
  - rewrite (params_roundtrip false 6 10 ex_entries [tk TOK_RPAREN] ex_entries_ok
               ltac:(cbn; lia) eq_refl); reflexivity.
  - rewrite (params_roundtrip true 6 10 ex_entries [tk TOK_RPAREN] ex_entries_ok
               ltac:(cbn; lia) eq_refl); reflexivity.
Defined.

(** C10: in the header of a (non-external) function declaration, a
    parameter list mixing bare names and [name: type] parameters, of any
    type, is accepted, and each bare name gets the type [i32]; the return
    type is then read as for any header. *)
Theorem fn_head_bare_params_i32 (F fuel : nat) (has_kw : bool) (f : string)
        (es : list pentry) (rest : list token) :
  Forall (entry_ok F) es -> (F + List.length es < fuel)%nat ->
  parse_fn_head fuel has_kw
    ((if has_kw then [tk TOK_FN] else []) ++
     tk_ident f :: tk TOK_LPAREN :: render_entries es ++ tk TOK_RPAREN :: rest)
  = ('(rt, ts3) <- (if check rest TOK_ARROW then parse_type fuel (next rest)
                     else Ok (if String.eqb f "main"%string then TBasic TY_I32 else TBasic TY_VOID, rest)) ;;
     Ok (FnHead f (entry_params false 0 es) false rt, ts3)).
Proof.
  intros Hok Hf.
  pose proof (params_roundtrip false F fuel es (tk TOK_RPAREN :: rest) Hok Hf eq_refl) as Hp.
  unfold parse_fn_head.
  destruct has_kw; cbn -[parse_params parse_type render_entries];
    rewrite Hp; cbn -[parse_params parse_type render_entries]; reflexivity.
Qed.

Lemma fn_head_bare_params_i32_witness :
  parse_fn_head 12 true
    ([tk TOK_FN; tk_ident "f"; tk TOK_LPAREN] ++ render_entries ex_entries ++
     [tk TOK_RPAREN; tk TOK_ARROW; tk TOK_I64; tk TOK_LBRACE])
  = Ok (FnHead "f" [("a"%string, TBasic TY_I32);
                    ("cb"%string, TPtr (TFn (TBasic TY_I32) [TBasic TY_I32] false));
                    ("c"%string, TBasic TY_I32)] false (TBasic TY_I64), [tk TOK_LBRACE]).
Proof.
  etransitivity;
    [exact (fn_head_bare_params_i32 6 12 true "f" ex_entries
              [tk TOK_ARROW; tk TOK_I64; tk TOK_LBRACE] ex_entries_ok ltac:(cbn; lia))|].
  vm_compute; reflexivity.
Defined.

(** A stop token (a token that is no binary operator and that no rule
    looks at after a complete type or operand, such as [,], [)] or [=])
    ends a type and an operand-level expression like the end of the input:
    what comes after it is never read. *)
Theorem stop_token_ends_parse (t0 : token) (r : list token) (n : nat) :
  stop_tok (kind t0) = true ->
  (forall ts v rest, parse_type n ts = Ok (v, rest) ->
     parse_type n (ts ++ t0 :: r) = Ok (v, rest ++ t0 :: r)) /\
  (forall p ts v rest, 0 < p -> parse_binop n p ts = Ok (v, rest) ->
     parse_binop n p (ts ++ t0 :: r) = Ok (v, rest ++ t0 :: r)).
Proof.
  intros Hk; destruct (parse_extend t0 r Hk n) as (Ht & _ & _ & _ & _ & Hb & _).
  split; [exact Ht | exact Hb].
Qed.

Lemma stop_token_ends_parse_witness :
  stop_tok TOK_COMMA = true /\
  parse_binop 10 1 ([tk_ident "a"; tk TOK_PLUS; tk_int 1] ++ [tk TOK_COMMA; tk_ident "b"])
    = Ok (NBinary TOK_PLUS (NIdent "a") (NIntLit 1), [] ++ [tk TOK_COMMA; tk_ident "b"]).
Proof.
  split; [reflexivity|].
  apply (proj2 (stop_token_ends_parse (tk TOK_COMMA) [tk_ident "b"] 10 eq_refl)); [lia|].
  vm_compute; reflexivity.
Defined.

(** An expression never starts with [)], a newline or [;], and never
    matches the empty input. *)
Theorem expr_first_token (n : nat) (p : Z) (ts : list token) v rest :
  parse_binop n p ts = Ok (v, rest) ->
  exists t ts', ts = t :: ts' /\
    kind t <> TOK_RPAREN /\ kind t <> TOK_NEWLINE /\ kind t <> TOK_SEMI.
Proof. exact (parse_binop_head n p ts v rest). Qed.

Lemma expr_first_token_witness :
  parse_binop 10 1 [tk_ident "a"] = Ok (NIdent "a", []) /\
  exists t ts', [tk_ident "a"] = t :: ts' /\
    kind t <> TOK_RPAREN /\ kind t <> TOK_NEWLINE /\ kind t <> TOK_SEMI.
Proof.
  split; [vm_compute; reflexivity|].
  apply (expr_first_token 10 1 [tk_ident "a"] (NIdent "a") []).
  vm_compute; reflexivity.
Defined.

End ParseCorollaries.


Module LowerCorollaries.
Import Lower.

(** Lowering a statement only appends: blocks and registers are only
    created, existing blocks other than the insert block are untouched,
    the insert block only grows at its end, and the builder ends in a
    valid block. *)
Theorem stmt_lowering_grows (fuel : nat) (g g' : cg) (s : stmt) :
  (cur g < nblocks g)%nat -> cg_stmt fuel g s = Ok g' -> MatchFacts.grows g g'.
Proof. exact (proj1 (MatchFacts.lower_grows fuel) g s g'). Qed.

Definition ex_if : stmt := SIf (ECall "c") [SExpr (ECall "a"); SRet None] (Some [SExpr (ECall "b")]).

Lemma stmt_lowering_grows_witness :
  exists g', cg_stmt 10 fn_entry ex_if = Ok g' /\ MatchFacts.grows fn_entry g'.
Proof.
  exists (match cg_stmt 10 fn_entry ex_if with Ok g => g | _ => fn_entry end).
  split; [vm_compute; reflexivity|].
  apply (stmt_lowering_grows 10 fn_entry _ ex_if); vm_compute; [lia|reflexivity].
Defined.

(** When the most recently deferred statement is a [return], lowering any
    [return] never ends: the deferred [return] lowers the defer array
    again, itself included. *)
Theorem deferred_return_diverges (fuel : nat) (g : cg) (v w : option expr) (ds : list stmt) :
  defers g = ds ++ [SRet w] -> cg_stmt fuel g (SRet v) = NoFuel.
Proof. intros H; exact (LowerFacts.cg_ret_deferred_ret_diverges fuel g v w ds H). Qed.

Definition ex_pending : cg := set_defers fn_entry [SExpr (ECall "log"); SRet None].

Lemma deferred_return_diverges_witness :
  defers ex_pending = [SExpr (ECall "log")] ++ [SRet None] /\
  cg_stmt 50 ex_pending (SRet (Some (EInt 3))) = NoFuel.
Proof.
  split; [reflexivity|].
  apply (deferred_return_diverges 50 ex_pending (Some (EInt 3)) None [SExpr (ECall "log")]).
  reflexivity.
Defined.

Lemma terminated_set_defers (g : cg) (d : list stmt) : terminated (set_defers g d) = terminated g.
Proof. reflexivity. Qed.

Lemma block_defers_fail (ds : list stmt) :
  forall n g ss g', terminated g = false -> (List.length (defers g) <= 64)%nat ->
  (64 < List.length (defers g) + List.length ds)%nat ->
  cg_block n g (map SDefer ds ++ ss) <> Ok g'.
Proof.
  induction ds as [|d ds IH]; intros n g ss g' Ht Hle Hlt; cbn [List.length] in Hlt; [lia|].
  destruct n as [|[|n]]; [discriminate|discriminate|].
  cbn [map app cg_block cg_stmt].
  destruct (Nat.ltb (List.length (defers g)) 64) eqn:E; [|discriminate].
  apply Nat.ltb_lt in E. cbn [bind]. rewrite terminated_set_defers, Ht.
  intros H. apply (IH (S n) (set_defers g (defers g ++ [d])) ss g'); [exact Ht| | |].
  - cbn [defers set_defers]; rewrite length_app; cbn; lia.
  - cbn [defers set_defers]; rewrite length_app; cbn [List.length]; lia.
  - exact H.
Qed.

(** A function body that starts with more than 64 [defer] statements
    never lowers: the 65th [defer] fails the [defer_count < 64] check. *)
Theorem defer_limit (ds ss : list stmt) (rk : ret_kind) :
  (64 < List.length ds)%nat ->
  forall (fuel : nat) (g : cg), cg_fn_decl fuel (map SDefer ds ++ ss) rk <> Ok g.
Proof.
  intros Hl fuel g; unfold cg_fn_decl.
  destruct (cg_block fuel fn_entry (map SDefer ds ++ ss)) as [g1| |] eqn:E; try discriminate.
  exfalso; apply (block_defers_fail ds fuel fn_entry ss g1); [reflexivity|cbn; lia|cbn; lia|exact E].
Qed.

Lemma defer_limit_witness :
  (64 < List.length (repeat (SExpr (ECall "f")) 65))%nat /\
  forall (fuel : nat) (g : cg), cg_fn_decl fuel (map SDefer (repeat (SExpr (ECall "f")) 65) ++ [SRet None]) RVoid <> Ok g.
Proof.
  split; [cbn; lia|].
  apply defer_limit; cbn; lia.
Defined.

(** With 64 deferred statements the same body lowers. *)
Lemma defer_limit_64_ok :
  exists g, cg_fn_decl 200 (map SDefer (repeat (SExpr (ECall "f")) 64) ++ [SRet None]) RVoid = Ok g.
Proof.
  exists (match cg_fn_decl 200 (map SDefer (repeat (SExpr (ECall "f")) 64) ++ [SRet None]) RVoid
          with Ok g => g | _ => fn_entry end).
  vm_compute; reflexivity.
Qed.

End LowerCorollaries.


Module Utf8Facts.
Import Preproc.

(** The byte with value [z] (taken in [0, 256)). *)
Definition byte (z : Z) : ascii := ascii_of_nat (Z.to_nat z).

(** UTF-8 encoding of a code point below [2^21], in the shortest form. *)
Definition utf8_enc (cp : Z) : list ascii :=
  if cp <? 128 then [byte cp]
  else if cp <? 2048 then [byte (192 + cp / 64); byte (128 + cp mod 64)]
  else if cp <? 65536 then
    [byte (224 + cp / 4096); byte (128 + (cp / 64) mod 64); byte (128 + cp mod 64)]
  else
    [byte (240 + cp / 262144); byte (128 + (cp / 4096) mod 64);
     byte (128 + (cp / 64) mod 64); byte (128 + cp mod 64)].

Lemma byte_val (z : Z) : 0 <= z < 256 -> Z.of_nat (nat_of_ascii (byte z)) = z.
Proof.
  intros Hz; unfold byte; rewrite nat_ascii_embedding by lia; lia.
Qed.

Lemma byte_at_app (l rest : list ascii) (i : nat) :
  (i < List.length l)%nat -> byte_at (l ++ rest) i = byte_at l i.
Proof.
  unfold byte_at; revert l; induction i as [|i IH]; intros [|c l] H; cbn in H |- *;
    [lia | reflexivity | lia | apply IH; lia].
Qed.

Lemma lor_low (a b : Z) (k : Z) :
  0 <= k -> 0 <= a -> 0 <= b < 2 ^ k -> Z.lor (a * 2 ^ k) b = a * 2 ^ k + b.
Proof.
  intros Hk Ha Hb.
  rewrite <- Z.lxor_lor, <- Z.add_nocarry_lxor; try reflexivity;
  apply Z.bits_inj'; intros i Hi; rewrite Z.land_spec, Z.bits_0;
  destruct (Z.lt_ge_cases i k) as [Hl|Hl].
  all: try (rewrite <- Z.shiftl_mul_pow2 by lia; rewrite Z.shiftl_spec_low by lia; reflexivity).
  all: rewrite <- (Z.mod_small b (2 ^ k)) by lia; rewrite Z.mod_pow2_bits_high by lia;
       apply andb_false_r.
Qed.

Lemma land_low (x : Z) (k : Z) : 0 <= k -> Z.land x (2 ^ k - 1) = x mod 2 ^ k.
Proof.
  intros Hk; replace (2 ^ k - 1) with (Z.ones k) by (rewrite Z.ones_equiv; lia).
  apply Z.land_ones; lia.
Qed.

Lemma lead_tests (c : Z) : 0 <= c < 256 ->
  (Z.land c 224 =? 192) = ((192 <=? c) && (c <? 224)) /\
  (Z.land c 240 =? 224) = ((224 <=? c) && (c <? 240)) /\
  (Z.land c 248 =? 240) = ((240 <=? c) && (c <? 248)).
Proof.
  intros Hc.
  assert (forallb (fun n => let c := Z.of_nat n in
     Bool.eqb (Z.land c 224 =? 192) ((192 <=? c) && (c <? 224)) &&
     Bool.eqb (Z.land c 240 =? 224) ((224 <=? c) && (c <? 240)) &&
     Bool.eqb (Z.land c 248 =? 240) ((240 <=? c) && (c <? 248))) (seq 0 256) = true) as A
    by (vm_compute; reflexivity).
  rewrite forallb_forall in A.
  specialize (A (Z.to_nat c) ltac:(apply in_seq; lia)).
  rewrite Z2Nat.id in A by lia.
  apply andb_prop in A as [A C]; apply andb_prop in A as [A B].
  apply Bool.eqb_prop in A; apply Bool.eqb_prop in B; apply Bool.eqb_prop in C; auto.
Qed.

Lemma mod_lead (a q m : Z) : 0 < m -> 0 <= q < m -> a mod m = 0 -> (a + q) mod m = q.
Proof.
  intros Hm Hq Ha; rewrite Z.add_mod, Ha by lia; cbn.
  rewrite (Z.mod_small q) by lia; apply Z.mod_small; lia.
Qed.

Lemma shl (a k : Z) : 0 <= k -> Z.shiftl a k = a * 2 ^ k.
Proof. intros; apply Z.shiftl_mul_pow2; lia. Qed.

Ltac zb := repeat match goal with
  | |- context [?a <? ?b] =>
      first [rewrite (proj2 (Z.ltb_lt a b)) by lia | rewrite (proj2 (Z.ltb_ge a b)) by lia]
  | |- context [?a <=? ?b] =>
      first [rewrite (proj2 (Z.leb_le a b)) by lia | rewrite (proj2 (Z.leb_gt a b)) by lia]
  end.

Theorem u8d_utf8_enc (cp : Z) (rest : list ascii) :
  0 <= cp < 2097152 ->
  u8d (utf8_enc cp ++ rest) = (cp, List.length (utf8_enc cp)).
Proof.
  intros Hcp.
  assert (E63 : forall x, Z.land x 63 = x mod 64) by (intros x; exact (land_low x 6 ltac:(lia))).
  assert (E31 : forall x, Z.land x 31 = x mod 32) by (intros x; exact (land_low x 5 ltac:(lia))).
  assert (E15 : forall x, Z.land x 15 = x mod 16) by (intros x; exact (land_low x 4 ltac:(lia))).
  assert (E7 : forall x, Z.land x 7 = x mod 8) by (intros x; exact (land_low x 3 ltac:(lia))).
  pose proof (Z.div_mod cp 64 ltac:(lia)) as D1.
  pose proof (Z.mod_pos_bound cp 64 ltac:(lia)) as M1.
  pose proof (Z.div_mod (cp / 64) 64 ltac:(lia)) as D2.
  pose proof (Z.mod_pos_bound (cp / 64) 64 ltac:(lia)) as M2.
  pose proof (Z.div_mod (cp / 4096) 64 ltac:(lia)) as D3.
  pose proof (Z.mod_pos_bound (cp / 4096) 64 ltac:(lia)) as M3.
  assert (Q2 : cp / 64 / 64 = cp / 4096) by (rewrite Z.div_div by lia; reflexivity).
  assert (Q3 : cp / 4096 / 64 = cp / 262144) by (rewrite Z.div_div by lia; reflexivity).
  rewrite Q2 in D2; rewrite Q3 in D3.
  assert (P1 : 0 <= cp / 64) by (apply Z.div_pos; lia).
  assert (P2 : 0 <= cp / 4096) by (apply Z.div_pos; lia).
  assert (P3 : 0 <= cp / 262144) by (apply Z.div_pos; lia).
  assert (P4 : cp / 262144 < 8) by (apply Z.div_lt_upper_bound; lia).
  unfold u8d, utf8_enc.
  destruct (cp <? 128) eqn:H1; [|destruct (cp <? 2048) eqn:H2; [|destruct (cp <? 65536) eqn:H3]];
    rewrite ?Z.ltb_lt, ?Z.ltb_ge in *;
    rewrite ?byte_at_app by (cbn; lia); unfold byte_at; cbn [skipn cur List.length].
  - rewrite byte_val by lia. rewrite (proj2 (Z.ltb_lt _ _) H1). reflexivity.
  - assert (cp / 64 < 32) by (apply Z.div_lt_upper_bound; lia).
    rewrite !byte_val by lia.
    destruct (lead_tests (192 + cp / 64) ltac:(lia)) as (T1 & T2 & T3).
    rewrite T1, T2, T3. zb. cbn [andb].
    rewrite E31, !E63, (mod_lead 192) by (lia || reflexivity).
    rewrite (mod_lead 128) by (lia || reflexivity).
    rewrite shl, lor_low by lia. f_equal; lia.
  - assert (cp / 4096 < 16) by (apply Z.div_lt_upper_bound; lia).
    rewrite !byte_val by lia.
    destruct (lead_tests (224 + cp / 4096) ltac:(lia)) as (T1 & T2 & _).
    rewrite T1, T2. zb. cbn [andb].
    rewrite E15, !E63, (mod_lead 224) by (lia || reflexivity).
    rewrite !(mod_lead 128) by (lia || reflexivity).
    rewrite !shl by lia.
    rewrite (lor_low (cp / 4096) ((cp / 64) mod 64 * 2 ^ 6) 12) by lia.
    replace (cp / 4096 * 2 ^ 12 + (cp / 64) mod 64 * 2 ^ 6)
      with ((cp / 4096 * 64 + (cp / 64) mod 64) * 2 ^ 6) by lia.
    rewrite lor_low by lia. f_equal; lia.
  - rewrite !byte_val by lia.
    destruct (lead_tests (240 + cp / 262144) ltac:(lia)) as (T1 & T2 & T3).
    rewrite T1, T2, T3. zb. cbn [andb].
    rewrite E7, !E63, (mod_lead 240) by (lia || reflexivity).
    rewrite !(mod_lead 128) by (lia || reflexivity).
    rewrite !shl by lia.
    rewrite (lor_low (cp / 262144) ((cp / 4096) mod 64 * 2 ^ 12) 18) by lia.
    replace (cp / 262144 * 2 ^ 18 + (cp / 4096) mod 64 * 2 ^ 12)
      with ((cp / 262144 * 64 + (cp / 4096) mod 64) * 2 ^ 12) by lia.
    rewrite (lor_low _ ((cp / 64) mod 64 * 2 ^ 6) 12) by lia.
    replace ((cp / 262144 * 64 + (cp / 4096) mod 64) * 2 ^ 12 + (cp / 64) mod 64 * 2 ^ 6)
      with (((cp / 262144 * 64 + (cp / 4096) mod 64) * 64 + (cp / 64) mod 64) * 2 ^ 6) by lia.
    rewrite lor_low by lia. f_equal; lia.
Qed.


Lemma u8d_utf8_enc_witness :
  0 <= 128073 < 2097152 /\ u8d (utf8_enc 128073 ++ [NL]) = (128073, 4%nat).
Proof. split; [lia|]. apply (u8d_utf8_enc 128073 [NL]); lia. Defined.

Lemma skipn_app_length (l r : list ascii) : skipn (List.length l) (l ++ r) = r.
Proof. induction l as [|c l IH]; [reflexivity|exact IH]. Qed.

(** [cem] on a code point followed by U+FE0F consumes both; followed by
    anything else it consumes the code point alone. *)
Theorem cem_utf8 (cp : Z) (rest : list ascii) :
  0 <= cp < 2097152 ->
  cem (utf8_enc cp ++ utf8_enc 65039 ++ rest) cp = (List.length (utf8_enc cp) + 3)%nat /\
  (fst (u8d rest) <> 65039 -> cem (utf8_enc cp ++ rest) cp = List.length (utf8_enc cp)).
Proof.
  intros Hcp; unfold cem; split; [|intros Hn];
    rewrite u8d_utf8_enc by exact Hcp; rewrite Z.eqb_refl; cbn [negb];
    rewrite skipn_app_length.
  - rewrite u8d_utf8_enc by lia; reflexivity.
  - destruct (u8d rest) as [v vb]; cbn in Hn.
    rewrite (proj2 (Z.eqb_neq v 65039) Hn); reflexivity.
Qed.

Lemma cem_utf8_witness :
  0 <= 9889 < 2097152 /\
  cem (utf8_enc 9889 ++ utf8_enc 65039 ++ [NL]) 9889 = 6%nat /\
  (fst (u8d [NL]) <> 65039 -> cem (utf8_enc 9889 ++ [NL]) 9889 = 3%nat).
Proof. split; [lia|]. apply (cem_utf8 9889 [NL]); lia. Defined.

End Utf8Facts.

Module HangFacts.
Import Preproc Utf8Facts.

Lemma zap_enc : PreprocFacts.zap = utf8_enc 9889.
Proof. reflexivity. Qed.

Lemma ic_ascii (c : ascii) : ic c = true -> (nat_of_ascii c < 128)%nat.
Proof.
  unfold ic, isalpha, isdigit; intros H.
  destruct (Ascii.eqb c "_"%char) eqn:E.
  - apply Ascii.eqb_eq in E; subst; cbn; lia.
  - rewrite orb_false_r in H.
    repeat (apply orb_prop in H as [H|H]); apply andb_prop in H as [H1 H2];
      apply Nat.leb_le in H2; lia.
Qed.

Lemma u8d_ic (c : ascii) (r : list ascii) : ic c = true -> fst (u8d (c :: r)) <> 65039.
Proof.
  intros H; pose proof (ic_ascii c H) as Hc.
  unfold u8d, byte_at; cbn [skipn cur].
  rewrite (proj2 (Z.ltb_lt (Z.of_nat (nat_of_ascii c)) 128)) by lia; cbn; lia.
Qed.

Lemma skip_ws_ic (c : ascii) (r : list ascii) : ic c = true -> skip_ws (c :: r) = c :: r.
Proof.
  intros H; pose proof (ic_ascii c H) as Hc; cbn.
  destruct (Ascii.eqb c " "%char) eqn:E1; [apply Ascii.eqb_eq in E1; subst; discriminate|].
  destruct (Ascii.eqb c TAB) eqn:E2; [apply Ascii.eqb_eq in E2; subst; discriminate|].
  reflexivity.
Qed.

Lemma take_ident_app (nm r : list ascii) (c : ascii) :
  forallb ic nm = true -> ic c = false -> take_ident (nm ++ c :: r) = (nm, c :: r).
Proof.
  intros Hn Hc; induction nm as [|x nm IH]; cbn in *.
  - rewrite Hc; reflexivity.
  - apply andb_prop in Hn as [Hx Hn]; rewrite Hx, (IH Hn); reflexivity.
Qed.

Section BadParam.

Variable c : ascii.
Hypothesis Hic : ic c = false.
Hypothesis Hnul : c <> NUL.
Hypothesis Hrp : c <> ")"%char.
Hypothesis Hsp : c <> " "%char.
Hypothesis Htab : c <> TAB.
Hypothesis Hcomma : c <> ","%char.

Lemma neq_eqb (a b : ascii) : a <> b -> Ascii.eqb a b = false.
Proof. intros H; destruct (Ascii.eqb_spec a b); congruence. Qed.

Lemma params_scan_stuck (n : nat) (q : list ascii) (tp : list (list ascii)) :
  params_scan n (c :: q) tp = NoFuel.
Proof.
  revert tp; induction n as [|n IH]; intros tp; [reflexivity|].
  cbn [params_scan]. unfold at_end, is_c; cbn [cur].
  rewrite (neq_eqb _ _ Hnul), (neq_eqb _ _ Hrp); cbn [orb].
  cbn [skip_ws]. rewrite (neq_eqb _ _ Hsp), (neq_eqb _ _ Htab); cbn [orb].
  cbn [take_ident]. rewrite Hic. cbn [bind]. cbn [skip_ws].
  rewrite (neq_eqb _ _ Hsp), (neq_eqb _ _ Htab); cbn [orb cur].
  rewrite (neq_eqb _ _ Hcomma). apply IH.
Qed.

End BadParam.

(** A macro definition line whose parameter list holds a character that is
    neither an identifier character, a blank, a comma nor [)] makes
    [collect] loop for ever: the parameter loop does not advance. *)
Theorem collect_hangs_on_bad_param (nm rest : list ascii) (c : ascii) (fuel : nat) :
  nm <> [] -> forallb ic nm = true ->
  ic c = false -> c <> NUL -> c <> ")"%char -> c <> " "%char -> c <> TAB -> c <> ","%char ->
  collect fuel (PreprocFacts.zap ++ nm ++ "("%char :: c :: rest) = NoFuel.
Proof.
  intros Hne Hnm Hic Hnul Hrp Hsp Htab Hcomma.
  destruct nm as [|x nm']; [congruence|].
  assert (Hx : ic x = true) by (cbn in Hnm; apply andb_prop in Hnm; tauto).
  destruct fuel as [|n]; [reflexivity|].
  unfold collect; cbn [collect_loop].
  rewrite zap_enc. cbn [app].
  set (L := x :: nm' ++ "("%char :: c :: rest).
  assert (HL : fst (u8d L) <> 65039) by (apply u8d_ic, Hx).
  replace (at_end (utf8_enc 9889 ++ L)) with false by reflexivity.
  replace (skip_ws (utf8_enc 9889 ++ L)) with (utf8_enc 9889 ++ L) by reflexivity.
  unfold macro_def.
  rewrite (proj2 (cem_utf8 9889 L ltac:(lia)) HL).
  replace (List.length (utf8_enc 9889)) with 3%nat by reflexivity.
  replace (skipn 3 (utf8_enc 9889 ++ L)) with L by reflexivity.
  cbn [Nat.eqb]. subst L. rewrite skip_ws_ic by exact Hx.
  rewrite (take_ident_app (x :: nm') (c :: rest) "("%char Hnm eq_refl : take_ident (x :: nm' ++ "("%char :: c :: rest) = _).
  unfold is_c; cbn [cur tl]. rewrite Ascii.eqb_refl.
  rewrite params_scan_stuck by assumption. reflexivity.
Qed.

Lemma collect_hangs_on_bad_param_witness :
  PreprocFacts.bytes "F" <> [] /\ forallb ic (PreprocFacts.bytes "F") = true /\
  ic "-"%char = false /\ "-"%char <> NUL /\ "-"%char <> ")"%char /\ "-"%char <> " "%char /\
  "-"%char <> TAB /\ "-"%char <> ","%char /\
  collect 1000 (PreprocFacts.zap ++ PreprocFacts.bytes "F" ++ "("%char :: "-"%char
                  :: PreprocFacts.bytes ")" ++ PreprocFacts.point ++ PreprocFacts.bytes "x")
    = NoFuel.
Proof.
  split; [discriminate|split; [reflexivity|split; [reflexivity|]]].
  split; [discriminate|split; [discriminate|split; [discriminate|split; [discriminate|split; [discriminate|]]]]].
  apply collect_hangs_on_bad_param;
    [discriminate|reflexivity|reflexivity|discriminate|discriminate|discriminate|discriminate|discriminate].
Defined.

End HangFacts.
